(** * QuantF1: equity, drawdown, archetype and ratio pipelines

    A shallow embedding of the numeric core of

      - [5_Drawdown_and_Recovery/execution_equity.py]
      - [5_Drawdown_and_Recovery/drawdown_metrics.py]
      - [5_Drawdown_and_Recovery/resilience_profiler.py]
      - [5_Drawdown_and_Recovery/run_drawdown_analysis.py]
      - [1_Sharpe_Ratio/driver_sharpe_ratio.py]
      - [2_Sortino_Ratio/driver_sortino_ratio.py]

    Numbers.  The Python code works on float64 columns.  A column cell is
    modelled as [num]: either [NaN] (pandas' missing value) or an exact
    rational [Fin q].  Rounding and overflow are abstracted away; everything
    that the code does with a missing value (comparisons that are false,
    arithmetic that propagates, reductions that skip) is kept.

    Tables.  A DataFrame is a list of row records, in row order.

    Boundary.  What the data provider and the fitting libraries return is
    taken as given: the lap table of the session, the prediction of the
    fitted benchmark for each lap ([ExpectedPace], [BenchmarkTime]) and the
    square root.  Plots, files and the recovery-curvature fit are not part
    of the embedding.  Of the k-means fit in [profile_drivers] the
    embedding keeps when it raises (fewer rows than clusters); the
    [Cluster] column that it adds otherwise is left out. *)

From Stdlib Require Import String QArith Qabs Qround ZArith Bool Lia Lqa Permutation Sorted List.
Import ListNotations.
Open Scope Q_scope.

(* ------------------------------------------------------------------ *)
(** ** Column cells and the pandas / numpy reductions used by the code *)
(* ------------------------------------------------------------------ *)

Module Num.

Inductive num : Type :=
| NaN : num
| Fin : Q -> num.

Definition is_nan (a : num) : bool :=
  match a with NaN => true | Fin _ => false end.

(** Equality of cells up to the value of the rational. *)
Definition num_eq (a b : num) : Prop :=
  match a, b with
  | NaN, NaN => True
  | Fin x, Fin y => x == y
  | _, _ => False
  end.

Definition Qltb (x y : Q) : bool := negb (Qle_bool y x).

Definition add (a b : num) : num :=
  match a, b with Fin x, Fin y => Fin (x + y) | _, _ => NaN end.
Definition sub (a b : num) : num :=
  match a, b with Fin x, Fin y => Fin (x - y) | _, _ => NaN end.
Definition neg (a : num) : num :=
  match a with Fin x => Fin (- x) | NaN => NaN end.
Definition abs (a : num) : num :=
  match a with Fin x => Fin (Qabs x) | NaN => NaN end.
(** Every division of the modelled code has a divisor that a guard keeps
    away from zero; a zero divisor is mapped to [NaN]. *)
Definition div (a b : num) : num :=
  match a, b with
  | Fin x, Fin y => if Qeq_bool y 0 then NaN else Fin (x / y)
  | _, _ => NaN
  end.

(** Comparisons: false as soon as one side is missing. *)
Definition ltb (a b : num) : bool :=
  match a, b with Fin x, Fin y => Qltb x y | _, _ => false end.
Definition leb (a b : num) : bool :=
  match a, b with Fin x, Fin y => Qle_bool x y | _, _ => false end.
Definition gtb (a b : num) : bool := ltb b a.
Definition geb (a b : num) : bool := leb b a.

(** The values of a column that are present ([dropna]). *)
Fixpoint dropna (xs : list num) : list Q :=
  match xs with
  | [] => []
  | NaN :: t => dropna t
  | Fin x :: t => x :: dropna t
  end.

Definition Qsum (xs : list Q) : Q := fold_right Qplus 0 xs.

Definition Qmean (xs : list Q) : Q := Qsum xs / inject_Z (Z.of_nat (length xs)).

(** [Series.cumsum()]: missing cells stay missing and are skipped by the
    running total. *)
Fixpoint cumsum_from (acc : Q) (xs : list num) : list num :=
  match xs with
  | [] => []
  | NaN :: t => NaN :: cumsum_from acc t
  | Fin x :: t => Fin (acc + x) :: cumsum_from (acc + x) t
  end.
Definition cumsum (xs : list num) : list num := cumsum_from 0 xs.

Definition Qmax (x y : Q) : Q := if Qle_bool x y then y else x.
Definition Qmin (x y : Q) : Q := if Qle_bool x y then x else y.

(** [Series.cummax()]: same treatment of missing cells. *)
Fixpoint cummax_from (m : option Q) (xs : list num) : list num :=
  match xs with
  | [] => []
  | NaN :: t => NaN :: cummax_from m t
  | Fin x :: t =>
      let m' := match m with None => x | Some y => Qmax y x end in
      Fin m' :: cummax_from (Some m') t
  end.
Definition cummax (xs : list num) : list num := cummax_from None xs.

(** [Series.min()], [Series.sum()], [Series.mean()]: skip missing cells;
    the minimum and the mean of nothing are missing. *)
Definition series_min (xs : list num) : num :=
  match dropna xs with
  | [] => NaN
  | x :: t => Fin (fold_left Qmin t x)
  end.
Definition series_sum (xs : list num) : num := Fin (Qsum (dropna xs)).
Definition series_mean (xs : list num) : num :=
  match dropna xs with
  | [] => NaN
  | l => Fin (Qmean l)
  end.

(** [np.mean] of a Python list: nothing is skipped. *)
Definition np_sum (xs : list num) : num := fold_right add (Fin 0) xs.
Definition np_mean (xs : list num) : num :=
  match xs with
  | [] => NaN
  | _ => div (np_sum xs) (Fin (inject_Z (Z.of_nat (length xs))))
  end.

(** A cell that holds a number. *)
Definition present (v : num) : Prop := exists q, v = Fin q.

(** [p] is a running-peak cell for the cell [x]: missing with it, and
    otherwise a number that is at least [x] (and at least the peak [m]
    carried so far). *)
Definition peak_ok (m : option Q) (x p : num) : Prop :=
  match x with
  | NaN => p = NaN
  | Fin v =>
      exists q, p = Fin q /\ v <= q
                /\ match m with Some y => y <= q | None => True end
  end.

End Num.
Export Num.

(* ------------------------------------------------------------------ *)
(** ** Sorting and order statistics *)
(* ------------------------------------------------------------------ *)

Section Sort.
Context {A : Type} (le : A -> A -> bool).

Fixpoint insert_sorted (x : A) (l : list A) : list A :=
  match l with
  | [] => [x]
  | y :: t => if le x y then x :: l else y :: insert_sorted x t
  end.

(** [sort_values]: rows keep their relative order when keys are equal. *)
Fixpoint sort_by (l : list A) : list A :=
  match l with
  | [] => []
  | x :: t => insert_sorted x (sort_by t)
  end.
End Sort.

Definition Qsort : list Q -> list Q := sort_by Qle_bool.

(** Linear-interpolation quantile of numpy and pandas: with the [n] values
    sorted, position [p * (n-1)] split into its floor [lo] and fraction;
    the result is [a(lo) + frac * (a(lo+1) - a(lo))]. *)
Definition Qfloor_nat (x : Q) : nat := Z.to_nat (Qfloor x).

Definition quantile_sorted (p : Q) (a : list Q) : num :=
  match a with
  | [] => NaN
  | x0 :: _ =>
      let pos := p * inject_Z (Z.of_nat (length a - 1)) in
      let lo := Qfloor_nat pos in
      let frac := pos - inject_Z (Z.of_nat lo) in
      let vlo := nth lo a x0 in
      let vhi := nth (S lo) a vlo in
      Fin (vlo + frac * (vhi - vlo))
  end.

(** [np.percentile(values, q)] on values without missing cells. *)
Definition np_percentile (q : Q) (values : list Q) : num :=
  quantile_sorted (q / 100) (Qsort values).

(** [Series.quantile(p)] and [Series.median()]: missing cells skipped. *)
Definition series_quantile (p : Q) (xs : list num) : num :=
  quantile_sorted p (Qsort (dropna xs)).
Definition series_median (xs : list num) : num := series_quantile (1 # 2) xs.

(** [np.clip(x, lo, hi)]. *)
Definition np_clip (x : num) (lo hi : Q) : num :=
  match x with
  | NaN => NaN
  | Fin v => Fin (Qmin (Qmax v lo) hi)
  end.

(** The median in its textbook form: with the values in ascending order,
    the middle one, or the mean of the two middle ones. *)
Definition median_of (values : list Q) (m : Q) : Prop :=
  exists sorted,
    Permutation sorted values
    /\ StronglySorted Qle sorted
    /\ m == (nth ((List.length values - 1) / 2) sorted 0
             + nth (List.length values / 2) sorted 0) / 2.

(** [c] is [m] brought into the interval from [lo] to [hi]. *)
Definition clamped (m lo hi c : Q) : Prop :=
  lo <= c /\ c <= hi
  /\ (m < lo -> c == lo) /\ (hi < m -> c == hi)
  /\ (lo <= m -> m <= hi -> c == m).

(** [Series.unique()]: first occurrences, in order. *)
Section Unique.
Context {A : Type} (eqb : A -> A -> bool).

Fixpoint unique_acc (seen : list A) (l : list A) : list A :=
  match l with
  | [] => []
  | x :: t =>
      if existsb (eqb x) seen then unique_acc seen t
      else x :: unique_acc (x :: seen) t
  end.
Definition unique (l : list A) : list A := unique_acc [] l.
End Unique.

(** [Series.shift(1, fill_value=v)]. *)
Definition shift1 {A : Type} (fill : A) (l : list A) : list A :=
  firstn (List.length l) (fill :: l).

(** [Series.idxmax()]: position of the first largest present value; no
    position when every cell is missing (the lookup that follows it in the
    code then raises). *)
Fixpoint idxmax_from (i : nat) (best : option (nat * Q)) (xs : list num)
  : option nat :=
  match xs with
  | [] => option_map fst best
  | NaN :: t => idxmax_from (S i) best t
  | Fin x :: t =>
      match best with
      | None => idxmax_from (S i) (Some (i, x)) t
      | Some (j, y) =>
          if Qltb y x then idxmax_from (S i) (Some (i, x)) t
          else idxmax_from (S i) best t
      end
  end.
Definition idxmax (xs : list num) : option nat := idxmax_from 0 None xs.

(* ------------------------------------------------------------------ *)
(** ** [config.py] *)
(* ------------------------------------------------------------------ *)

Module Config.

Record t : Type := {
  UNDER_PRESSURE_THRESHOLD_SECONDS : Q;
  SC_EQUITY_FREEZE : bool;
  DRAWDOWN_ENTRY_THRESHOLD : Q;
  RECOVERY_COMPLETE_THRESHOLD : Q;
  MIN_RECOVERY_DURATION : Z;
  INCIDENT_THRESHOLD_OPERATIONAL : Q;
  INCIDENT_THRESHOLD_MAJOR : Q;
  INCIDENT_THRESHOLD_TRAFFIC : Q;
  MDD_BUFFER_SECONDS : Q
}.

(** The values the module assigns. *)
Definition default : t := {|
  UNDER_PRESSURE_THRESHOLD_SECONDS := 1;
  SC_EQUITY_FREEZE := true;
  DRAWDOWN_ENTRY_THRESHOLD := - (1 # 10);
  RECOVERY_COMPLETE_THRESHOLD := - (5 # 100);
  MIN_RECOVERY_DURATION := 1;
  INCIDENT_THRESHOLD_OPERATIONAL := 5 # 2;
  INCIDENT_THRESHOLD_MAJOR := 2;
  INCIDENT_THRESHOLD_TRAFFIC := 2 # 10;
  MDD_BUFFER_SECONDS := 2
|}.

(** The same module with the freeze switch turned off. *)
Definition freeze_off : t := {|
  UNDER_PRESSURE_THRESHOLD_SECONDS := 1;
  SC_EQUITY_FREEZE := false;
  DRAWDOWN_ENTRY_THRESHOLD := - (1 # 10);
  RECOVERY_COMPLETE_THRESHOLD := - (5 # 100);
  MIN_RECOVERY_DURATION := 1;
  INCIDENT_THRESHOLD_OPERATIONAL := 5 # 2;
  INCIDENT_THRESHOLD_MAJOR := 2;
  INCIDENT_THRESHOLD_TRAFFIC := 2 # 10;
  MDD_BUFFER_SECONDS := 2
|}.

End Config.

Inductive FailureType : Type :=
| FT_None | FT_Operational | FT_MajorIncident | FT_Traffic.

Definition FailureType_eqb (a b : FailureType) : bool :=
  match a, b with
  | FT_None, FT_None | FT_Operational, FT_Operational
  | FT_MajorIncident, FT_MajorIncident | FT_Traffic, FT_Traffic => true
  | _, _ => false
  end.

(* ------------------------------------------------------------------ *)
(** ** [execution_equity.py] *)
(* ------------------------------------------------------------------ *)

(** A row of [all_laps].  [IntervalToAhead], [IntervalToBehind] (built from
    the lap-end timestamps) and [ExpectedPace] (the prediction of the fitted
    benchmark, missing when there is no model) are taken as columns. *)
Module AllLaps.
Record row : Type := {
  DriverNumber : string;
  LapNumber : Z;
  PitInTime_notna : bool;
  PitOutTime_notna : bool;
  TrackStatus : option string;
  IntervalToAhead : num;
  IntervalToBehind : num;
  LapTimeSeconds : num;
  ExpectedPace : num
}.
Definition IsPit (r : row) : bool := PitInTime_notna r || PitOutTime_notna r.
(** [IsSC]: any status but green ['1']; [False] throughout when the table
    has no [TrackStatus] column ([None]). *)
Definition IsSC (r : row) : bool :=
  match TrackStatus r with
  | Some status => negb (String.eqb status "1")
  | None => false
  end.
Definition RawDelta (r : row) : num := sub (LapTimeSeconds r) (ExpectedPace r).
End AllLaps.

(** A row of the equity table handed on to the drawdown metrics. *)
Module EquityDf.
Record row : Type := {
  Driver : string;
  LapNumber : Z;
  EquityChange : num;
  ExecutionEquity : num;
  FailureType_ : FailureType;
  InTraffic : bool;
  UnderPressure : bool;
  IsSC : bool;
  RestartLap : bool
}.
End EquityDf.

Module ExecutionEquity.
Import AllLaps.

Definition valid_gaps (all_laps : list row) : list Q :=
  dropna (map IntervalToAhead
    (filter (fun r => negb (IsPit r) && negb (IsSC r)
                      && gtb (IntervalToAhead r) (Fin (1 # 10))
                      && ltb (IntervalToAhead r) (Fin 9)) all_laps)).

Definition estimate_traffic_threshold_dynamically (all_laps : list row) : num :=
  let valid := valid_gaps all_laps in
  if (List.length valid <? 50)%nat then Fin (13 # 10)
  else np_clip (np_percentile 50 valid) (8 # 10) 3.

(** Step 5: the typical pit loss of the race. *)
Definition pit_laps (all_laps : list row) : list row :=
  filter (fun r => IsPit r && negb (IsSC r)) all_laps.
Definition avg_pit_loss (all_laps : list row) : num :=
  match pit_laps all_laps with
  | [] => Fin 20
  | ls => series_median (map RawDelta ls)
  end.

(** Step 6.  The function reads no configuration value: [SC_EQUITY_FREEZE]
    is imported by the module and used nowhere. *)
Definition calculate_equity_change (cfg : Config.t) (avg_pit_loss : num)
    (r : row) : num :=
  if IsSC r then Fin 0
  else
    let base_equity := Fin 0 in
    if IsPit r then
      let loss := sub (RawDelta r) avg_pit_loss in
      neg loss
    else if negb (is_nan (RawDelta r)) then neg (RawDelta r)
    else base_equity.

(** Step 7: [np.select], first condition that holds. *)
Definition failure_type (cfg : Config.t) (is_pit in_traffic : bool)
    (equity_change : num) : FailureType :=
  if is_pit && ltb equity_change (Fin (- Config.INCIDENT_THRESHOLD_OPERATIONAL cfg))
  then FT_Operational
  else if negb is_pit && ltb equity_change (Fin (- Config.INCIDENT_THRESHOLD_MAJOR cfg))
  then FT_MajorIncident
  else if in_traffic && ltb equity_change (Fin (- Config.INCIDENT_THRESHOLD_TRAFFIC cfg))
  then FT_Traffic
  else FT_None.

(** The session: its driver numbers, its laps, and the abbreviation the
    data provider gives for a driver number. *)
Record Session : Type := {
  drivers : list string;
  laps : list row;
  Abbreviation : string -> string
}.

Definition lap_le (a b : row) : bool := (LapNumber a <=? LapNumber b)%Z.

(** The laps of one driver, in lap-number order. *)
Definition d_laps (s : Session) (driver : string) : list row :=
  sort_by lap_le (filter (fun r => String.eqb (DriverNumber r) driver) (laps s)).

Definition EquityChange_of (cfg : Config.t) (s : Session) (r : row) : num :=
  calculate_equity_change cfg (avg_pit_loss (laps s)) r.

Fixpoint zip3 {A B C : Type} (a : list A) (b : list B) (c : list C)
  : list (A * B * C) :=
  match a, b, c with
  | x :: a', y :: b', z :: c' => (x, y, z) :: zip3 a' b' c'
  | _, _, _ => []
  end.

(** Step 8 for one driver: cumulative equity and restart flag. *)
Definition driver_equity (cfg : Config.t) (s : Session) (driver : string)
  : list EquityDf.row :=
  let rows := d_laps s driver in
  let traffic_threshold := estimate_traffic_threshold_dynamically (laps s) in
  let changes := map (EquityChange_of cfg s) rows in
  let equity := cumsum changes in
  let was_sc := shift1 false (map IsSC rows) in
  map (fun '(r, e, w) =>
         let in_traffic := ltb (IntervalToAhead r) traffic_threshold in
         let change := EquityChange_of cfg s r in
         {| EquityDf.Driver := Abbreviation s driver;
            EquityDf.LapNumber := LapNumber r;
            EquityDf.EquityChange := change;
            EquityDf.ExecutionEquity := e;
            EquityDf.FailureType_ := failure_type cfg (IsPit r) in_traffic change;
            EquityDf.InTraffic := in_traffic;
            EquityDf.UnderPressure :=
              ltb (IntervalToBehind r)
                  (Fin (Config.UNDER_PRESSURE_THRESHOLD_SECONDS cfg));
            EquityDf.IsSC := IsSC r;
            EquityDf.RestartLap := w && negb (IsSC r) |})
      (zip3 rows equity was_sc).

(** The table returned for the race: the curves of the drivers that have
    laps, concatenated; no table ([None]) when there is no curve at all
    ([pd.concat] of nothing raises and the handler returns [None]). *)
Definition equity_curves (cfg : Config.t) (s : Session)
  : list (list EquityDf.row) :=
  map (driver_equity cfg s)
      (filter (fun d => negb (Nat.eqb (List.length (d_laps s d)) 0)) (drivers s)).

Definition calculate_execution_equity (cfg : Config.t) (s : Session)
  : option (list EquityDf.row) :=
  match equity_curves cfg s with
  | [] => None
  | curves => Some (concat curves)
  end.

End ExecutionEquity.

(* ------------------------------------------------------------------ *)
(** ** [drawdown_metrics.py] *)
(* ------------------------------------------------------------------ *)

Module DrawdownMetrics.
Import EquityDf.

(** A row of [d_df]: an equity row with its [Peak] and [Drawdown]. *)
Record d_row : Type := {
  base : EquityDf.row;
  Peak : num;
  Drawdown : num
}.

Definition lap_le (a b : EquityDf.row) : bool := (LapNumber a <=? LapNumber b)%Z.

Fixpoint zip {A B : Type} (a : list A) (b : list B) : list (A * B) :=
  match a, b with
  | x :: a', y :: b' => (x, y) :: zip a' b'
  | _, _ => []
  end.

(** Step 1 on rows already in lap order. *)
Definition with_drawdown (rows : list EquityDf.row) : list d_row :=
  map (fun '(r, p) =>
         {| base := r; Peak := p; Drawdown := sub (ExecutionEquity r) p |})
      (zip rows (cummax (map ExecutionEquity rows))).

Definition d_df (equity_df : list EquityDf.row) (driver : string) : list d_row :=
  with_drawdown
    (sort_by lap_le (filter (fun r => String.eqb (Driver r) driver) equity_df)).

Definition mdd (d : list d_row) : num := series_min (map Drawdown d).

(** The local variables of the episode scan. *)
Record scan : Type := {
  in_dd : bool;
  trough_lap : Z;
  trough_equity : num;
  current_failure_type : FailureType;
  recovery_velocities : list num;
  recovery_types : list FailureType
}.

Definition scan_init : scan := {|
  in_dd := false;
  trough_lap := 0;
  trough_equity := Fin 0;
  current_failure_type := FT_None;
  recovery_velocities := [];
  recovery_types := []
|}.

(** One iteration of the loop over [d_df.iterrows()]. *)
Definition scan_step (cfg : Config.t) (st : scan) (r : d_row) : scan :=
  if ltb (Drawdown r) (Fin (Config.DRAWDOWN_ENTRY_THRESHOLD cfg)) then
    let st1 :=
      if negb (in_dd st) then
        {| in_dd := true;
           trough_lap := LapNumber (base r);
           trough_equity := ExecutionEquity (base r);
           current_failure_type := FailureType_ (base r);
           recovery_velocities := recovery_velocities st;
           recovery_types := recovery_types st |}
      else st in
    if ltb (ExecutionEquity (base r)) (trough_equity st1) then
      {| in_dd := in_dd st1;
         trough_lap := LapNumber (base r);
         trough_equity := ExecutionEquity (base r);
         current_failure_type := current_failure_type st1;
         recovery_velocities := recovery_velocities st1;
         recovery_types := recovery_types st1 |}
    else st1
  else if in_dd st
          && geb (Drawdown r) (Fin (Config.RECOVERY_COMPLETE_THRESHOLD cfg)) then
    let end_lap := LapNumber (base r) in
    let duration := (end_lap - trough_lap st)%Z in
    if (Config.MIN_RECOVERY_DURATION cfg <? duration)%Z then
      let total_recovery := abs (sub (ExecutionEquity (base r)) (trough_equity st)) in
      let avg_rate := div total_recovery (Fin (inject_Z duration)) in
      {| in_dd := false;
         trough_lap := trough_lap st;
         trough_equity := trough_equity st;
         current_failure_type := current_failure_type st;
         recovery_velocities := recovery_velocities st ++ [avg_rate];
         recovery_types := recovery_types st ++ [current_failure_type st] |}
    else
      {| in_dd := false;
         trough_lap := trough_lap st;
         trough_equity := trough_equity st;
         current_failure_type := current_failure_type st;
         recovery_velocities := recovery_velocities st;
         recovery_types := recovery_types st |}
  else st.

Definition run_scan (cfg : Config.t) (st : scan) (d : list d_row) : scan :=
  fold_left (scan_step cfg) d st.

(** The finalized episodes of one category: their recovery velocities. *)
Definition relevant_rates (st : scan) (r_type : FailureType) : list num :=
  map fst (filter (fun vt => FailureType_eqb (snd vt) r_type)
                  (zip (recovery_velocities st) (recovery_types st))).

(** Step 4, first loop: one entry per category. *)
Definition type_recovery_first (st : scan) (r_type : FailureType) : num :=
  match relevant_rates st r_type with
  | [] => NaN
  | rates => np_mean rates
  end.

(** Step 4, second block: the traffic entry is written again. *)
Definition traffic_resilience (st : scan) : num :=
  match relevant_rates st FT_Traffic with
  | (_ :: _) as traffic_rates => np_mean traffic_rates
  | [] =>
      match recovery_velocities st with
      | [] => NaN
      | vs => np_mean vs
      end
  end.

(** One entry of [metrics_summary] (curvature, shape and the confidence
    interval are left out). *)
Record summary : Type := {
  s_Driver : string;
  Max_Drawdown : num;
  Reset_Velocity : num;
  Restart_Delta : num;
  Major_Incident_Resilience : num;
  Driver_Error_Resilience : num;
  Traffic_Resilience : num;
  Operational_Resilience : num;
  Spin_Off_Track_Resilience : num;
  Lockup_Error_Resilience : num
}.

Definition avg_restart_delta (d : list d_row) : num :=
  match filter (fun r => RestartLap (base r)) d with
  | [] => Fin 0
  | restart_laps => series_mean (map (fun r => EquityChange (base r)) restart_laps)
  end.

Definition episodes (cfg : Config.t) (d : list d_row) : scan :=
  run_scan cfg scan_init d.

Definition driver_metrics (cfg : Config.t) (driver : string) (d : list d_row)
  : summary :=
  let st := episodes cfg d in
  let major := type_recovery_first st FT_MajorIncident in
  {| s_Driver := driver;
     Max_Drawdown := mdd d;
     Reset_Velocity :=
       match recovery_velocities st with
       | [] => Fin 0
       | vs => np_mean vs
       end;
     Restart_Delta := avg_restart_delta d;
     Major_Incident_Resilience := major;
     Driver_Error_Resilience := major;
     Traffic_Resilience := traffic_resilience st;
     Operational_Resilience := type_recovery_first st FT_Operational;
     Spin_Off_Track_Resilience := Fin 1;
     Lockup_Error_Resilience := if is_nan major then Fin 1 else major |}.

Definition calculate_drawdown_metrics (cfg : Config.t)
    (equity_df : list EquityDf.row) : list summary :=
  map (fun driver => driver_metrics cfg driver (d_df equity_df driver))
      (unique String.eqb (map Driver equity_df)).

(** What the scan keeps true of its variables. *)
Definition scan_inv (st : scan) : Prop :=
  present (trough_equity st)
  /\ Forall present (recovery_velocities st)
  /\ List.length (recovery_velocities st) = List.length (recovery_types st).

(** [value] is the per-category entry for the recorded [rates]: missing
    without a rate, their mean otherwise. *)
Definition category_mean (rates : list num) (value : num) : Prop :=
  match rates with
  | [] => value = NaN
  | _ => value = np_mean rates /\ present value
  end.

End DrawdownMetrics.

(* ------------------------------------------------------------------ *)
(** ** Calls that can raise *)
(* ------------------------------------------------------------------ *)

(** The exceptions that the modelled part of the season analysis lets
    through: the [ValueError] of scikit-learn's k-means when it is given
    fewer samples than clusters; the failure of the lookup at
    [idxmax()] of a column in which every cell is missing; and the
    [TypeError] of subscripting [None]. *)
Inductive error : Type :=
| KMeansTooFewSamples
| NoRestartDelta
| NoneNotSubscriptable.

(** How a call ends: it returns a value, or raises. *)
Inductive outcome (A : Type) : Type :=
| Returns (a : A)
| Raises (e : error).
Arguments Returns {A} a.
Arguments Raises {A} e.

(* ------------------------------------------------------------------ *)
(** ** [resilience_profiler.py] *)
(* ------------------------------------------------------------------ *)

Module ResilienceProfiler.

Inductive Profile : Type :=
| Entropy_King
| Steady_Operator
| Elastic_Aggressor
| Brittle_Performer
| Outlier_Critical_Fail
| Volatile_Performer.

Definition Profile_eqb (a b : Profile) : bool :=
  match a, b with
  | Entropy_King, Entropy_King
  | Steady_Operator, Steady_Operator
  | Elastic_Aggressor, Elastic_Aggressor
  | Brittle_Performer, Brittle_Performer
  | Outlier_Critical_Fail, Outlier_Critical_Fail
  | Volatile_Performer, Volatile_Performer => true
  | _, _ => false
  end.

(** A row of [aggregated_metrics_df]; [Resilience_Profile] is the column
    that [profile_drivers] adds ([None] before it is written). *)
Record row : Type := {
  Driver : string;
  Max_Drawdown : num;
  Reset_Velocity : num;
  Restart_Delta : num;
  Resilience_Profile : option Profile
}.

Definition set_profile (p : Profile) (r : row) : row :=
  {| Driver := Driver r;
     Max_Drawdown := Max_Drawdown r;
     Reset_Velocity := Reset_Velocity r;
     Restart_Delta := Restart_Delta r;
     Resilience_Profile := Some p |}.

Definition assign_archetype (cfg : Config.t) (df : list row) (r : row) : Profile :=
  let mdd_q70 := series_quantile (7 # 10) (map Max_Drawdown df) in
  let rv_q70 := series_quantile (7 # 10) (map Reset_Velocity df) in
  let mdd_median := series_median (map Max_Drawdown df) in
  let rv_median := series_median (map Reset_Velocity df) in
  let shallow := sub mdd_median (Fin (Config.MDD_BUFFER_SECONDS cfg)) in
  if geb (Max_Drawdown r) mdd_q70 && geb (Reset_Velocity r) rv_q70
     && geb (Restart_Delta r) (Fin 0)
  then Entropy_King
  else if geb (Max_Drawdown r) shallow then Steady_Operator
  else if geb (Reset_Velocity r) (add rv_median (Fin (5 # 100)))
  then Elastic_Aggressor
  else if ltb (Max_Drawdown r) shallow && ltb (Reset_Velocity r) rv_median
  then Brittle_Performer
  else if leb (Max_Drawdown r) (series_quantile (1 # 10) (map Max_Drawdown df))
  then Outlier_Critical_Fail
  else Volatile_Performer.

Definition has_king (df : list row) : bool :=
  existsb (fun r => match Resilience_Profile r with
                    | Some p => Profile_eqb p Entropy_King
                    | None => false
                    end) df.

(** [df.loc[i, 'Resilience Profile'] = p] on the default integer index. *)
Fixpoint set_profile_at (i : nat) (p : Profile) (df : list row) : list row :=
  match df, i with
  | [], _ => []
  | r :: t, O => set_profile p r :: t
  | r :: t, S j => r :: set_profile_at j p t
  end.

(** [KMeans(n_clusters=8, ...)]: the number of clusters asked for. *)
Definition n_clusters : nat := 8.

(** [profile_drivers].  An empty table returns [None].  The k-means fit
    that precedes the rules raises [ValueError] on a table with fewer rows
    than clusters; on a larger table it only adds the [Cluster] column,
    which is not modelled.  Then come the rules and the post-hoc
    reassignment, which raises when there is no restart delta to take the
    largest of.  The confidence score that is added last is not
    modelled. *)
Definition profile_drivers (cfg : Config.t) (aggregated_metrics_df : list row)
  : outcome (option (list row)) :=
  match aggregated_metrics_df with
  | [] => Returns None
  | _ =>
      if (List.length aggregated_metrics_df <? n_clusters)%nat
      then Raises KMeansTooFewSamples
      else
        let labelled :=
          map (fun r => set_profile (assign_archetype cfg aggregated_metrics_df r) r)
              aggregated_metrics_df in
        if has_king labelled then Returns (Some labelled)
        else
          match idxmax (map Restart_Delta labelled) with
          | None => Raises NoRestartDelta
          | Some best_idx =>
              Returns (Some (set_profile_at best_idx Entropy_King labelled))
          end
  end.

End ResilienceProfiler.

(* ------------------------------------------------------------------ *)
(** ** [driver_sharpe_ratio.py] and [driver_sortino_ratio.py] *)
(* ------------------------------------------------------------------ *)

Module Ratio.

(** A green-flag lap with its benchmark.  [BenchmarkTime] is the value of
    [calculate_benchmark] for the lap (missing without a model); [Stint] is
    a float column and can be missing. *)
Record lap : Type := {
  DriverNumber : string;
  Stint : num;
  LapTimeSeconds : num;
  BenchmarkTime : num
}.

Definition LapTimeDelta (l : lap) : num := sub (LapTimeSeconds l) (BenchmarkTime l).

Record Session : Type := {
  drivers : list string;
  green_laps : list lap;
  Abbreviation : string -> string
}.

(** [==] on a float column: never true on a missing cell. *)
Definition num_eqb (a b : num) : bool :=
  match a, b with Fin x, Fin y => Qeq_bool x y | _, _ => false end.
(** Identity of cells for [unique()]: missing cells count as one value. *)
Definition num_same (a b : num) : bool :=
  match a, b with
  | Fin x, Fin y => Qeq_bool x y
  | NaN, NaN => true
  | _, _ => false
  end.

(** [laps.dropna(subset=['LapTimeDelta'])]. *)
Definition dropna_delta (ls : list lap) : list lap :=
  filter (fun l => negb (is_nan (LapTimeDelta l))) ls.

Definition driver_laps (s : Session) (driver_number : string) : list lap :=
  filter (fun l => String.eqb (DriverNumber l) driver_number)
         (dropna_delta (green_laps s)).

Definition stint_laps (dl : list lap) (stint_number : num) : list lap :=
  filter (fun l => num_eqb (Stint l) stint_number) dl.

Definition stint_numbers (dl : list lap) : list num :=
  unique num_same (map Stint dl).

Section WithSqrt.
(** The square root of the numeric library. *)
Variable sqrt : Q -> Q.

(** [Series.std()]: sample standard deviation, missing below two values. *)
Definition series_std (xs : list num) : num :=
  let l := dropna xs in
  if (List.length l <=? 1)%nat then NaN
  else
    let m := Qmean l in
    Fin (sqrt (Qsum (map (fun x => (x - m) * (x - m)) l)
               / inject_Z (Z.of_nat (List.length l - 1)))).

Definition ratio_or_zero (mean_delta dev : num) : num :=
  if gtb dev (Fin (1 # 1000000)) then div (neg mean_delta) dev else Fin 0.

(** What one stint contributes to a driver's lists. *)
Record stint_entry : Type := {
  sharpe_ratio : num;
  sortino_ratio : num;
  weight : nat;
  mean_delta : num;
  std_dev_delta : num;
  downside_std_dev : num
}.

Definition downside_deltas (deltas : list num) (mean_delta : num) : list num :=
  filter (fun d => gtb d mean_delta) deltas.

(** The body of the loop over stints in [driver_sharpe_ratio.py], for a
    stint that passed the length test. *)
Definition sharpe_stint (sl : list lap) : stint_entry :=
  let deltas := map LapTimeDelta sl in
  let mean_delta := series_mean deltas in
  let std_dev_delta := series_std deltas in
  let sharpe := ratio_or_zero mean_delta std_dev_delta in
  let downside := downside_deltas deltas mean_delta in
  let sortino :=
    match downside with
    | [] => Fin 0
    | _ => ratio_or_zero mean_delta (series_std downside)
    end in
  {| sharpe_ratio := sharpe;
     sortino_ratio := sortino;
     weight := List.length sl;
     mean_delta := mean_delta;
     std_dev_delta := std_dev_delta;
     downside_std_dev := series_std downside |}.

(** The same body in [driver_sortino_ratio.py]: no Sharpe ratio, and the
    recorded deviation starts at [0]. *)
Definition sortino_stint (sl : list lap) : stint_entry :=
  let deltas := map LapTimeDelta sl in
  let mean_delta := series_mean deltas in
  let downside := downside_deltas deltas mean_delta in
  let dev := match downside with [] => Fin 0 | _ => series_std downside end in
  let sortino :=
    match downside with
    | [] => Fin 0
    | _ => ratio_or_zero mean_delta dev
    end in
  {| sharpe_ratio := NaN;
     sortino_ratio := sortino;
     weight := List.length sl;
     mean_delta := mean_delta;
     std_dev_delta := NaN;
     downside_std_dev := dev |}.

(** The loop over [driver_laps['Stint'].unique()]: stints with fewer than
    three laps are skipped. *)
Definition stint_entries (body : list lap -> stint_entry) (dl : list lap)
  : list stint_entry :=
  flat_map (fun stint_number =>
              let sl := stint_laps dl stint_number in
              if (List.length sl <? 3)%nat then [] else [body sl])
           (stint_numbers dl).

(** [np.average(values, weights=weights)]. *)
Definition np_average (values : list num) (weights : list nat) : num :=
  div (np_sum (map (fun '(v, w) => match v with
                                   | Fin x => Fin (x * inject_Z (Z.of_nat w))
                                   | NaN => NaN
                                   end)
                   (DrawdownMetrics.zip values weights)))
      (Fin (inject_Z (Z.of_nat (fold_right Nat.add 0%nat weights)))).

(** A row of the result table (team and finishing position, looked up in
    the results of the session, are left out). *)
Record result_row : Type := {
  Driver : string;
  Mean_Delta_vs_Benchmark : num;
  Deviation : num;
  Driver_Sharpe_Ratio : num;
  Driver_Sortino_Ratio : num;
  Laps_Count : nat
}.

Definition sharpe_row (s : Session) (driver_number : string)
  : option result_row :=
  let dl := driver_laps s driver_number in
  match dl with
  | [] => None
  | _ =>
      match stint_entries sharpe_stint dl with
      | [] => None
      | es =>
          let ws := map weight es in
          Some {| Driver := Abbreviation s driver_number;
                  Mean_Delta_vs_Benchmark := np_average (map mean_delta es) ws;
                  Deviation := np_average (map std_dev_delta es) ws;
                  Driver_Sharpe_Ratio := np_average (map sharpe_ratio es) ws;
                  Driver_Sortino_Ratio := np_average (map sortino_ratio es) ws;
                  Laps_Count := fold_right Nat.add 0%nat ws |}
      end
  end.

Definition sortino_row (s : Session) (driver_number : string)
  : option result_row :=
  let dl := driver_laps s driver_number in
  match dl with
  | [] => None
  | _ =>
      match stint_entries sortino_stint dl with
      | [] => None
      | es =>
          let ws := map weight es in
          Some {| Driver := Abbreviation s driver_number;
                  Mean_Delta_vs_Benchmark := np_average (map mean_delta es) ws;
                  Deviation := np_average (map downside_std_dev es) ws;
                  Driver_Sharpe_Ratio := NaN;
                  Driver_Sortino_Ratio := np_average (map sortino_ratio es) ws;
                  Laps_Count := fold_right Nat.add 0%nat ws |}
      end
  end.

Fixpoint filter_map {A B : Type} (f : A -> option B) (l : list A) : list B :=
  match l with
  | [] => []
  | x :: t => match f x with Some y => y :: filter_map f t | None => filter_map f t end
  end.

(** [driver_analysis]: the rows appended by the loop over the drivers. *)
Definition driver_analysis (row_of : Session -> string -> option result_row)
    (s : Session) : list result_row :=
  filter_map (row_of s) (drivers s).

(** Descending order on the ratio the table is sorted by. *)
Definition by_ratio_desc (key : result_row -> num) (a b : result_row) : bool :=
  geb (key a) (key b).

Definition calculate_driver_sharpe_ratio (s : Session) : option (list result_row) :=
  match green_laps s with
  | [] => None
  | _ =>
      match driver_analysis sharpe_row s with
      | [] => None
      | rows => Some (sort_by (by_ratio_desc Driver_Sharpe_Ratio) rows)
      end
  end.

Definition calculate_driver_sortino_ratio (s : Session) : option (list result_row) :=
  match green_laps s with
  | [] => None
  | _ =>
      match driver_analysis sortino_row s with
      | [] => None
      | rows => Some (sort_by (by_ratio_desc Driver_Sortino_Ratio) rows)
      end
  end.
(** The Sortino-like ratio in the words of its description: computed from
    the deltas strictly above the stint's own mean; zero when there is no
    such delta, zero when their standard deviation is not above 1e-6, and
    otherwise minus the mean over that deviation. *)
Definition sortino_spec (deltas : list num) (ratio : num) : Prop :=
  exists mean,
    series_mean deltas = Fin mean
    /\ mean == Qmean (dropna deltas)
    /\ let downside := downside_deltas deltas (Fin mean) in
       (forall q, In (Fin q) downside <-> In (Fin q) deltas /\ mean < q)
       /\ (downside = [] -> ratio = Fin 0)
       /\ (gtb (series_std downside) (Fin (1 # 1000000)) = false ->
           ratio = Fin 0)
       /\ (downside <> [] -> forall dev,
             series_std downside = Fin dev -> 1 # 1000000 < dev ->
             ratio = Fin (- mean / dev)).

End WithSqrt.

(** The session with one driver number struck off the list of drivers. *)
Definition session_without (driver_number : string) (s : Session) : Session :=
  {| drivers := filter (fun d => negb (String.eqb d driver_number)) (drivers s);
     green_laps := green_laps s;
     Abbreviation := Abbreviation s |}.

(** A square root precise to six decimals, to evaluate the definitions. *)
Definition sqrt6 (q : Q) : Q :=
  Z.sqrt (Qfloor (q * 1000000000000)) # 1000000.

End Ratio.

(* ------------------------------------------------------------------ *)
(** ** Sample tables *)
(* ------------------------------------------------------------------ *)

Module Samples.
Local Open Scope string_scope.

Definition equity_row (driver : string) (lap : Z) (change equity : num)
    (ft : FailureType) : EquityDf.row :=
  {| EquityDf.Driver := driver;
     EquityDf.LapNumber := lap;
     EquityDf.EquityChange := change;
     EquityDf.ExecutionEquity := equity;
     EquityDf.FailureType_ := ft;
     EquityDf.InTraffic := false;
     EquityDf.UnderPressure := false;
     EquityDf.IsSC := false;
     EquityDf.RestartLap := false |}.

(** One competitor, four laps: a loss of three seconds on lap 2 attributed
    to a major incident, a lap inside the band between the two thresholds,
    and a recovery on lap 4. *)
Definition nor_equity_df : list EquityDf.row :=
  [ equity_row "NOR" 2 (Fin (-3)) (Fin (-3)) FT_MajorIncident;
    equity_row "NOR" 1 (Fin 0) (Fin 0) FT_None;
    equity_row "NOR" 3 (Fin (293 # 100)) (Fin (- (7 # 100))) FT_None;
    equity_row "NOR" 4 (Fin (57 # 100)) (Fin (1 # 2)) FT_None ].

Definition nor_d_df : list DrawdownMetrics.d_row :=
  DrawdownMetrics.d_df nor_equity_df "NOR".

Definition nor_summary : DrawdownMetrics.summary :=
  DrawdownMetrics.driver_metrics Config.default "NOR" nor_d_df.

Definition lap (driver : string) (n : Z) (pit_in : bool) (status : string)
    (lap_time expected : num) : AllLaps.row :=
  {| AllLaps.DriverNumber := driver;
     AllLaps.LapNumber := n;
     AllLaps.PitInTime_notna := pit_in;
     AllLaps.PitOutTime_notna := false;
     AllLaps.TrackStatus := Some status;
     AllLaps.IntervalToAhead := Fin 10;
     AllLaps.IntervalToBehind := Fin 10;
     AllLaps.LapTimeSeconds := lap_time;
     AllLaps.ExpectedPace := expected |}.

(** A lap under the safety car (track status 4), five seconds slower than
    the benchmark. *)
Definition caution_lap : AllLaps.row := lap "44" 7 false "4" (Fin 95) (Fin 90).

(** The same lap under green. *)
Definition green_lap : AllLaps.row := lap "44" 7 false "1" (Fin 95) (Fin 90).

(** Car 4 drives three green-flag laps; on lap 2 it enters the pit lane and
    the lap has no lap time.  Car 81 makes an ordinary stop on lap 2. *)
Definition pit_session : ExecutionEquity.Session :=
  {| ExecutionEquity.drivers := ["4"; "81"];
     ExecutionEquity.laps :=
       [ lap "4" 1 false "1" (Fin 89) (Fin 90);
         lap "4" 2 true "1" NaN (Fin 90);
         lap "4" 3 false "1" (Fin 88) (Fin 90);
         lap "81" 1 false "1" (Fin 90) (Fin 90);
         lap "81" 2 true "1" (Fin 110) (Fin 90);
         lap "81" 3 false "1" (Fin 90) (Fin 90) ];
     ExecutionEquity.Abbreviation :=
       fun d => if String.eqb d "4" then "NOR" else "PIA" |}.

(** The same race with a lap time on every lap. *)
Definition clean_session : ExecutionEquity.Session :=
  {| ExecutionEquity.drivers := ["4"; "81"];
     ExecutionEquity.laps :=
       [ lap "4" 1 false "1" (Fin 89) (Fin 90);
         lap "4" 2 true "1" (Fin 111) (Fin 90);
         lap "4" 3 false "1" (Fin 88) (Fin 90);
         lap "81" 1 false "1" (Fin 90) (Fin 90);
         lap "81" 2 true "1" (Fin 110) (Fin 90);
         lap "81" 3 false "1" (Fin 90) (Fin 90) ];
     ExecutionEquity.Abbreviation :=
       fun d => if String.eqb d "4" then "NOR" else "PIA" |}.

(** Sixty green-flag laps off the pit lane whose gaps to the car ahead are
    spread evenly from 0.5 s to 2.5 s. *)
Definition gap_lap (i : nat) : AllLaps.row :=
  {| AllLaps.DriverNumber := "1";
     AllLaps.LapNumber := Z.of_nat i;
     AllLaps.PitInTime_notna := false;
     AllLaps.PitOutTime_notna := false;
     AllLaps.TrackStatus := Some "1";
     AllLaps.IntervalToAhead := Fin ((1 # 2) + (2 # 59) * inject_Z (Z.of_nat i));
     AllLaps.IntervalToBehind := Fin 10;
     AllLaps.LapTimeSeconds := Fin 90;
     AllLaps.ExpectedPace := Fin 90 |}.

Definition sixty_gaps : list AllLaps.row := map gap_lap (seq 0 60).

Definition competitor (driver : string) (mdd rv restart : Q)
  : ResilienceProfiler.row :=
  {| ResilienceProfiler.Driver := driver;
     ResilienceProfiler.Max_Drawdown := Fin mdd;
     ResilienceProfiler.Reset_Velocity := Fin rv;
     ResilienceProfiler.Restart_Delta := Fin restart;
     ResilienceProfiler.Resilience_Profile := None |}.

(** A cohort of eight in which the threshold rules crown nobody: the
    competitor that leads on both axes loses time at restarts. *)
Definition cohort_without_king : list ResilienceProfiler.row :=
  [ competitor "VER" (-10) (1 # 2) (- (2 # 10));
    competitor "NOR" (-20) (3 # 10) (- (1 # 10));
    competitor "PIA" (-30) (1 # 10) (- (3 # 10));
    competitor "LEC" (-15) (2 # 10) (- (4 # 10));
    competitor "HAM" (-25) (2 # 10) (- (5 # 10));
    competitor "RUS" (-18) (25 # 100) (- (2 # 10));
    competitor "SAI" (-22) (15 # 100) (- (3 # 10));
    competitor "ALO" (-28) (1 # 10) (- (6 # 10)) ].

(** The same cohort with the leader gaining time at restarts. *)
Definition cohort_with_king : list ResilienceProfiler.row :=
  [ competitor "VER" (-10) (1 # 2) (2 # 10);
    competitor "NOR" (-20) (3 # 10) (- (1 # 10));
    competitor "PIA" (-30) (1 # 10) (- (3 # 10));
    competitor "LEC" (-15) (2 # 10) (- (4 # 10));
    competitor "HAM" (-25) (2 # 10) (- (5 # 10));
    competitor "RUS" (-18) (25 # 100) (- (2 # 10));
    competitor "SAI" (-22) (15 # 100) (- (3 # 10));
    competitor "ALO" (-28) (1 # 10) (- (6 # 10)) ].

(** A cohort of three. *)
Definition cohort_of_three : list ResilienceProfiler.row :=
  [ competitor "VER" (-10) (1 # 2) (2 # 10);
    competitor "NOR" (-20) (3 # 10) (- (1 # 10));
    competitor "PIA" (-30) (1 # 10) (- (3 # 10)) ].

Definition ratio_lap (driver : string) (stint : Q) (lap_time : Q) : Ratio.lap :=
  {| Ratio.DriverNumber := driver;
     Ratio.Stint := Fin stint;
     Ratio.LapTimeSeconds := Fin lap_time;
     Ratio.BenchmarkTime := Fin 90 |}.

(** Car 1 has a stint of four laps; car 2 has two laps in each of two
    stints, so no stint of three. *)
Definition ratio_session : Ratio.Session :=
  {| Ratio.drivers := ["1"; "2"];
     Ratio.green_laps :=
       [ ratio_lap "1" 1 87; ratio_lap "1" 1 87;
         ratio_lap "1" 1 90; ratio_lap "1" 1 92;
         ratio_lap "2" 1 89; ratio_lap "2" 1 91;
         ratio_lap "2" 2 90; ratio_lap "2" 2 90 ];
     Ratio.Abbreviation := fun d => if String.eqb d "1" then "VER" else "PER" |}.

End Samples.

(* ------------------------------------------------------------------ *)
(** ** Auxiliary notions for the statements about the equity table *)
(* ------------------------------------------------------------------ *)

(** The caution flag of the lap before position [i] in a driver's laps
    ([False] before the first lap). *)
Definition was_sc_at (rows : list AllLaps.row) (i : nat) : bool :=
  match i with
  | O => false
  | S j => match nth_error rows j with
           | Some p => AllLaps.IsSC p
           | None => false
           end
  end.

(* ------------------------------------------------------------------ *)
(** ** Auxiliary notions for the statements about the episode scan *)
(* ------------------------------------------------------------------ *)

Module ScanSpec.
Import EquityDf DrawdownMetrics.

(** A recorded velocity that is a positive number. *)
Definition positive (v : num) : Prop := exists q, v = Fin q /\ 0 < q.

(** The rows of [d_df] built from equity rows when the running peak
    carried in is [m] ([with_drawdown] is the case of no peak yet). *)
Definition with_drawdown_from (m : option Q) (rows : list EquityDf.row)
  : list d_row :=
  map (fun '(r, p) =>
         {| base := r; Peak := p; Drawdown := sub (ExecutionEquity r) p |})
      (zip rows (cummax_from m (map ExecutionEquity rows))).

(** The running peak after the rows. *)
Fixpoint peak_after (m : option Q) (rows : list EquityDf.row) : option Q :=
  match rows with
  | [] => m
  | r :: t =>
      match ExecutionEquity r with
      | NaN => peak_after m t
      | Fin x =>
          peak_after (Some (match m with None => x | Some y => Qmax y x end)) t
      end
  end.

(** What the scan keeps true of its trough while the running peak is [m]
    and the laps in [seen] have been read: recorded velocities are
    positive numbers, and in drawdown the trough is the equity of a lap
    already read, at the recorded trough lap, and lies more than the entry
    threshold below the peak. *)
Definition trough_inv (cfg : Config.t) (m : option Q) (seen : list EquityDf.row)
    (st : scan) : Prop :=
  Forall positive (recovery_velocities st)
  /\ List.length (recovery_velocities st) = List.length (recovery_types st)
  /\ (in_dd st = true ->
      exists t p r0,
        trough_equity st = Fin t /\ m = Some p
        /\ t < p + Config.DRAWDOWN_ENTRY_THRESHOLD cfg
        /\ In r0 seen /\ LapNumber r0 = trough_lap st
        /\ ExecutionEquity r0 = Fin t).

End ScanSpec.

(* ------------------------------------------------------------------ *)
(** ** Auxiliary notions for the statements about the ratio tables *)
(* ------------------------------------------------------------------ *)

Module RatioSpec.
Import Ratio.

(** A table whose [key] column holds numbers only, every row's number at
    least that of every later row. *)
Definition descending (key : result_row -> num) (table : list result_row) : Prop :=
  StronglySorted (fun a b => exists x y, key a = Fin x /\ key b = Fin y /\ y <= x)
                 table.

Local Open Scope string_scope.

(** Two cars with one stint of four laps each: car 1 is slower than the
    benchmark on average, car 2 faster. *)
Definition two_car_session : Session :=
  {| drivers := ["1"; "2"];
     green_laps :=
       [ Samples.ratio_lap "1" 1 90; Samples.ratio_lap "1" 1 91;
         Samples.ratio_lap "1" 1 92; Samples.ratio_lap "1" 1 93;
         Samples.ratio_lap "2" 1 87; Samples.ratio_lap "2" 1 88;
         Samples.ratio_lap "2" 1 89; Samples.ratio_lap "2" 1 90 ];
     Abbreviation := fun d => if String.eqb d "1" then "VER" else "PER" |}.

End RatioSpec.

(* ------------------------------------------------------------------ *)
(** ** [execution_equity.py], step 2: the gaps on one lap *)
(* ------------------------------------------------------------------ *)

Module Intervals.

(** A row of [all_laps] as step 2 reads it: the car and the session time
    at which it ended the lap ([TimeSec], missing when the timestamp is). *)
Record entry : Type := {
  DriverNumber : string;
  TimeSec : num
}.

(** What step 2 writes for the row. *)
Record gaps : Type := {
  g_DriverNumber : string;
  IntervalToAhead : num;
  IntervalToBehind : num
}.

(** The order of [sort_values('TimeSec')]: ascending, missing values last. *)
Definition time_le (a b : entry) : bool :=
  match TimeSec a, TimeSec b with
  | Fin x, Fin y => Qle_bool x y
  | _, NaN => true
  | NaN, Fin _ => false
  end.

(** [Series.diff()]: each value minus the one before it. *)
Definition diff (xs : list num) : list num :=
  map (fun '(x, p) => sub x p) (DrawdownMetrics.zip xs (shift1 NaN xs)).

(** [Series.shift(-1)]. *)
Definition shift_back (xs : list num) : list num :=
  match xs with
  | [] => []
  | _ :: t => t ++ [NaN]
  end.

Definition fillna (v : Q) (x : num) : num :=
  match x with
  | NaN => Fin v
  | Fin _ => x
  end.

(** The body of the loop over the lap numbers, for the rows of one lap
    number: both columns keep the default [10.0] on a lap with fewer than
    two rows. *)
Definition lap_intervals (rows : list entry) : list gaps :=
  let lap_data := sort_by time_le rows in
  if (List.length lap_data <? 2)%nat then
    map (fun c => {| g_DriverNumber := DriverNumber c;
                     IntervalToAhead := Fin 10;
                     IntervalToBehind := Fin 10 |}) lap_data
  else
    let intervals := diff (map TimeSec lap_data) in
    let shifted_intervals := shift_back intervals in
    map (fun '(c, a, b) => {| g_DriverNumber := DriverNumber c;
                              IntervalToAhead := fillna 10 a;
                              IntervalToBehind := fillna 10 b |})
        (ExecutionEquity.zip3 lap_data intervals shifted_intervals).

(** The difference the loop takes at position [i] of the sorted times:
    the time at [i] minus the time before it, missing at the head and past
    the end. *)
Definition gap_at (ts : list num) (i : nat) : num :=
  match i with
  | O => NaN
  | S j =>
      match nth_error ts j, nth_error ts i with
      | Some p, Some x => sub x p
      | _, _ => NaN
      end
  end.

Local Open Scope string_scope.

(** Three cars crossing the line at 100.0 s, 101.5 s and 101.5 s, listed
    out of order. *)
Definition three_cars : list entry :=
  [ {| DriverNumber := "4"; TimeSec := Fin (203 # 2) |};
    {| DriverNumber := "1"; TimeSec := Fin 100 |};
    {| DriverNumber := "81"; TimeSec := Fin (203 # 2) |} ].

End Intervals.

(* ------------------------------------------------------------------ *)
(** ** [run_drawdown_analysis.py]: the season table *)
(* ------------------------------------------------------------------ *)

Module Season.
Import DrawdownMetrics.

(** [pd.concat(all_metrics)]: the race tables one after the other. *)
Definition master_metrics (all_metrics : list (list summary)) : list summary :=
  concat all_metrics.

(** [master_metrics.groupby('Driver')['Race'].count()] at one driver. *)
Definition participation (master : list summary) (driver : string) : nat :=
  List.length (filter (fun m => String.eqb (s_Driver m) driver) master).

Definition full_season (master : list summary) (driver : string) : bool :=
  (10 <=? participation master driver)%nat.

(** The rows of one group of [groupby('Driver')]. *)
Definition group (rows : list summary) (driver : string) : list summary :=
  filter (fun m => String.eqb (s_Driver m) driver) rows.

(** The group keys, in the sorted order of [groupby]. *)
Definition group_keys (rows : list summary) : list string :=
  sort_by String.leb (unique String.eqb (map s_Driver rows)).

(** One row of [seasonal_summary], with the columns the classification
    reads: the deepest race drawdown and the means of the two rates. *)
Definition seasonal_row (rows : list summary) (driver : string)
  : ResilienceProfiler.row :=
  let g := group rows driver in
  {| ResilienceProfiler.Driver := driver;
     ResilienceProfiler.Max_Drawdown := series_min (map Max_Drawdown g);
     ResilienceProfiler.Reset_Velocity := series_mean (map Reset_Velocity g);
     ResilienceProfiler.Restart_Delta := series_mean (map Restart_Delta g);
     ResilienceProfiler.Resilience_Profile := None |}.

Definition seasonal_summary (all_metrics : list (list summary))
  : list ResilienceProfiler.row :=
  let master := master_metrics all_metrics in
  let kept := filter (fun m => full_season master (s_Driver m)) master in
  map (seasonal_row kept) (group_keys kept).

(** The race tables of a list of equity tables. *)
Definition race_metrics (cfg : Config.t) (races : list (list EquityDf.row))
  : list (list summary) :=
  map (calculate_drawdown_metrics cfg) races.

(** The equity tables of the season: one per race for which
    [calculate_execution_equity] returns a table. *)
Definition race_tables (cfg : Config.t) (schedule : list ExecutionEquity.Session)
  : list (list EquityDf.row) :=
  Ratio.filter_map (ExecutionEquity.calculate_execution_equity cfg) schedule.

(** [all_metrics] at the end of the loop over the schedule. *)
Definition all_metrics (cfg : Config.t) (schedule : list ExecutionEquity.Session)
  : list (list summary) :=
  race_metrics cfg (race_tables cfg schedule).

(** How far [run_seasonal_drawdown] gets, up to the line that prints the
    profiles (the function itself returns nothing, and the plots that
    follow are not modelled). *)
Inductive run : Type :=
| NoData
| Failed (e : error)
| Printed (profiles : list ResilienceProfiler.row).

(** [run_seasonal_drawdown] from the loop over the schedule to the print
    of the profiles: with no race table it prints "No data processed." and
    returns; an exception of [profile_drivers] is not caught; and when
    [profile_drivers] returns [None], subscripting it for the print
    raises [TypeError]. *)
Definition run_seasonal_drawdown (cfg : Config.t)
    (schedule : list ExecutionEquity.Session) : run :=
  match all_metrics cfg schedule with
  | [] => NoData
  | metrics =>
      match ResilienceProfiler.profile_drivers cfg (seasonal_summary metrics) with
      | Raises e => Failed e
      | Returns None => Failed NoneNotSubscriptable
      | Returns (Some profiles) => Printed profiles
      end
  end.

(** The number of equity tables in which the driver has a row. *)
Definition races_entered (races : list (list EquityDf.row)) (driver : string)
  : nat :=
  List.length
    (filter (fun equity_df =>
               existsb (fun r => String.eqb (EquityDf.Driver r) driver) equity_df)
            races).

Local Open Scope string_scope.

(** Car 4 loses three seconds on lap 2 and wins them back over laps 3 and
    4. *)
Definition recovery_session : ExecutionEquity.Session :=
  {| ExecutionEquity.drivers := ["4"];
     ExecutionEquity.laps :=
       [ Samples.lap "4" 1 false "1" (Fin 90) (Fin 90);
         Samples.lap "4" 2 false "1" (Fin 93) (Fin 90);
         Samples.lap "4" 3 false "1" (Fin (177 # 2)) (Fin 90);
         Samples.lap "4" 4 false "1" (Fin (177 # 2)) (Fin 90) ];
     ExecutionEquity.Abbreviation := fun _ => "NOR" |}.

(** A race without laps. *)
Definition empty_session : ExecutionEquity.Session :=
  {| ExecutionEquity.drivers := ["4"];
     ExecutionEquity.laps := [];
     ExecutionEquity.Abbreviation := fun _ => "NOR" |}.

(** The laps of a car that loses [loss] seconds on lap 2 and wins them back
    over laps 3 and 4. *)
Definition car_laps (driver : string) (loss : Q) : list AllLaps.row :=
  [ Samples.lap driver 1 false "1" (Fin 90) (Fin 90);
    Samples.lap driver 2 false "1" (Fin (90 + loss)) (Fin 90);
    Samples.lap driver 3 false "1" (Fin (90 - loss / 2)) (Fin 90);
    Samples.lap driver 4 false "1" (Fin (90 - loss / 2)) (Fin 90) ].

(** A race of eight cars, car [n] losing [n] seconds. *)
Definition full_field_session : ExecutionEquity.Session :=
  {| ExecutionEquity.drivers := ["1"; "2"; "3"; "4"; "5"; "6"; "7"; "8"];
     ExecutionEquity.laps :=
       car_laps "1" 1 ++ car_laps "2" 2 ++ car_laps "3" 3 ++ car_laps "4" 4
       ++ car_laps "5" 5 ++ car_laps "6" 6 ++ car_laps "7" 7 ++ car_laps "8" 8;
     ExecutionEquity.Abbreviation := fun d => d |}.

(** A season of ten such races. *)
Definition full_field_schedule : list ExecutionEquity.Session :=
  repeat full_field_session 10.

(** A season of ten such races, one race without laps, and one race in
    which a second car takes part. *)
Definition schedule : list ExecutionEquity.Session :=
  repeat recovery_session 10 ++ [empty_session; Samples.clean_session].

End Season.

(* ------------------------------------------------------------------ *)
(** ** Further sample tables *)
(* ------------------------------------------------------------------ *)

Module MoreSamples.
Local Open Scope string_scope.

(** A green-flag lap off the pit lane, half a second behind the car ahead
    and four tenths ahead of the car behind, one second slower than the
    benchmark. *)
Definition traffic_lap : AllLaps.row :=
  {| AllLaps.DriverNumber := "4";
     AllLaps.LapNumber := 3;
     AllLaps.PitInTime_notna := false;
     AllLaps.PitOutTime_notna := false;
     AllLaps.TrackStatus := Some "1";
     AllLaps.IntervalToAhead := Fin (1 # 2);
     AllLaps.IntervalToBehind := Fin (4 # 10);
     AllLaps.LapTimeSeconds := Fin 91;
     AllLaps.ExpectedPace := Fin 90 |}.

(** Car 4 loses three seconds on lap 2 and one second in traffic on lap 3;
    cars 81 and 1 stop on their only lap, twenty and thirty seconds slower
    than the benchmark. *)
Definition incident_session : ExecutionEquity.Session :=
  {| ExecutionEquity.drivers := ["4"; "81"; "1"];
     ExecutionEquity.laps :=
       [ Samples.lap "4" 1 false "1" (Fin 90) (Fin 90);
         Samples.lap "4" 2 false "1" (Fin 93) (Fin 90);
         traffic_lap;
         Samples.lap "81" 1 true "1" (Fin 110) (Fin 90);
         Samples.lap "1" 1 true "1" (Fin 120) (Fin 90) ];
     ExecutionEquity.Abbreviation := fun d => d |}.

(** Car 4 retires in the pits on its first lap, which has no lap time; car
    81 drives two laps. *)
Definition retired_session : ExecutionEquity.Session :=
  {| ExecutionEquity.drivers := ["4"; "81"];
     ExecutionEquity.laps :=
       [ Samples.lap "4" 1 true "1" NaN (Fin 90);
         Samples.lap "81" 1 false "1" (Fin 90) (Fin 90);
         Samples.lap "81" 2 false "1" (Fin 91) (Fin 90) ];
     ExecutionEquity.Abbreviation :=
       fun d => if String.eqb d "4" then "NOR" else "PIA" |}.

(** A competitor whose equity never falls a tenth below its peak. *)
Definition quiet_equity_df : list EquityDf.row :=
  [ Samples.equity_row "PIA" 1 (Fin 0) (Fin 0) FT_None;
    Samples.equity_row "PIA" 2 (Fin (5 # 100)) (Fin (5 # 100)) FT_None;
    Samples.equity_row "PIA" 3 (Fin (- (5 # 100))) (Fin 0) FT_None ].

Definition quiet_summary : DrawdownMetrics.summary :=
  DrawdownMetrics.driver_metrics Config.default "PIA"
    (DrawdownMetrics.d_df quiet_equity_df "PIA").

(** Row [i] of [Samples.nor_d_df]. *)
Definition nor_lap (i : nat) : DrawdownMetrics.d_row :=
  nth i Samples.nor_d_df
      {| DrawdownMetrics.base := Samples.equity_row "" 0 NaN NaN FT_None;
         DrawdownMetrics.Peak := NaN;
         DrawdownMetrics.Drawdown := NaN |}.

(** The only stint of car 1 in [Samples.ratio_session]. *)
Definition ratio_stint : Ratio.stint_entry :=
  Ratio.sharpe_stint Ratio.sqrt6
    (Ratio.stint_laps (Ratio.driver_laps Samples.ratio_session "1") (Fin 1)).

End MoreSamples.

(* ================================================================== *)
(** * Properties *)
(* ================================================================== *)

(** ** Comparisons *)

Lemma Qltb_lt (x y : Q) : Qltb x y = true <-> x < y.
Proof.
  unfold Qltb. rewrite negb_true_iff.
  split; intro H.
  - apply Qnot_le_lt. intro L. apply Qle_bool_iff in L. congruence.
  - destruct (Qle_bool y x) eqn:E; auto.
    apply Qle_bool_iff in E. exfalso. apply (Qlt_not_le _ _ H E).
Qed.

Lemma Qltb_ge (x y : Q) : Qltb x y = false <-> y <= x.
Proof.
  unfold Qltb. rewrite negb_false_iff. apply Qle_bool_iff.
Qed.

Lemma Qle_bool_false (x y : Q) : Qle_bool x y = false -> y < x.
Proof.
  intro H. apply Qnot_le_lt. intro L. apply Qle_bool_iff in L. congruence.
Qed.

Lemma ltb_Fin (a b : num) :
  ltb a b = true -> exists x y, a = Fin x /\ b = Fin y /\ x < y.
Proof.
  destruct a as [|x], b as [|y]; simpl; try discriminate.
  intro H. exists x, y. repeat split. now apply Qltb_lt.
Qed.

Lemma leb_Fin (a b : num) :
  leb a b = true -> exists x y, a = Fin x /\ b = Fin y /\ x <= y.
Proof.
  destruct a as [|x], b as [|y]; simpl; try discriminate.
  intro H. exists x, y. repeat split. now apply Qle_bool_iff.
Qed.

(** A value strictly below a bound is not at or above it. *)
Lemma ltb_not_geb (a b : num) : ltb a b = true -> geb a b = false.
Proof.
  intro H. destruct (ltb_Fin _ _ H) as (x & y & -> & -> & L).
  unfold geb; simpl. destruct (Qle_bool y x) eqn:E; auto.
  apply Qle_bool_iff in E. exfalso. apply (Qlt_not_le _ _ L E).
Qed.

Lemma sub_Fin (a b : num) (d : Q) :
  sub a b = Fin d -> exists x y, a = Fin x /\ b = Fin y /\ d = x - y.
Proof.
  destruct a as [|x], b as [|y]; simpl; try discriminate.
  intro H. injection H as <-. now exists x, y.
Qed.

Lemma Qmax_ub_l (x y : Q) : x <= Qmax x y.
Proof.
  unfold Qmax. destruct (Qle_bool x y) eqn:E.
  - now apply Qle_bool_iff.
  - apply Qle_refl.
Qed.

Lemma Qmax_ub_r (x y : Q) : y <= Qmax x y.
Proof.
  unfold Qmax. destruct (Qle_bool x y) eqn:E.
  - apply Qle_refl.
  - apply Qlt_le_weak. now apply Qle_bool_false.
Qed.

Lemma Qmin_lb_l (x y : Q) : Qmin x y <= x.
Proof.
  unfold Qmin. destruct (Qle_bool x y) eqn:E.
  - apply Qle_refl.
  - apply Qlt_le_weak. now apply Qle_bool_false.
Qed.

Lemma Qmin_lb_r (x y : Q) : Qmin x y <= y.
Proof.
  unfold Qmin. destruct (Qle_bool x y) eqn:E.
  - now apply Qle_bool_iff.
  - apply Qle_refl.
Qed.

Lemma Qmin_cases (x y : Q) : Qmin x y = x \/ Qmin x y = y.
Proof. unfold Qmin. destruct (Qle_bool x y); auto. Qed.

(** ** Running maximum *)

Lemma cummax_from_ok (xs : list num) : forall m x p,
  In (x, p) (DrawdownMetrics.zip xs (cummax_from m xs)) ->
  peak_ok None x p.
Proof.
  induction xs as [|a t IH]; intros m x p HIn; simpl in *.
  - contradiction.
  - destruct a as [|v]; simpl in HIn.
    + destruct HIn as [E | HIn].
      * injection E as <- <-. reflexivity.
      * eapply IH; eauto.
    + destruct HIn as [E | HIn].
      * injection E as <- <-. simpl.
        destruct m as [y|].
        -- exists (Qmax y v). repeat split; auto. apply Qmax_ub_r.
        -- exists v. repeat split; auto. apply Qle_refl.
      * eapply IH; eauto.
Qed.

(** ** Minimum of a column *)

Lemma fold_left_Qmin_le (t : list Q) : forall x,
  fold_left Qmin t x <= x /\ (forall y, In y t -> fold_left Qmin t x <= y).
Proof.
  induction t as [|a t IH]; intro x; simpl.
  - split; [apply Qle_refl | contradiction].
  - destruct (IH (Qmin x a)) as [H1 H2]. split.
    + eapply Qle_trans; [exact H1 | apply Qmin_lb_l].
    + intros y [<- | Hy].
      * eapply Qle_trans; [exact H1 | apply Qmin_lb_r].
      * now apply H2.
Qed.

Lemma fold_left_Qmin_in (t : list Q) : forall x,
  fold_left Qmin t x = x \/ In (fold_left Qmin t x) t.
Proof.
  induction t as [|a t IH]; intro x; simpl; auto.
  destruct (IH (Qmin x a)) as [E | HIn]; auto.
  rewrite E. destruct (Qmin_cases x a) as [-> | ->]; auto.
Qed.

Lemma in_dropna (xs : list num) (q : Q) : In q (dropna xs) <-> In (Fin q) xs.
Proof.
  induction xs as [|a t IH]; simpl; [tauto|].
  destruct a as [|v]; simpl; rewrite IH; split.
  - auto.
  - intros [E | H]; [discriminate | auto].
  - intros [<- | H]; auto.
  - intros [E | H]; [injection E as <-; auto | auto].
Qed.

(** [series_min] returns a cell of the column that is below all others. *)
Lemma series_min_spec (xs : list num) (m : Q) :
  series_min xs = Fin m ->
  In (Fin m) xs /\ forall y, In (Fin y) xs -> m <= y.
Proof.
  unfold series_min. destruct (dropna xs) as [|x t] eqn:E; [discriminate|].
  intro H. injection H as <-. split.
  - apply in_dropna. rewrite E.
    destruct (fold_left_Qmin_in t x) as [-> | HIn]; simpl; auto.
  - intros y Hy. apply in_dropna in Hy. rewrite E in Hy.
    destruct (fold_left_Qmin_le t x) as [H1 H2].
    destruct Hy as [<- | Hy]; auto.
Qed.

Lemma series_min_NaN (xs : list num) :
  series_min xs = NaN <-> forall q, ~ In (Fin q) xs.
Proof.
  unfold series_min. destruct (dropna xs) as [|x t] eqn:E; split.
  - intros _ q Hq. apply in_dropna in Hq. rewrite E in Hq. contradiction.
  - reflexivity.
  - discriminate.
  - intro H. exfalso. apply (H x). apply in_dropna. rewrite E. simpl; auto.
Qed.

(** ** Drawdown detector *)

Section DrawdownFacts.
Import EquityDf DrawdownMetrics.

Lemma zip_map_l {A B C : Type} (f : A -> C) (l : list A) : forall (l' : list B) a b,
  In (a, b) (zip l l') -> In (f a, b) (zip (map f l) l').
Proof.
  induction l as [|x t IH]; intros [|y t'] a b H; simpl in *; try contradiction.
  destruct H as [E | H].
  - injection E as <- <-. auto.
  - right. now apply IH.
Qed.

Lemma with_drawdown_row (rows : list EquityDf.row) (r : d_row) :
  In r (with_drawdown rows) ->
  In (base r) rows
  /\ Drawdown r = sub (ExecutionEquity (base r)) (Peak r)
  /\ peak_ok None (ExecutionEquity (base r)) (Peak r).
Proof.
  unfold with_drawdown. intro H. apply in_map_iff in H.
  destruct H as ([r0 p] & <- & HIn). simpl.
  split; [| split; [reflexivity |]].
  - clear -HIn. revert HIn. generalize (cummax (map ExecutionEquity rows)).
    induction rows as [|x t IH]; intros [|y l] H; simpl in *; try contradiction.
    destruct H as [E | H]; [injection E as <- <-; auto | right; eauto].
  - eapply cummax_from_ok. apply zip_map_l. exact HIn.
Qed.

(** A drawdown cell is missing exactly where the equity cell is, and is at
    most zero everywhere else. *)
Lemma with_drawdown_sign (rows : list EquityDf.row) (r : d_row) :
  In r (with_drawdown rows) ->
  match ExecutionEquity (base r) with
  | Fin _ => leb (Drawdown r) (Fin 0) = true
  | NaN => Drawdown r = NaN
  end.
Proof.
  intro H. destruct (with_drawdown_row _ _ H) as (_ & HD & HP).
  rewrite HD. destruct (ExecutionEquity (base r)) as [|v]; simpl in *.
  - reflexivity.
  - destruct HP as (q & -> & Hle & _). simpl.
    apply Qle_bool_iff. lra.
Qed.

Lemma in_calculate_drawdown_metrics cfg equity_df s :
  In s (calculate_drawdown_metrics cfg equity_df) ->
  s = driver_metrics cfg (s_Driver s) (d_df equity_df (s_Driver s)).
Proof.
  unfold calculate_drawdown_metrics. intro H. apply in_map_iff in H.
  destruct H as (driver & <- & _). reflexivity.
Qed.

Lemma with_drawdown_value (rows : list EquityDf.row) (r : d_row) (v : Q) :
  In r (with_drawdown rows) -> Drawdown r = Fin v -> v <= 0.
Proof.
  intros Hr Hv. pose proof (with_drawdown_sign _ _ Hr) as HS. rewrite Hv in HS.
  destruct (ExecutionEquity (base r)); [discriminate|].
  simpl in HS. now apply Qle_bool_iff in HS.
Qed.

(** The max drawdown is the least drawdown value of the competitor. *)
Lemma mdd_least (rows : list EquityDf.row) :
  let d := with_drawdown rows in
  match mdd d with
  | Fin m =>
      m <= 0
      /\ (exists r, In r d /\ Drawdown r = Fin m)
      /\ forall r v, In r d -> Drawdown r = Fin v -> m <= v
  | NaN => forall r, In r d -> Drawdown r = NaN
  end.
Proof.
  intro d. unfold mdd. destruct (series_min (map Drawdown d)) as [|m] eqn:E.
  - intros r Hr. destruct (Drawdown r) as [|v] eqn:Ev; auto.
    exfalso. apply (proj1 (series_min_NaN _) E v).
    rewrite <- Ev. now apply in_map.
  - destruct (series_min_spec _ _ E) as [HIn Hmin].
    apply in_map_iff in HIn. destruct HIn as (r & Hr & HrIn).
    split; [| split].
    + eapply with_drawdown_value; eauto.
    + exists r. auto.
    + intros r' v Hr' Hv. apply Hmin. rewrite <- Hv. now apply in_map.
Qed.

Lemma not_above_zero (a : num) :
  (forall v, a = Fin v -> v <= 0) -> gtb a (Fin 0) = false.
Proof.
  intro H. destruct a as [|v]; [reflexivity|].
  unfold gtb. simpl. apply Qltb_ge. now apply H.
Qed.

(** X21.  For every competitor of the drawdown summary and every lap of
    the competitor, the drawdown is the cumulative equity minus the running
    peak; it is never above zero, and it is at most zero wherever the lap
    has an equity value (a lap without one has no drawdown value either).
    The competitor's max drawdown is the smallest of the drawdown values:
    at most zero when it is a number, and missing only when every lap's
    drawdown is. *)
Theorem drawdown_nonpositive (cfg : Config.t) (equity_df : list EquityDf.row)
    (s : summary) :
  In s (calculate_drawdown_metrics cfg equity_df) ->
  let d := d_df equity_df (s_Driver s) in
  (forall r, In r d ->
     Drawdown r = sub (ExecutionEquity (base r)) (Peak r)
     /\ gtb (Drawdown r) (Fin 0) = false
     /\ match ExecutionEquity (base r) with
        | Fin _ => leb (Drawdown r) (Fin 0) = true
        | NaN => Drawdown r = NaN
        end
     /\ forall v, Drawdown r = Fin v -> v <= 0)
  /\ gtb (Max_Drawdown s) (Fin 0) = false
  /\ match Max_Drawdown s with
     | Fin m =>
         m <= 0
         /\ (exists r, In r d /\ Drawdown r = Fin m)
         /\ forall r v, In r d -> Drawdown r = Fin v -> m <= v
     | NaN => forall r, In r d -> Drawdown r = NaN
     end.
Proof.
  intros Hs d. split; [| split].
  - intros r Hr. unfold d, d_df in Hr.
    destruct (with_drawdown_row _ _ Hr) as (_ & HD & _).
    assert (Hv : forall v, Drawdown r = Fin v -> v <= 0)
      by (intro v; now apply with_drawdown_value with (1 := Hr)).
    split; [exact HD|].
    split; [now apply not_above_zero|].
    split; [exact (with_drawdown_sign _ _ Hr) | exact Hv].
  - rewrite (in_calculate_drawdown_metrics _ _ _ Hs). simpl.
    apply not_above_zero. intros v Hv.
    pose proof (mdd_least (sort_by DrawdownMetrics.lap_le
                  (filter (fun r => String.eqb (Driver r) (s_Driver s)) equity_df)))
      as H.
    cbv zeta in H. fold (d_df equity_df (s_Driver s)) in H.
    rewrite Hv in H. tauto.
  - rewrite (in_calculate_drawdown_metrics _ _ _ Hs). simpl.
    apply (mdd_least (sort_by DrawdownMetrics.lap_le
             (filter (fun r => String.eqb (Driver r) (s_Driver s)) equity_df))).
Qed.

Lemma drawdown_nonpositive_witness :
  (forall r, In r Samples.nor_d_df ->
     Drawdown r = sub (ExecutionEquity (base r)) (Peak r)
     /\ gtb (Drawdown r) (Fin 0) = false
     /\ match ExecutionEquity (base r) with
        | Fin _ => leb (Drawdown r) (Fin 0) = true
        | NaN => Drawdown r = NaN
        end
     /\ forall v, Drawdown r = Fin v -> v <= 0)
  /\ gtb (Max_Drawdown Samples.nor_summary) (Fin 0) = false
  /\ match Max_Drawdown Samples.nor_summary with
     | Fin m =>
         m <= 0
         /\ (exists r, In r Samples.nor_d_df /\ Drawdown r = Fin m)
         /\ forall r v, In r Samples.nor_d_df -> Drawdown r = Fin v -> m <= v
     | NaN => forall r, In r Samples.nor_d_df -> Drawdown r = NaN
     end.
Proof.
  apply (drawdown_nonpositive Config.default Samples.nor_equity_df
           Samples.nor_summary).
  vm_compute. left. reflexivity.
Defined.

(** One step with a drawdown below the exit threshold keeps the detector
    in drawdown and finalizes nothing. *)
Lemma scan_step_below_exit (cfg : Config.t) (st : scan) (r : d_row) :
  in_dd st = true ->
  ltb (Drawdown r) (Fin (Config.RECOVERY_COMPLETE_THRESHOLD cfg)) = true ->
  in_dd (scan_step cfg st r) = true
  /\ recovery_velocities (scan_step cfg st r) = recovery_velocities st
  /\ recovery_types (scan_step cfg st r) = recovery_types st.
Proof.
  intros Hin Hlt. unfold scan_step.
  rewrite (ltb_not_geb _ _ Hlt), Hin, andb_false_r. simpl.
  destruct (ltb (Drawdown r) (Fin (Config.DRAWDOWN_ENTRY_THRESHOLD cfg))).
  - destruct (ltb (ExecutionEquity (base r)) (trough_equity st)); simpl; auto.
  - auto.
Qed.

Lemma run_scan_app cfg st (a b : list d_row) :
  run_scan cfg st (a ++ b) = run_scan cfg (run_scan cfg st a) b.
Proof. unfold run_scan. apply fold_left_app. Qed.

Lemma run_scan_below_exit (cfg : Config.t) (band : list d_row) : forall st,
  in_dd st = true ->
  Forall (fun r => ltb (Drawdown r)
                       (Fin (Config.RECOVERY_COMPLETE_THRESHOLD cfg)) = true) band ->
  in_dd (run_scan cfg st band) = true
  /\ recovery_velocities (run_scan cfg st band) = recovery_velocities st
  /\ recovery_types (run_scan cfg st band) = recovery_types st.
Proof.
  induction band as [|r t IH]; intros st Hin HF; simpl.
  - auto.
  - inversion HF as [|? ? Hr Ht]; subst.
    destruct (scan_step_below_exit cfg st r Hin Hr) as (H1 & H2 & H3).
    destruct (IH _ H1 Ht) as (K1 & K2 & K3).
    unfold run_scan in *. simpl. rewrite K2, K3. auto.
Qed.

(** A race that never falls below the entry threshold has no episode. *)
Lemma quiet_race_no_episode (cfg : Config.t) (d : list d_row) :
  Forall (fun r => ltb (Drawdown r)
                       (Fin (Config.DRAWDOWN_ENTRY_THRESHOLD cfg)) = false) d ->
  episodes cfg d = scan_init.
Proof.
  unfold episodes, run_scan.
  induction 1 as [|r t Hr _ IH]; simpl; auto.
  unfold scan_step at 2. now rewrite Hr.
Qed.

(** C4.  In the scan of a competitor's laps, once the detector is in
    drawdown it stays in drawdown over every following run of laps whose
    drawdown is strictly below the exit threshold, whether or not the
    drawdown is above the entry threshold there, and no episode is
    finalized on those laps. *)
Theorem hysteresis_no_exit_below_threshold (cfg : Config.t)
    (equity_df : list EquityDf.row) (driver : string)
    (before band after : list d_row) :
  d_df equity_df driver = before ++ band ++ after ->
  in_dd (episodes cfg before) = true ->
  Forall (fun r => ltb (Drawdown r)
                       (Fin (Config.RECOVERY_COMPLETE_THRESHOLD cfg)) = true) band ->
  forall seen rest, band = seen ++ rest ->
    in_dd (episodes cfg (before ++ seen)) = true
    /\ recovery_velocities (episodes cfg (before ++ seen))
       = recovery_velocities (episodes cfg before).
Proof.
  intros _ Hin HF seen rest ->. unfold episodes in *.
  rewrite run_scan_app.
  apply Forall_app in HF. destruct HF as [HF _].
  destruct (run_scan_below_exit cfg seen _ Hin HF) as (H1 & H2 & _). auto.
Qed.

Lemma hysteresis_witness :
  in_dd (episodes Config.default
           (firstn 2 Samples.nor_d_df ++ firstn 1 (skipn 2 Samples.nor_d_df)))
  = true
  /\ recovery_velocities
       (episodes Config.default
          (firstn 2 Samples.nor_d_df ++ firstn 1 (skipn 2 Samples.nor_d_df)))
     = recovery_velocities (episodes Config.default (firstn 2 Samples.nor_d_df)).
Proof.
  apply (hysteresis_no_exit_below_threshold Config.default
           Samples.nor_equity_df "NOR"
           (firstn 2 Samples.nor_d_df) (firstn 1 (skipn 2 Samples.nor_d_df))
           (skipn 3 Samples.nor_d_df))
    with (rest := []).
  - vm_compute. reflexivity.
  - vm_compute. reflexivity.
  - vm_compute. constructor; [reflexivity | constructor].
  - vm_compute. reflexivity.
Defined.

End DrawdownFacts.

(** ** Finalized episodes and the per-category resilience *)

Section EpisodeFacts.
Import EquityDf DrawdownMetrics.

Lemma scan_init_inv : scan_inv scan_init.
Proof. repeat split; simpl; auto. now exists 0. Qed.

Lemma inject_Z_nonzero (z : Z) : (0 < z)%Z -> Qeq_bool (inject_Z z) 0 = false.
Proof.
  intro H. destruct (Qeq_bool (inject_Z z) 0) eqn:E; auto.
  apply Qeq_bool_iff in E. unfold Qeq in E. simpl in E. lia.
Qed.

Lemma scan_step_inv (cfg : Config.t) (st : scan) (r : d_row) :
  (0 <= Config.MIN_RECOVERY_DURATION cfg)%Z ->
  Drawdown r = sub (ExecutionEquity (base r)) (Peak r) ->
  scan_inv st -> scan_inv (scan_step cfg st r).
Proof.
  intros Hmin HD (Ht & Hv & Hl). unfold scan_step.
  destruct (ltb (Drawdown r) (Fin (Config.DRAWDOWN_ENTRY_THRESHOLD cfg))) eqn:E1.
  - destruct (ltb_Fin _ _ E1) as (x & y & Hx & _ & _).
    rewrite HD in Hx. destruct (sub_Fin _ _ _ Hx) as (e & p & He & _ & _).
    destruct (negb (in_dd st)); simpl;
      match goal with
      | |- context [if ?c then _ else _] => destruct c
      end; repeat split; simpl; auto; rewrite He; now exists e.
  - destruct (in_dd st && geb (Drawdown r)
                (Fin (Config.RECOVERY_COMPLETE_THRESHOLD cfg))) eqn:E2.
    + apply andb_true_iff in E2. destruct E2 as [_ E2].
      unfold geb in E2. destruct (leb_Fin _ _ E2) as (x & y & _ & Hy & _).
      rewrite HD in Hy. destruct (sub_Fin _ _ _ Hy) as (e & p & He & _ & _).
      destruct (Config.MIN_RECOVERY_DURATION cfg <? LapNumber (base r) - trough_lap st)%Z
        eqn:E3; repeat split; simpl; auto.
      * apply Forall_app. split; auto. constructor; auto.
        destruct Ht as (t & Ht). rewrite He, Ht. simpl.
        apply Z.ltb_lt in E3.
        rewrite inject_Z_nonzero by lia. now eexists.
      * rewrite !length_app. simpl. lia.
    + repeat split; auto.
Qed.

Lemma run_scan_inv (cfg : Config.t) (d : list d_row) : forall st,
  (0 <= Config.MIN_RECOVERY_DURATION cfg)%Z ->
  Forall (fun r => Drawdown r = sub (ExecutionEquity (base r)) (Peak r)) d ->
  scan_inv st -> scan_inv (run_scan cfg st d).
Proof.
  induction d as [|r t IH]; intros st Hmin HF Hinv; simpl; auto.
  inversion HF; subst. apply IH; auto. now apply scan_step_inv.
Qed.

Lemma episodes_inv (cfg : Config.t) (equity_df : list EquityDf.row) (driver : string) :
  (0 <= Config.MIN_RECOVERY_DURATION cfg)%Z ->
  scan_inv (episodes cfg (d_df equity_df driver)).
Proof.
  intro Hmin. apply run_scan_inv; auto using scan_init_inv.
  apply Forall_forall. intros r Hr. unfold d_df in Hr.
  now destruct (with_drawdown_row _ _ Hr) as (_ & HD & _).
Qed.

Lemma np_sum_present (vs : list num) : Forall present vs -> present (np_sum vs).
Proof.
  induction 1 as [|v t (q & ->) _ (s & IH)].
  - now exists 0.
  - change (np_sum (Fin q :: t)) with (add (Fin q) (np_sum t)).
    rewrite IH. simpl. now eexists.
Qed.

(** The mean of recorded velocities is a number as soon as there is one. *)
Lemma np_mean_present (vs : list num) :
  vs <> [] -> Forall present vs -> present (np_mean vs).
Proof.
  intros Hne HF. destruct vs as [|v t]; [congruence|].
  unfold np_mean. destruct (np_sum_present _ HF) as (s & ->).
  unfold div. rewrite inject_Z_nonzero; [now eexists|].
  simpl List.length. lia.
Qed.

Lemma relevant_rates_present (st : scan) (r_type : FailureType) :
  Forall present (recovery_velocities st) ->
  Forall present (relevant_rates st r_type).
Proof.
  unfold relevant_rates. generalize (recovery_types st).
  induction (recovery_velocities st) as [|v t IH]; intros [|ty tys] HF; simpl;
    try constructor.
  inversion HF; subst.
  destruct (FailureType_eqb ty r_type); simpl; auto.
Qed.

Lemma type_recovery_first_spec (st : scan) (r_type : FailureType) :
  scan_inv st ->
  category_mean (relevant_rates st r_type) (type_recovery_first st r_type).
Proof.
  intros (_ & Hv & _). unfold type_recovery_first, category_mean.
  pose proof (relevant_rates_present st r_type Hv) as HF.
  destruct (relevant_rates st r_type) as [|v t] eqn:E; auto.
  split; auto. apply np_mean_present; [easy | exact HF].
Qed.

(** C1, as the code has it.  For every competitor of the drawdown summary
    (the minimum recovery duration not being negative), Major Incident
    Resilience and Operational Resilience are each missing exactly when the
    competitor has no finalized episode of that category and are otherwise
    the mean recovery velocity of that category's episodes; Traffic
    Resilience is the mean over the traffic episodes when there is one,
    else the mean over all finalized episodes when there is one, else
    missing. *)
Theorem resilience_by_category (cfg : Config.t) (equity_df : list EquityDf.row)
    (s : summary) :
  (0 <= Config.MIN_RECOVERY_DURATION cfg)%Z ->
  In s (calculate_drawdown_metrics cfg equity_df) ->
  let st := episodes cfg (d_df equity_df (s_Driver s)) in
  category_mean (relevant_rates st FT_MajorIncident) (Major_Incident_Resilience s)
  /\ category_mean (relevant_rates st FT_Operational) (Operational_Resilience s)
  /\ match relevant_rates st FT_Traffic with
     | (_ :: _) as traffic_rates =>
         Traffic_Resilience s = np_mean traffic_rates
         /\ present (Traffic_Resilience s)
     | [] => category_mean (recovery_velocities st) (Traffic_Resilience s)
     end.
Proof.
  intros Hmin Hs st.
  pose proof (episodes_inv cfg equity_df (s_Driver s) Hmin) as Hinv. fold st in Hinv.
  rewrite (in_calculate_drawdown_metrics _ _ _ Hs). simpl. fold st.
  split; [| split]; try now apply type_recovery_first_spec.
  unfold traffic_resilience.
  destruct Hinv as (_ & Hv & _).
  pose proof (relevant_rates_present st FT_Traffic Hv) as HF.
  destruct (relevant_rates st FT_Traffic) as [|v t] eqn:E.
  - unfold category_mean. destruct (recovery_velocities st) as [|v t] eqn:E'; auto.
    split; auto. apply np_mean_present; [easy | exact Hv].
  - split; auto. apply np_mean_present; [easy | exact HF].
Qed.

Lemma resilience_by_category_witness :
  let st := episodes Config.default Samples.nor_d_df in
  category_mean (relevant_rates st FT_MajorIncident)
                (Major_Incident_Resilience Samples.nor_summary)
  /\ category_mean (relevant_rates st FT_Operational)
                   (Operational_Resilience Samples.nor_summary)
  /\ match relevant_rates st FT_Traffic with
     | (_ :: _) as traffic_rates =>
         Traffic_Resilience Samples.nor_summary = np_mean traffic_rates
         /\ present (Traffic_Resilience Samples.nor_summary)
     | [] => category_mean (recovery_velocities st)
                           (Traffic_Resilience Samples.nor_summary)
     end.
Proof.
  apply (resilience_by_category Config.default Samples.nor_equity_df
           Samples.nor_summary).
  - vm_compute. discriminate.
  - vm_compute. left. reflexivity.
Defined.

(** The competitor of the sample table has one finalized episode, of the
    major-incident category, and none of the traffic category; the Traffic
    Resilience of the summary is nevertheless a number, the velocity of
    that one episode. *)
Lemma traffic_resilience_backfilled :
  In Samples.nor_summary
     (calculate_drawdown_metrics Config.default Samples.nor_equity_df)
  /\ relevant_rates (episodes Config.default Samples.nor_d_df) FT_Traffic = []
  /\ recovery_types (episodes Config.default Samples.nor_d_df) = [FT_MajorIncident]
  /\ Traffic_Resilience Samples.nor_summary = Fin (7 # 4)
  /\ Traffic_Resilience Samples.nor_summary <> NaN.
Proof.
  repeat split; try (vm_compute; reflexivity).
  - vm_compute. left. reflexivity.
  - vm_compute. discriminate.
Qed.

End EpisodeFacts.

(** ** Sorting *)

Section SortFacts.
Context {A : Type} (le : A -> A -> bool).

Lemma insert_sorted_perm (x : A) (l : list A) :
  Permutation (insert_sorted le x l) (x :: l).
Proof.
  induction l as [|y t IH]; simpl; auto.
  destruct (le x y); auto.
  rewrite IH. apply perm_swap.
Qed.

Lemma sort_by_perm (l : list A) : Permutation (sort_by le l) l.
Proof.
  induction l as [|x t IH]; simpl; auto.
  rewrite insert_sorted_perm. now constructor.
Qed.

Lemma sort_by_length (l : list A) : List.length (sort_by le l) = List.length l.
Proof. apply Permutation_length, sort_by_perm. Qed.

Lemma sort_by_In (l : list A) (x : A) : In x (sort_by le l) <-> In x l.
Proof.
  split; apply Permutation_in; [| symmetry]; apply sort_by_perm.
Qed.

Hypothesis le_total : forall a b, le a b = false -> le b a = true.
Hypothesis le_trans : forall a b c, le a b = true -> le b c = true -> le a c = true.

Lemma insert_sorted_sorted (x : A) (l : list A) :
  StronglySorted (fun a b => le a b = true) l ->
  StronglySorted (fun a b => le a b = true) (insert_sorted le x l).
Proof.
  induction 1 as [|y t Hs IH Hy]; simpl.
  - repeat constructor.
  - destruct (le x y) eqn:E.
    + constructor; [now constructor|].
      constructor; auto.
      eapply Forall_impl; [| exact Hy]. intros a Ha. eapply le_trans; eauto.
    + constructor; auto.
      eapply Permutation_Forall; [symmetry; apply insert_sorted_perm|].
      constructor; auto.
Qed.

Lemma sort_by_sorted (l : list A) :
  StronglySorted (fun a b => le a b = true) (sort_by le l).
Proof.
  induction l as [|x t IH]; simpl; [constructor|].
  now apply insert_sorted_sorted.
Qed.

End SortFacts.

Lemma StronglySorted_weaken {A : Type} (P R : A -> A -> Prop) (l : list A) :
  (forall a b, P a b -> R a b) -> StronglySorted P l -> StronglySorted R l.
Proof.
  intros HPR. induction 1 as [|x t Hs IH Hx]; constructor; auto.
  eapply Forall_impl; [| exact Hx]. auto.
Qed.

(** ** Equity accumulator *)

Section EquityFacts.
Import AllLaps ExecutionEquity.

Lemma cumsum_from_length (xs : list num) : forall acc,
  List.length (cumsum_from acc xs) = List.length xs.
Proof.
  induction xs as [|[|x] t IH]; intro acc; simpl; auto.
Qed.

Lemma shift1_length {B : Type} (fill : B) (l : list B) :
  List.length (shift1 fill l) = List.length l.
Proof.
  unfold shift1. rewrite length_firstn. simpl. lia.
Qed.

Lemma zip3_fst {B C D : Type} (a : list B) : forall (b : list C) (c : list D),
  List.length b = List.length a -> List.length c = List.length a ->
  map (fun t => fst (fst t)) (zip3 a b c) = a
  /\ map (fun t => snd (fst t)) (zip3 a b c) = b.
Proof.
  induction a as [|x a IH]; intros [|y b] [|z c] Hb Hc; simpl in *;
    try discriminate; auto.
  destruct (IH b c) as [H1 H2]; try lia. now rewrite H1, H2.
Qed.

(** The columns of a driver's curve: the laps in lap-number order, their
    equity changes, and the cumulative sum of these. *)
Lemma driver_equity_columns (cfg : Config.t) (s : Session) (driver : string) :
  let rows := d_laps s driver in
  map EquityDf.LapNumber (driver_equity cfg s driver) = map LapNumber rows
  /\ map EquityDf.IsSC (driver_equity cfg s driver) = map IsSC rows
  /\ map EquityDf.EquityChange (driver_equity cfg s driver)
     = map (EquityChange_of cfg s) rows
  /\ map EquityDf.ExecutionEquity (driver_equity cfg s driver)
     = cumsum (map (EquityChange_of cfg s) rows).
Proof.
  intro rows. unfold driver_equity. fold rows.
  set (eq := cumsum (map (EquityChange_of cfg s) rows)).
  set (ws := shift1 false (map IsSC rows)).
  assert (Hb : List.length eq = List.length rows).
  { unfold eq, cumsum. now rewrite cumsum_from_length, length_map. }
  assert (Hc : List.length ws = List.length rows).
  { unfold ws. now rewrite shift1_length, length_map. }
  destruct (zip3_fst rows eq ws Hb Hc) as [H1 H2].
  rewrite !map_map.
  repeat split.
  - rewrite <- H1 at 2. rewrite map_map. apply map_ext. now intros [[r e] w].
  - rewrite <- H1 at 2. rewrite map_map. apply map_ext. now intros [[r e] w].
  - rewrite <- H1 at 2. rewrite map_map. apply map_ext. now intros [[r e] w].
  - rewrite <- H2 at 2. apply map_ext. now intros [[r e] w].
Qed.

Lemma lap_le_total (a b : row) : lap_le a b = false -> lap_le b a = true.
Proof. unfold lap_le. rewrite Z.leb_gt, Z.leb_le. lia. Qed.

Lemma lap_le_trans (a b c : row) :
  lap_le a b = true -> lap_le b c = true -> lap_le a c = true.
Proof. unfold lap_le. rewrite !Z.leb_le. lia. Qed.

(** The laps of a driver are taken in lap-number order. *)
Lemma d_laps_sorted (s : Session) (driver : string) :
  StronglySorted (fun a b => (LapNumber a <= LapNumber b)%Z) (d_laps s driver).
Proof.
  unfold d_laps.
  eapply StronglySorted_weaken with (P := fun a b => lap_le a b = true).
  - intros a b. unfold lap_le. now rewrite Z.leb_le.
  - apply sort_by_sorted; [apply lap_le_total | apply lap_le_trans].
Qed.

Lemma Qsum_app (a b : list Q) : Qsum (a ++ b) == Qsum a + Qsum b.
Proof.
  induction a as [|x a IH]; simpl.
  - lra.
  - unfold Qsum in *. simpl. rewrite IH. lra.
Qed.

Lemma dropna_app (a b : list num) : dropna (a ++ b) = dropna a ++ dropna b.
Proof.
  induction a as [|[|x] a IH]; simpl; auto. now rewrite IH.
Qed.

(** The cells of a cumulative sum: missing where the summand is missing,
    and otherwise the total of the summands present so far. *)
Lemma cumsum_from_nth (xs : list num) : forall acc i,
  match nth_error xs i with
  | None => nth_error (cumsum_from acc xs) i = None
  | Some NaN => nth_error (cumsum_from acc xs) i = Some NaN
  | Some (Fin x) =>
      exists c, nth_error (cumsum_from acc xs) i = Some (Fin c)
                /\ c == acc + Qsum (dropna (firstn (S i) xs))
  end.
Proof.
  induction xs as [|a t IH]; intros acc i.
  - destruct i; reflexivity.
  - destruct i as [|j].
    + destruct a as [|x]; simpl; auto.
      exists (acc + x). split; auto. unfold Qsum; simpl. lra.
    + specialize (IH (match a with Fin x => acc + x | NaN => acc end) j).
      destruct a as [|x]; simpl nth_error in *;
        destruct (nth_error t j) as [[|y]|]; auto;
        destruct IH as (c & Hc & Hs); exists c; split; auto;
        rewrite Hs; cbn [firstn dropna]; unfold Qsum; simpl; lra.
Qed.

Lemma firstn_snoc {B : Type} (l : list B) : forall i x,
  nth_error l i = Some x -> firstn (S i) l = firstn i l ++ [x].
Proof.
  induction l as [|a t IH]; intros [|j] x H; simpl in *; try discriminate.
  - now injection H as <-.
  - f_equal. now apply IH.
Qed.

(** Between two consecutive laps that both carry a cumulative value, the
    later one is the earlier one plus the lap's change. *)
Lemma cumsum_step (xs : list num) (i : nat) (c x : Q) :
  nth_error (cumsum xs) i = Some (Fin c) ->
  nth_error xs (S i) = Some (Fin x) ->
  exists c', nth_error (cumsum xs) (S i) = Some (Fin c') /\ c' == c + x.
Proof.
  intros Hc Hx. unfold cumsum in *.
  pose proof (cumsum_from_nth xs 0 i) as Hi.
  pose proof (cumsum_from_nth xs 0 (S i)) as Hsi.
  rewrite Hx in Hsi. destruct Hsi as (c' & Hc' & Hs').
  exists c'. split; auto.
  destruct (nth_error xs i) as [[|y]|] eqn:Ey.
  - congruence.
  - destruct Hi as (c0 & Hc0 & Hs0).
    assert (c0 = c) by congruence. subst c0.
    rewrite Hs', Hs0.
    rewrite (firstn_snoc xs (S i) (Fin x) Hx), dropna_app, Qsum_app.
    unfold Qsum at 2. simpl. lra.
  - congruence.
Qed.

(** When every change of the column is a number, the cumulative sum obeys
    the recurrence at every lap and ends on the sum of the changes. *)
Lemma cumsum_recurrence (xs : list num) :
  Forall present xs ->
  num_eq (nth 0 (cumsum xs) NaN) (nth 0 xs NaN)
  /\ (forall i, (S i < List.length xs)%nat ->
        num_eq (nth (S i) (cumsum xs) NaN)
               (add (nth i (cumsum xs) NaN) (nth (S i) xs NaN)))
  /\ (xs <> [] -> num_eq (last (cumsum xs) NaN) (np_sum xs)).
Proof.
  intro HF.
  assert (Hall : forall i, (i < List.length xs)%nat ->
            exists x c, nth_error xs i = Some (Fin x)
                        /\ nth_error (cumsum xs) i = Some (Fin c)
                        /\ c == 0 + Qsum (dropna (firstn (S i) xs))).
  { intros i Hi. destruct (nth_error xs i) as [v|] eqn:E.
    - assert (Hp : present v).
      { eapply Forall_forall; [exact HF | eapply nth_error_In; eauto]. }
      destruct Hp as (x & ->).
      pose proof (cumsum_from_nth xs 0 i) as H. rewrite E in H.
      destruct H as (c & Hc & Hs). exists x, c. auto.
    - apply nth_error_None in E. lia. }
  split; [| split].
  - destruct xs as [|[|x] t]; simpl; auto. lra.
  - intros i Hi.
    destruct (Hall i) as (x & c & Hx & Hc & _); [lia|].
    destruct (Hall (S i)) as (y & c' & Hy & Hc' & _); [lia|].
    destruct (cumsum_step xs i c y Hc Hy) as (c2 & Hc2 & Hs).
    rewrite (nth_error_nth _ _ NaN Hc), (nth_error_nth _ _ NaN Hc2),
            (nth_error_nth _ _ NaN Hy).
    simpl. exact Hs.
  - intro Hne.
    assert (Hlen : List.length (cumsum xs) = List.length xs)
      by apply cumsum_from_length.
    destruct (Hall (List.length xs - 1)%nat) as (x & c & Hx & Hc & Hs).
    { destruct xs; [congruence | simpl; lia]. }
    assert (Hlast : last (cumsum xs) NaN = Fin c).
    { destruct (@exists_last _ (cumsum xs)) as (l' & a & E).
      - intro E. rewrite E in Hlen. destruct xs; [congruence | discriminate].
      - rewrite E in *. rewrite last_last.
        rewrite length_app in Hlen. simpl in Hlen.
        rewrite nth_error_app2 in Hc by lia.
        replace (List.length xs - 1 - List.length l')%nat with 0%nat in Hc by lia.
        simpl in Hc. congruence. }
    rewrite Hlast.
    replace (S (List.length xs - 1)) with (List.length xs) in Hs
      by (destruct xs; [congruence | simpl; lia]).
    rewrite firstn_all in Hs.
    clear -HF Hs. revert c Hs.
    induction HF as [|v t (q & ->) _ IH]; intros c Hs.
    + simpl in *. lra.
    + change (np_sum (Fin q :: t)) with (add (Fin q) (np_sum t)).
      specialize (IH (Qsum (dropna t))).
      destruct (np_sum t) as [|st]; simpl in *.
      * apply IH. lra.
      * rewrite Hs. unfold Qsum; simpl. fold (Qsum (dropna t)).
        rewrite <- IH by lra. lra.
Qed.

(** The cumulative equity of a driver whose changes are all numbers. *)
Lemma driver_equity_recurrence (cfg : Config.t) (s : Session) (driver : string) :
  let change := map EquityDf.EquityChange (driver_equity cfg s driver) in
  let equity := map EquityDf.ExecutionEquity (driver_equity cfg s driver) in
  Forall present change ->
  num_eq (nth 0 equity NaN) (nth 0 change NaN)
  /\ (forall i, (S i < List.length change)%nat ->
        num_eq (nth (S i) equity NaN) (add (nth i equity NaN) (nth (S i) change NaN)))
  /\ (change <> [] -> num_eq (last equity NaN) (np_sum change)).
Proof.
  intros change equity. unfold change, equity.
  destruct (driver_equity_columns cfg s driver) as (_ & _ & -> & ->).
  apply cumsum_recurrence.
Qed.

(** A caution lap is frozen, whatever the configuration says. *)
Lemma caution_lap_frozen (cfg : Config.t) (apl : num) (r : row) :
  IsSC r = true -> calculate_equity_change cfg apl r = Fin 0.
Proof. unfold calculate_equity_change. now intros ->. Qed.

Lemma equity_change_ignores_config (cfg cfg' : Config.t) (apl : num) (r : row) :
  calculate_equity_change cfg apl r = calculate_equity_change cfg' apl r.
Proof. reflexivity. Qed.

(** A lap without a delta: frozen to zero off the pit lane, missing on a
    green-flag pit lap. *)
Lemma missing_delta_off_pit (cfg : Config.t) (apl : num) (r : row) :
  RawDelta r = NaN -> IsPit r = false ->
  calculate_equity_change cfg apl r = Fin 0.
Proof.
  unfold calculate_equity_change. intros -> ->. simpl.
  now destruct (IsSC r).
Qed.

Lemma missing_delta_on_pit (cfg : Config.t) (apl : num) (r : row) :
  RawDelta r = NaN -> IsPit r = true -> IsSC r = false ->
  calculate_equity_change cfg apl r = NaN.
Proof.
  unfold calculate_equity_change. now intros -> -> ->.
Qed.

End EquityFacts.

(** ** Traffic threshold *)

Section ThresholdFacts.
Import AllLaps ExecutionEquity.

Lemma Qle_bool_total (a b : Q) : Qle_bool a b = false -> Qle_bool b a = true.
Proof.
  intro H. apply Qle_bool_iff. apply Qlt_le_weak. now apply Qle_bool_false.
Qed.

Lemma Qle_bool_trans (a b c : Q) :
  Qle_bool a b = true -> Qle_bool b c = true -> Qle_bool a c = true.
Proof. rewrite !Qle_bool_iff. apply Qle_trans. Qed.

Lemma Qsort_sorted (l : list Q) : StronglySorted Qle (Qsort l).
Proof.
  eapply StronglySorted_weaken with (P := fun a b => Qle_bool a b = true).
  - intros a b. apply Qle_bool_iff.
  - apply sort_by_sorted; [apply Qle_bool_total | apply Qle_bool_trans].
Qed.

Lemma half_floor (k : nat) :
  Qfloor (50 / 100 * inject_Z (Z.of_nat k)) = (Z.of_nat k / 2)%Z.
Proof.
  change (Qfloor (50 / 100 * inject_Z (Z.of_nat k)))
    with ((50 * Z.of_nat k) / (50 * 2))%Z.
  apply Z.div_mul_cancel_l; lia.
Qed.

Lemma half_frac (k : nat) :
  50 / 100 * inject_Z (Z.of_nat k) - inject_Z (Z.of_nat k / 2)
  == inject_Z (Z.of_nat k mod 2) / 2.
Proof.
  pose proof (Z.div_mod (Z.of_nat k) 2 ltac:(lia)) as H.
  set (z := Z.of_nat k) in *.
  rewrite H at 1. rewrite inject_Z_plus, inject_Z_mult. field.
Qed.

(** The interpolated quantile at one half is the textbook median. *)
Lemma quantile_sorted_half (a : list Q) :
  a <> [] ->
  exists m, quantile_sorted (50 / 100) a = Fin m
            /\ m == (nth ((List.length a - 1) / 2) a 0
                     + nth (List.length a / 2) a 0) / 2.
Proof.
  intro Hne. destruct a as [|x0 t]; [congruence|].
  unfold quantile_sorted. eexists. split; [reflexivity|].
  set (a := x0 :: t).
  set (k := (List.length a - 1)%nat).
  assert (Hlen : List.length a = S k) by (unfold k, a; simpl; lia).
  unfold Qfloor_nat. rewrite half_floor.
  assert (Hlo : Z.to_nat (Z.of_nat k / 2) = (k / 2)%nat).
  { change 2%Z with (Z.of_nat 2). rewrite <- Nat2Z.inj_div. apply Nat2Z.id. }
  rewrite Hlo.
  assert (Hfrac : 50 / 100 * inject_Z (Z.of_nat k) - inject_Z (Z.of_nat (k / 2))
                  == inject_Z (Z.of_nat (k mod 2)) / 2).
  { rewrite Nat2Z.inj_div, Nat2Z.inj_mod. apply half_frac. }
  rewrite Hfrac. rewrite Hlen.
  pose proof (Nat.div_mod_eq k 2) as Hk.
  pose proof (Nat.mod_upper_bound k 2 ltac:(lia)) as Hr.
  assert (Hin : (k / 2 < List.length a)%nat) by lia.
  rewrite (nth_indep a x0 0 Hin).
  destruct (k mod 2)%nat as [|[|r]] eqn:Er; [| | lia].
  - assert (E : (S k / 2 = k / 2)%nat).
    { symmetry. apply Nat.div_unique with (r := 1%nat); lia. }
    rewrite E. simpl inject_Z. field.
  - assert (E : (S k / 2 = S (k / 2))%nat).
    { symmetry. apply Nat.div_unique with (r := 0%nat); lia. }
    rewrite E.
    assert (Hin' : (S (k / 2) < List.length a)%nat) by lia.
    rewrite (nth_indep a (nth (k / 2) a 0) 0 Hin').
    simpl inject_Z. field.
Qed.

Lemma np_percentile_50_median (values : list Q) :
  values <> [] ->
  exists m, np_percentile 50 values = Fin m /\ median_of values m.
Proof.
  intro Hne. unfold np_percentile.
  assert (Hs : Qsort values <> []).
  { intro E. apply Hne. apply Permutation_nil. rewrite <- E.
    unfold Qsort. apply sort_by_perm. }
  destruct (quantile_sorted_half _ Hs) as (m & Hm & Hv).
  exists m. split; auto.
  exists (Qsort values). split; [unfold Qsort; apply sort_by_perm|].
  split; [apply Qsort_sorted|].
  unfold Qsort in Hv. rewrite sort_by_length in Hv. exact Hv.
Qed.

Lemma np_clip_clamped (m lo hi : Q) :
  lo <= hi -> exists c, np_clip (Fin m) lo hi = Fin c /\ clamped m lo hi c.
Proof.
  intro Hlh. simpl. eexists. split; [reflexivity|].
  unfold clamped, Qmin, Qmax.
  destruct (Qle_bool m lo) eqn:E1.
  - apply Qle_bool_iff in E1.
    destruct (Qle_bool lo hi) eqn:E2.
    + repeat split; try lra.
    + apply Qle_bool_false in E2. lra.
  - apply Qle_bool_false in E1.
    destruct (Qle_bool m hi) eqn:E2.
    + apply Qle_bool_iff in E2. repeat split; lra.
    + apply Qle_bool_false in E2. repeat split; lra.
Qed.

(** A lap contributes a gap sample when it is off the pit lane, under
    green, and its gap lies strictly between 0.1 s and 9.0 s. *)
Lemma valid_gaps_In (all_laps : list row) (q : Q) :
  In q (valid_gaps all_laps) <->
  exists r, In r all_laps /\ IsPit r = false /\ IsSC r = false
            /\ IntervalToAhead r = Fin q /\ 1 # 10 < q /\ q < 9.
Proof.
  unfold valid_gaps. rewrite in_dropna, in_map_iff. split.
  - intros (r & Hq & Hr). apply filter_In in Hr. destruct Hr as [Hr Hc].
    rewrite !andb_true_iff, !negb_true_iff in Hc.
    destruct Hc as [[[Hp Hs] Hg] Hl]. rewrite Hq in Hg, Hl.
    unfold gtb in Hg. simpl in Hg, Hl.
    apply Qltb_lt in Hg, Hl. exists r. auto 10.
  - intros (r & Hr & Hp & Hs & Hq & Hg & Hl). exists r. split; auto.
    apply filter_In. split; auto.
    rewrite Hp, Hs, Hq. unfold gtb. simpl.
    apply Qltb_lt in Hg, Hl. now rewrite Hg, Hl.
Qed.

(** C6.  The calibrated traffic threshold.  A gap sample is valid when its
    lap is off the pit lane, under green, and the gap to the car ahead is
    strictly between 0.1 s and 9.0 s.  With fewer than 50 valid samples the
    threshold is the default 1.3 s; with 50 or more it is the median (50th
    percentile) of the valid samples brought into the interval from 0.8 s
    to 3.0 s. *)
Theorem traffic_threshold_calibration (all_laps : list row) :
  let valid := valid_gaps all_laps in
  (forall q, In q valid <->
     exists r, In r all_laps /\ IsPit r = false /\ IsSC r = false
               /\ IntervalToAhead r = Fin q /\ 1 # 10 < q /\ q < 9)
  /\ ((List.length valid < 50)%nat ->
      estimate_traffic_threshold_dynamically all_laps = Fin (13 # 10))
  /\ ((50 <= List.length valid)%nat ->
      exists m c,
        np_percentile 50 valid = Fin m
        /\ median_of valid m
        /\ estimate_traffic_threshold_dynamically all_laps = Fin c
        /\ clamped m (8 # 10) 3 c).
Proof.
  intro valid. split; [| split].
  - intro q. apply valid_gaps_In.
  - intro H. unfold estimate_traffic_threshold_dynamically. fold valid.
    apply Nat.ltb_lt in H. now rewrite H.
  - intro H. unfold estimate_traffic_threshold_dynamically. fold valid.
    assert (Hge : (List.length valid <? 50)%nat = false) by (apply Nat.ltb_ge; lia).
    rewrite Hge.
    destruct (np_percentile_50_median valid) as (m & Hm & Hmed).
    { intro E. rewrite E in H. simpl in H. lia. }
    destruct (np_clip_clamped m (8 # 10) 3) as (c & Hc & Hcl); [lra|].
    exists m, c. rewrite Hm. auto.
Qed.

End ThresholdFacts.

(** ** Archetypes *)

Section ProfilerFacts.
Import ResilienceProfiler.

Lemma idxmax_from_spec (xs : list num) : forall i best k,
  idxmax_from i best xs = Some k ->
  (exists y, best = Some (k, y)
             /\ forall j v, nth_error xs j = Some (Fin v) -> v <= y)
  \/ (exists j x,
        k = (i + j)%nat
        /\ nth_error xs j = Some (Fin x)
        /\ (forall j' v, nth_error xs j' = Some (Fin v) ->
              v <= x /\ ((j' < j)%nat -> v < x))
        /\ match best with Some (_, y) => y < x | None => True end).
Proof.
  induction xs as [|a t IH]; intros i best k H; simpl in H.
  - left. destruct best as [[b y]|]; simpl in H; [|discriminate].
    injection H as ->. exists y. split; auto.
    intros [|j] v Hj; discriminate.
  - destruct a as [|x].
    + destruct (IH _ _ _ H) as [(y & Hb & Hall) | (j & x & Hk & Hj & Hall & Hbest)].
      * left. exists y. split; auto.
        intros [|j] v Hj; [discriminate | eapply Hall; eauto].
      * right. exists (S j), x. repeat split; auto; try lia.
        -- destruct j' as [|j']; [discriminate | eapply Hall; eauto].
        -- destruct j' as [|j']; [discriminate|].
           intro. eapply Hall; eauto. lia.
    + assert (Hnew :
                idxmax_from (S i) (Some (i, x)) t = Some k ->
                match best with Some (_, y) => y < x | None => True end ->
                exists j x0,
                  k = (i + j)%nat
                  /\ nth_error (Fin x :: t) j = Some (Fin x0)
                  /\ (forall j' v, nth_error (Fin x :: t) j' = Some (Fin v) ->
                        v <= x0 /\ ((j' < j)%nat -> v < x0))
                  /\ match best with Some (_, y) => y < x0 | None => True end).
      { intros H' Hb.
        destruct (IH _ _ _ H') as [(y & Hy & Hall) | (j & x' & Hk & Hj & Hall & Hlt)].
        - injection Hy as <- <-. exists 0%nat, x.
          split; [lia|]. split; [reflexivity|]. split; [|exact Hb].
          intros [|j'] v Hv; simpl in Hv.
          + injection Hv as <-. split; [apply Qle_refl | lia].
          + split; [eapply Hall; eauto | lia].
        - exists (S j), x'.
          split; [lia|]. split; [exact Hj|]. split.
          + intros [|j'] v Hv; simpl in Hv.
            * injection Hv as <-. split; [now apply Qlt_le_weak | auto].
            * destruct (Hall _ _ Hv) as [H1 H2]. split; auto.
              intro. apply H2. lia.
          + destruct best as [[b y]|]; auto. eapply Qlt_trans; eauto. }
      destruct best as [[b y]|].
      * destruct (Qltb y x) eqn:E.
        -- apply Qltb_lt in E. right. apply Hnew; auto.
        -- apply Qltb_ge in E.
           destruct (IH _ _ _ H) as [(y' & Hy & Hall) | (j & x' & Hk & Hj & Hall & Hlt)].
           ++ injection Hy as <- <-. left. exists y. split; auto.
              intros [|j] v Hj; simpl in Hj.
              ** now injection Hj as <-.
              ** eapply Hall; eauto.
           ++ right. exists (S j), x'.
              split; [lia|]. split; [exact Hj|]. split; [|exact Hlt].
              intros [|j'] v Hv; simpl in Hv.
              ** injection Hv as <-. split; [lra | intro; lra].
              ** destruct (Hall _ _ Hv) as [H1 H2]. split; auto.
                 intro. apply H2. lia.
      * right. apply Hnew; auto.
Qed.

(** The position returned by [idxmax] holds the largest present value and
    is the first to hold it. *)
Lemma idxmax_spec (xs : list num) (k : nat) :
  idxmax xs = Some k ->
  exists x, nth_error xs k = Some (Fin x)
            /\ forall j v, nth_error xs j = Some (Fin v) ->
                 v <= x /\ ((j < k)%nat -> v < x).
Proof.
  intro H. destruct (idxmax_from_spec xs 0 None k H)
    as [(y & Hb & _) | (j & x & Hk & Hj & Hall & _)]; [discriminate|].
  simpl in Hk. subst j. exists x. auto.
Qed.

Lemma idxmax_from_None (xs : list num) : forall i best,
  idxmax_from i best xs = None -> best = None /\ Forall (fun v => v = NaN) xs.
Proof.
  induction xs as [|a t IH]; intros i best H; simpl in H.
  - destruct best; [discriminate | auto].
  - destruct a as [|x].
    + destruct (IH _ _ H). auto.
    + destruct best as [[b y]|].
      * destruct (Qltb y x); destruct (IH _ _ H); discriminate.
      * destruct (IH _ _ H); discriminate.
Qed.

Lemma has_king_true (df : list row) :
  has_king df = true <->
  exists r, In r df /\ Resilience_Profile r = Some Entropy_King.
Proof.
  unfold has_king. rewrite existsb_exists. split.
  - intros (r & Hr & Hp). exists r. split; auto.
    destruct (Resilience_Profile r) as [[]|]; simpl in Hp; try discriminate; auto.
  - intros (r & Hr & Hp). exists r. split; auto. now rewrite Hp.
Qed.

Lemma set_profile_at_length (p : Profile) (df : list row) : forall i,
  List.length (set_profile_at i p df) = List.length df.
Proof.
  induction df as [|r t IH]; intros [|i]; simpl; auto.
Qed.

(** The assignment changes the row at the position and no other. *)
Lemma set_profile_at_nth (p : Profile) (df : list row) : forall i j,
  nth_error (set_profile_at i p df) j
  = if Nat.eqb i j then option_map (set_profile p) (nth_error df j)
    else nth_error df j.
Proof.
  induction df as [|r t IH]; intros [|i] [|j]; simpl; auto.
  now destruct (Nat.eqb i j).
Qed.

Lemma labelled_restart (cfg : Config.t) (df0 df : list row) :
  map Restart_Delta
      (map (fun r => set_profile (assign_archetype cfg df0 r) r) df)
  = map Restart_Delta df.
Proof. rewrite map_map. now apply map_ext. Qed.

(** The calls that return a table: the k-means fit has enough rows, and
    the rules crown somebody or there is a restart delta to pick. *)
Lemma profile_drivers_returns (cfg : Config.t) (df out : list row) :
  profile_drivers cfg df = Returns (Some out)
  <-> (n_clusters <= List.length df)%nat
      /\ (if has_king (map (fun r => set_profile (assign_archetype cfg df r) r) df)
          then Some (map (fun r => set_profile (assign_archetype cfg df r) r) df)
          else
            match idxmax (map Restart_Delta
                            (map (fun r => set_profile (assign_archetype cfg df r) r)
                                 df)) with
            | None => None
            | Some best_idx =>
                Some (set_profile_at best_idx Entropy_King
                        (map (fun r => set_profile (assign_archetype cfg df r) r) df))
            end) = Some out.
Proof.
  unfold profile_drivers.
  destruct df as [|r0 t] eqn:Edf.
  - split; [discriminate | intros [H _]; unfold n_clusters in H; simpl in H; lia].
  - rewrite <- Edf. clear Edf r0 t.
    destruct (List.length df <? n_clusters)%nat eqn:En.
    + apply Nat.ltb_lt in En. split; [discriminate | intros [H _]; lia].
    + apply Nat.ltb_ge in En. cbv zeta.
      destruct (has_king _).
      * split; [intro H; injection H as <-; auto | intros [_ H]; congruence].
      * destruct (idxmax _).
        -- split; [intro H; injection H as <-; auto | intros [_ H]; congruence].
        -- split; [discriminate | intros [_ H]; discriminate].
Qed.

(** On a cohort of one to seven rows the k-means fit raises. *)
Lemma profile_drivers_small (cfg : Config.t) (df : list row) :
  df <> [] -> (List.length df < n_clusters)%nat ->
  profile_drivers cfg df = Raises KMeansTooFewSamples.
Proof.
  intros Hne Hlt. unfold profile_drivers.
  destruct df as [|r0 t]; [congruence|].
  apply Nat.ltb_lt in Hlt. now rewrite Hlt.
Qed.

(** C9.  For every non-empty cohort: whenever the classification completes,
    at least one competitor carries the label Entropy King.  If the
    threshold rules gave the label to someone, the table is the one they
    produced; if they gave it to nobody, exactly the row of the first
    competitor with the highest restart delta is relabelled Entropy King.
    The classification completes exactly when the cohort has at least
    eight rows (fewer make the k-means fit raise) and the rules give the
    label to someone or some competitor has a restart delta. *)
Theorem entropy_king_guaranteed (cfg : Config.t) (df : list row) :
  df <> [] ->
  let labelled := map (fun r => set_profile (assign_archetype cfg df r) r) df in
  (forall out, profile_drivers cfg df = Returns (Some out) ->
     (exists r, In r out /\ Resilience_Profile r = Some Entropy_King)
     /\ List.length out = List.length df
     /\ (has_king labelled = true -> out = labelled)
     /\ (has_king labelled = false ->
         exists best_idx x,
           out = set_profile_at best_idx Entropy_King labelled
           /\ nth_error (map Restart_Delta df) best_idx = Some (Fin x)
           /\ (forall j v, nth_error (map Restart_Delta df) j = Some (Fin v) ->
                 v <= x /\ ((j < best_idx)%nat -> v < x))
           /\ (forall j, nth_error out j
                         = if Nat.eqb best_idx j
                           then option_map (set_profile Entropy_King)
                                           (nth_error labelled j)
                           else nth_error labelled j)))
  /\ ((exists out, profile_drivers cfg df = Returns (Some out))
      <-> (n_clusters <= List.length df)%nat
          /\ (has_king labelled = true
              \/ exists r, In r df /\ present (Restart_Delta r)))
  /\ ((List.length df < n_clusters)%nat ->
      profile_drivers cfg df = Raises KMeansTooFewSamples).
Proof.
  intros Hne labelled.
  assert (Hlen : List.length labelled = List.length df)
    by (unfold labelled; apply length_map).
  assert (Hrd : map Restart_Delta labelled = map Restart_Delta df)
    by apply labelled_restart.
  split; [| split].
  - intros out Hout. apply profile_drivers_returns in Hout.
    destruct Hout as [_ Hout]. fold labelled in Hout.
    destruct (has_king labelled) eqn:Ek.
    + injection Hout as <-.
      split; [now apply has_king_true|].
      split; [exact Hlen|]. split; [reflexivity | discriminate].
    + destruct (idxmax (map Restart_Delta labelled)) as [best|] eqn:Ei;
        [|discriminate].
      injection Hout as <-.
      destruct (idxmax_spec _ _ Ei) as (x & Hx & Hmax). rewrite Hrd in Hx, Hmax.
      assert (Hb : (best < List.length labelled)%nat).
      { rewrite Hlen, <- (length_map Restart_Delta). apply nth_error_Some. congruence. }
      split; [| split; [| split]].
      * destruct (nth_error labelled best) as [r|] eqn:Er.
        -- exists (set_profile Entropy_King r). split; auto.
           eapply nth_error_In with (n := best).
           rewrite set_profile_at_nth, Nat.eqb_refl, Er. reflexivity.
        -- apply nth_error_None in Er. lia.
      * now rewrite set_profile_at_length.
      * discriminate.
      * intros _. exists best, x.
        split; [reflexivity|]. split; [exact Hx|]. split; [exact Hmax|].
        intro j. apply set_profile_at_nth.
  - split.
    + intros (out & Hout). apply profile_drivers_returns in Hout.
      destruct Hout as [Hn Hout]. fold labelled in Hout. split; [exact Hn|].
      destruct (has_king labelled); [now left | right].
      destruct (idxmax (map Restart_Delta labelled)) as [best|] eqn:Ei;
        [|discriminate].
      destruct (idxmax_spec _ _ Ei) as (x & Hx & _). rewrite Hrd in Hx.
      apply nth_error_In, in_map_iff in Hx. destruct Hx as (r & Hr & Hin).
      exists r. split; [exact Hin | now exists x].
    + intros [Hn Hk].
      assert (Hsome : exists out,
                (if has_king labelled then Some labelled
                 else match idxmax (map Restart_Delta labelled) with
                      | None => None
                      | Some best_idx =>
                          Some (set_profile_at best_idx Entropy_King labelled)
                      end) = Some out).
      { destruct Hk as [Hk | (r & Hr & (x & Hx))].
        - rewrite Hk. eauto.
        - destruct (has_king labelled); [eauto|].
          destruct (idxmax (map Restart_Delta labelled)) as [best|] eqn:Ei; [eauto|].
          exfalso. destruct (idxmax_from_None _ _ _ Ei) as [_ HF].
          rewrite Hrd in HF. rewrite Forall_forall in HF.
          specialize (HF (Restart_Delta r) (in_map _ _ _ Hr)). congruence. }
      destruct Hsome as (out & Hout). exists out.
      apply profile_drivers_returns. fold labelled. auto.
  - intro Hlt. now apply profile_drivers_small.
Qed.

End ProfilerFacts.

(** ** Ratio engine *)

Section RatioFacts.
Import Ratio.
Variable sqrt : Q -> Q.

Lemma flat_map_nil {B C : Type} (f : B -> list C) (l : list B) :
  (forall x, In x l -> f x = []) -> flat_map f l = [].
Proof.
  induction l as [|x t IH]; intro H; simpl; auto.
  rewrite (H x), IH; simpl; auto. intros y Hy. apply H. simpl; auto.
Qed.

Lemma filter_map_In {B C : Type} (f : B -> option C) (l : list B) (y : C) :
  In y (filter_map f l) <-> exists x, In x l /\ f x = Some y.
Proof.
  induction l as [|a t IH]; simpl.
  - split; [contradiction | now intros (x & [] & _)].
  - destruct (f a) as [b|] eqn:E; simpl; rewrite IH; split.
    + intros [<- | (x & Hx & Hf)]; eauto.
    + intros (x & [<- | Hx] & Hf); [left; congruence | eauto].
    + intros (x & Hx & Hf); eauto.
    + intros (x & [<- | Hx] & Hf); [congruence | eauto].
Qed.

Lemma filter_map_filter {B C : Type} (f : B -> option C) (p : B -> bool)
    (l : list B) :
  (forall x, p x = false -> f x = None) ->
  filter_map f (filter p l) = filter_map f l.
Proof.
  intro H. induction l as [|a t IH]; simpl; auto.
  destruct (p a) eqn:E; simpl.
  - now rewrite IH.
  - now rewrite (H a E).
Qed.

(** A stint that reaches no entry of the loop output. *)
Lemma stint_entries_nil (body : list lap -> stint_entry) (dl : list lap) :
  (forall sn, (List.length (stint_laps dl sn) < 3)%nat) ->
  stint_entries body dl = [].
Proof.
  intro H. unfold stint_entries. apply flat_map_nil. intros sn _.
  specialize (H sn). apply Nat.ltb_lt in H. now rewrite H.
Qed.

Lemma stint_entries_In (body : list lap -> stint_entry) (dl : list lap)
    (e : stint_entry) :
  In e (stint_entries body dl) <->
  exists sn, In sn (stint_numbers dl)
             /\ (3 <= List.length (stint_laps dl sn))%nat
             /\ e = body (stint_laps dl sn).
Proof.
  unfold stint_entries. rewrite in_flat_map. split.
  - intros (sn & Hsn & He). exists sn. split; auto.
    destruct (List.length (stint_laps dl sn) <? 3)%nat eqn:E; simpl in He.
    + contradiction.
    + apply Nat.ltb_ge in E. destruct He as [<- | []]. auto.
  - intros (sn & Hsn & Hlen & ->). exists sn. split; auto.
    assert (E : (List.length (stint_laps dl sn) <? 3)%nat = false)
      by (apply Nat.ltb_ge; lia).
    rewrite E. simpl; auto.
Qed.

Lemma driver_laps_delta_present (s : Session) (d : string) (l : lap) :
  In l (driver_laps s d) -> present (LapTimeDelta l).
Proof.
  unfold driver_laps, dropna_delta. rewrite !filter_In.
  intros ((_ & H) & _). destruct (LapTimeDelta l) as [|q]; [discriminate|].
  now exists q.
Qed.

Lemma dropna_all_present (xs : list num) :
  Forall present xs -> map Fin (dropna xs) = xs.
Proof.
  induction 1 as [|v t (q & ->) _ IH]; simpl; auto. now rewrite IH.
Qed.

Lemma series_mean_present (xs : list num) :
  xs <> [] -> Forall present xs ->
  series_mean xs = Fin (Qmean (dropna xs)).
Proof.
  intros Hne HF. unfold series_mean.
  destruct (dropna xs) as [|x t] eqn:E; auto.
  apply dropna_all_present in HF. rewrite E in HF. simpl in HF. congruence.
Qed.

Lemma ratio_or_zero_above (mean dev : Q) :
  1 # 1000000 < dev -> ratio_or_zero (Fin mean) (Fin dev) = Fin (- mean / dev).
Proof.
  intro H. unfold ratio_or_zero, gtb. simpl.
  rewrite (proj2 (Qltb_lt _ _) H).
  destruct (Qeq_bool dev 0) eqn:E; auto.
  apply Qeq_bool_iff in E. lra.
Qed.

Lemma downside_deltas_In (deltas : list num) (mean q : Q) :
  In (Fin q) (downside_deltas deltas (Fin mean)) <->
  In (Fin q) deltas /\ mean < q.
Proof.
  unfold downside_deltas. rewrite filter_In. unfold gtb. simpl.
  now rewrite Qltb_lt.
Qed.

Lemma stint_deltas_present (s : Session) (d : string) (sn : num) :
  Forall present (map LapTimeDelta (stint_laps (driver_laps s d) sn)).
Proof.
  apply Forall_forall. intros v Hv. apply in_map_iff in Hv.
  destruct Hv as (l & <- & Hl). unfold stint_laps in Hl.
  apply filter_In in Hl. destruct Hl as [Hl _].
  eapply driver_laps_delta_present; eauto.
Qed.

(** C7.  For every competitor and segment of the ratio engine with at
    least three delta samples, the Sortino-like ratio recorded for the
    segment (in both scripts) is computed from the deltas strictly greater
    than the segment's own mean delta: zero when that subset is empty,
    zero when its standard deviation is not greater than 1e-6, and
    otherwise minus the mean delta over that standard deviation. *)
Theorem sortino_from_downside_subset (s : Session) (d : string) (sn : num) :
  let dl := driver_laps s d in
  let sl := stint_laps dl sn in
  In sn (stint_numbers dl) ->
  (3 <= List.length sl)%nat ->
  In (sharpe_stint sqrt sl) (stint_entries (sharpe_stint sqrt) dl)
  /\ In (sortino_stint sqrt sl) (stint_entries (sortino_stint sqrt) dl)
  /\ sortino_spec sqrt (map LapTimeDelta sl) (sortino_ratio (sharpe_stint sqrt sl))
  /\ sortino_spec sqrt (map LapTimeDelta sl) (sortino_ratio (sortino_stint sqrt sl)).
Proof.
  intros dl sl Hsn Hlen.
  split; [apply stint_entries_In; exists sn; auto|].
  split; [apply stint_entries_In; exists sn; auto|].
  pose proof (stint_deltas_present s d sn) as HF. fold dl sl in HF.
  assert (Hne : map LapTimeDelta sl <> []).
  { intro E. apply (f_equal (@List.length _)) in E.
    rewrite length_map in E. simpl in E. lia. }
  pose proof (series_mean_present _ Hne HF) as Hmean.
  split.
  - exists (Qmean (dropna (map LapTimeDelta sl))).
    split; [exact Hmean|]. split; [reflexivity|].
    cbv zeta. unfold sharpe_stint. cbn [sortino_ratio]. rewrite Hmean.
    split; [intro q; apply downside_deltas_In|].
    split; [now intros ->|].
    split.
    + intro Hg. destruct (downside_deltas _ _); auto.
      unfold ratio_or_zero. now rewrite Hg.
    + intros Hd dev Hdev Hlt.
      destruct (downside_deltas _ _) eqn:E; [congruence|].
      rewrite Hdev. now apply ratio_or_zero_above.
  - exists (Qmean (dropna (map LapTimeDelta sl))).
    split; [exact Hmean|]. split; [reflexivity|].
    cbv zeta. unfold sortino_stint. cbn [sortino_ratio]. rewrite Hmean.
    split; [intro q; apply downside_deltas_In|].
    split; [now intros ->|].
    split.
    + intro Hg. destruct (downside_deltas _ _); auto.
      unfold ratio_or_zero. now rewrite Hg.
    + intros Hd dev Hdev Hlt.
      destruct (downside_deltas _ _) eqn:E; [congruence|].
      rewrite Hdev. now apply ratio_or_zero_above.
Qed.

Lemma row_without_qualifying_stint (s : Session) (d : string) :
  (forall sn, (List.length (stint_laps (driver_laps s d) sn) < 3)%nat) ->
  sharpe_row sqrt s d = None /\ sortino_row sqrt s d = None.
Proof.
  intro H. unfold sharpe_row, sortino_row.
  rewrite !stint_entries_nil by exact H.
  now destruct (driver_laps s d).
Qed.

Lemma row_has_qualifying_stint (s : Session) (d : string) (r : result_row) :
  sharpe_row sqrt s d = Some r \/ sortino_row sqrt s d = Some r ->
  (3 <= Laps_Count r)%nat
  /\ exists sn, (3 <= List.length (stint_laps (driver_laps s d) sn))%nat.
Proof.
  assert (Hsum : forall body es,
            es = stint_entries body (driver_laps s d) ->
            (forall sl, weight (body sl) = List.length sl) ->
            es <> [] ->
            (3 <= fold_right Nat.add 0%nat (map weight es))%nat
            /\ exists sn, (3 <= List.length (stint_laps (driver_laps s d) sn))%nat).
  { intros body es Hes Hw Hne. destruct es as [|e t]; [congruence|].
    assert (He : In e (stint_entries body (driver_laps s d)))
      by (rewrite <- Hes; simpl; auto).
    apply stint_entries_In in He. destruct He as (sn & _ & Hlen & ->).
    split; [| eauto]. simpl. rewrite Hw. lia. }
  unfold sharpe_row, sortino_row.
  intros [H | H];
    (destruct (driver_laps s d) as [|l0 dl0] eqn:Edl; [discriminate|]);
    rewrite <- Edl in *; clear Edl.
  - destruct (stint_entries (sharpe_stint sqrt) (driver_laps s d)) as [|e es] eqn:E;
      [discriminate|].
    injection H as <-.
    apply (Hsum (sharpe_stint sqrt) (e :: es)); auto. discriminate.
  - destruct (stint_entries (sortino_stint sqrt) (driver_laps s d)) as [|e es] eqn:E;
      [discriminate|].
    injection H as <-.
    apply (Hsum (sortino_stint sqrt) (e :: es)); auto. discriminate.
Qed.

Lemma driver_analysis_without (row_of : Session -> string -> option result_row)
    (s : Session) (d : string) :
  (forall s' d', green_laps s' = green_laps s -> Abbreviation s' = Abbreviation s ->
                 row_of s' d' = row_of s d') ->
  row_of s d = None ->
  driver_analysis row_of (session_without d s) = driver_analysis row_of s.
Proof.
  intros Hrow Hnone. unfold driver_analysis. cbn [drivers session_without].
  rewrite filter_map_filter.
  - induction (drivers s) as [|a t IH]; simpl; auto.
    rewrite (Hrow (session_without d s) a); auto.
    destruct (row_of s a); now rewrite IH.
  - intros x Hx. rewrite Hrow; auto.
    apply negb_false_iff, String.eqb_eq in Hx. now subst.
Qed.

(** C10.  A competitor none of whose segments has at least three delta
    samples gets no row: the result table of each ratio script is the
    table of the session without that competitor, and every row of it
    belongs to a competitor with a segment of at least three samples and
    counts at least three laps. *)
Theorem thin_competitor_omitted (s : Session) (d : string) :
  (forall sn, (List.length (stint_laps (driver_laps s d) sn) < 3)%nat) ->
  sharpe_row sqrt s d = None
  /\ sortino_row sqrt s d = None
  /\ calculate_driver_sharpe_ratio sqrt s
     = calculate_driver_sharpe_ratio sqrt (session_without d s)
  /\ calculate_driver_sortino_ratio sqrt s
     = calculate_driver_sortino_ratio sqrt (session_without d s)
  /\ forall table r,
       calculate_driver_sharpe_ratio sqrt s = Some table
       \/ calculate_driver_sortino_ratio sqrt s = Some table ->
       In r table ->
       exists d', In d' (drivers s)
                  /\ (sharpe_row sqrt s d' = Some r \/ sortino_row sqrt s d' = Some r)
                  /\ (3 <= Laps_Count r)%nat
                  /\ (exists sn,
                        (3 <= List.length (stint_laps (driver_laps s d') sn))%nat)
                  /\ d' <> d.
Proof.
  intro H. destruct (row_without_qualifying_stint s d H) as [H1 H2].
  split; [exact H1|]. split; [exact H2|].
  split; [| split].
  - unfold calculate_driver_sharpe_ratio. cbn [green_laps session_without].
    rewrite driver_analysis_without; auto.
    intros s' d' Hg Ha. unfold sharpe_row, driver_laps. now rewrite Hg, Ha.
  - unfold calculate_driver_sortino_ratio. cbn [green_laps session_without].
    rewrite driver_analysis_without; auto.
    intros s' d' Hg Ha. unfold sortino_row, driver_laps. now rewrite Hg, Ha.
  - intros table r Ht Hr.
    assert (Hin : exists d', In d' (drivers s)
               /\ (sharpe_row sqrt s d' = Some r \/ sortino_row sqrt s d' = Some r)).
    { destruct Ht as [Ht | Ht];
        [unfold calculate_driver_sharpe_ratio in Ht
        |unfold calculate_driver_sortino_ratio in Ht];
        destruct (green_laps s); try discriminate;
        match type of Ht with
        | match ?da with _ => _ end = _ => destruct da eqn:E; [discriminate|]
        end;
        injection Ht as <-;
        match type of Hr with
        | In _ (insert_sorted ?le ?x (sort_by ?le ?l)) =>
            change (In r (sort_by le (x :: l))) in Hr
        end;
        apply sort_by_In in Hr; rewrite <- E in Hr;
        apply filter_map_In in Hr; destruct Hr as (d' & Hd' & Hrow); eauto. }
    destruct Hin as (d' & Hd' & Hrow). exists d'.
    destruct (row_has_qualifying_stint s d' r Hrow) as [Hc Hs].
    repeat split; auto.
    intros ->. destruct Hrow; congruence.
Qed.

End RatioFacts.

(** ** The pipelines on the sample tables *)

Section SampleFacts.
Import AllLaps ExecutionEquity.

(** C3.  The specification has a caution lap frozen to an equity change
    of exactly zero when the caution freeze is enabled, and has the freeze
    configurable on and off.  In the code the switch [SC_EQUITY_FREEZE] is read nowhere: with the switch
    off, a safety-car lap five seconds over the benchmark still gets an
    equity change of zero, where the same lap under green gets minus five. *)
Theorem freeze_switch_has_no_effect :
  Config.SC_EQUITY_FREEZE Config.freeze_off = false
  /\ IsSC Samples.caution_lap = true
  /\ RawDelta Samples.caution_lap = Fin 5
  /\ calculate_equity_change Config.freeze_off (Fin 20) Samples.caution_lap = Fin 0
  /\ calculate_equity_change Config.freeze_off (Fin 20) Samples.green_lap = Fin (-5)
  /\ forall cfg apl r, IsSC r = true -> calculate_equity_change cfg apl r = Fin 0.
Proof.
  repeat split; try (vm_compute; reflexivity).
  intros cfg apl r. apply caution_lap_frozen.
Qed.

(** C8.  The specification has every lap without a benchmark delta get a
    well-defined equity change, on pit laps as on other laps.  In the code only the
    branch for laps off the pit lane tests for a missing delta: the
    green-flag pit lap of car 4, which has no lap time, gets a missing
    equity change and a missing cumulative equity, and its drawdown is
    missing too. *)
Theorem pit_lap_without_delta_has_no_equity_change :
  let rows := driver_equity Config.default Samples.pit_session "4" in
  map (fun r => (IsPit r, IsSC r, RawDelta r)) (d_laps Samples.pit_session "4")
  = [(false, false, Fin (-1)); (true, false, NaN); (false, false, Fin (-2))]
  /\ map EquityDf.EquityChange rows = [Fin 1; NaN; Fin 2]
  /\ map EquityDf.ExecutionEquity rows = [Fin 1; NaN; Fin 3]
  /\ map DrawdownMetrics.Drawdown (DrawdownMetrics.with_drawdown rows)
     = [Fin 0; NaN; Fin 0]
  /\ calculate_execution_equity Config.default Samples.pit_session
     = Some (rows ++ driver_equity Config.default Samples.pit_session "81")
  /\ forall cfg apl r,
       RawDelta r = NaN -> IsPit r = true -> IsSC r = false ->
       calculate_equity_change cfg apl r = NaN.
Proof.
  cbv zeta. repeat split; try (vm_compute; reflexivity).
  intros cfg apl r. apply missing_delta_on_pit.
Qed.

(** C2.  The specification has, at every lap after the first, the
    cumulative equity equal to that of the previous lap plus the lap's
    equity change, so that the last cumulative equity is the sum of all
    changes.  In the code the cumulative sum skips a missing change: for car 4, whose pit
    lap 2 has a missing change, the cumulative equity of lap 3 is a number
    although that of lap 2 is missing, and the last cumulative equity is a
    number although the changes do not add up to one. *)
Theorem cumulative_equity_skips_missing_change :
  let rows := driver_equity Config.default Samples.pit_session "4" in
  let change := map EquityDf.EquityChange rows in
  let equity := map EquityDf.ExecutionEquity rows in
  map EquityDf.LapNumber rows = [1; 2; 3]%Z
  /\ change = [Fin 1; NaN; Fin 2]
  /\ equity = [Fin 1; NaN; Fin 3]
  /\ add (nth 1 equity NaN) (nth 2 change NaN) = NaN
  /\ ~ num_eq (nth 2 equity NaN) (add (nth 1 equity NaN) (nth 2 change NaN))
  /\ np_sum change = NaN
  /\ ~ num_eq (last equity NaN) (np_sum change).
Proof.
  cbv zeta. repeat split; try (vm_compute; reflexivity).
  - vm_compute. auto.
  - vm_compute. auto.
Qed.

(** Sixty gaps spread evenly from 0.5 s to 2.5 s calibrate the threshold
    to their median, 1.5 s. *)
Example threshold_of_sixty_gaps :
  num_eq (estimate_traffic_threshold_dynamically Samples.sixty_gaps) (Fin (3 # 2)).
Proof. vm_compute. reflexivity. Qed.

(** A race without a valid gap sample falls back to 1.3 s. *)
Example threshold_without_samples :
  estimate_traffic_threshold_dynamically (laps Samples.pit_session) = Fin (13 # 10).
Proof. vm_compute. reflexivity. Qed.

(** A competitor that leads on both axes and gains at restarts is crowned
    by the rules; nobody is relabelled. *)
Example natural_king :
  exists out,
    ResilienceProfiler.profile_drivers Config.default Samples.cohort_with_king
    = Returns (Some out)
    /\ map ResilienceProfiler.Resilience_Profile out
       = [ Some ResilienceProfiler.Entropy_King;
           Some ResilienceProfiler.Steady_Operator;
           Some ResilienceProfiler.Brittle_Performer;
           Some ResilienceProfiler.Steady_Operator;
           Some ResilienceProfiler.Volatile_Performer;
           Some ResilienceProfiler.Steady_Operator;
           Some ResilienceProfiler.Steady_Operator;
           Some ResilienceProfiler.Brittle_Performer ].
Proof. eexists. split; [reflexivity | vm_compute; reflexivity]. Qed.

(** Without a natural king the competitor with the highest restart delta
    is relabelled. *)
Example forced_king :
  map (ResilienceProfiler.assign_archetype Config.default Samples.cohort_without_king)
      Samples.cohort_without_king
  = [ ResilienceProfiler.Steady_Operator; ResilienceProfiler.Steady_Operator;
      ResilienceProfiler.Brittle_Performer; ResilienceProfiler.Steady_Operator;
      ResilienceProfiler.Volatile_Performer; ResilienceProfiler.Steady_Operator;
      ResilienceProfiler.Steady_Operator; ResilienceProfiler.Brittle_Performer ]
  /\ exists out,
       ResilienceProfiler.profile_drivers Config.default Samples.cohort_without_king
       = Returns (Some out)
       /\ map ResilienceProfiler.Resilience_Profile out
          = [ Some ResilienceProfiler.Steady_Operator;
              Some ResilienceProfiler.Entropy_King;
              Some ResilienceProfiler.Brittle_Performer;
              Some ResilienceProfiler.Steady_Operator;
              Some ResilienceProfiler.Volatile_Performer;
              Some ResilienceProfiler.Steady_Operator;
              Some ResilienceProfiler.Steady_Operator;
              Some ResilienceProfiler.Brittle_Performer ].
Proof.
  split; [vm_compute; reflexivity|].
  eexists. split; [reflexivity | vm_compute; reflexivity].
Qed.

(** A cohort of three never reaches the rules: the k-means fit raises. *)
Example small_cohort_raises :
  ResilienceProfiler.profile_drivers Config.default Samples.cohort_of_three
  = Raises KMeansTooFewSamples.
Proof. reflexivity. Qed.

End SampleFacts.

(** ** Instances *)

Lemma traffic_threshold_calibration_witness :
  exists m c,
    np_percentile 50 (ExecutionEquity.valid_gaps Samples.sixty_gaps) = Fin m
    /\ median_of (ExecutionEquity.valid_gaps Samples.sixty_gaps) m
    /\ ExecutionEquity.estimate_traffic_threshold_dynamically Samples.sixty_gaps
       = Fin c
    /\ clamped m (8 # 10) 3 c.
Proof.
  apply (proj2 (proj2 (traffic_threshold_calibration Samples.sixty_gaps))).
  vm_compute. lia.
Defined.

Lemma entropy_king_guaranteed_witness :
  exists out,
    ResilienceProfiler.profile_drivers Config.default Samples.cohort_without_king
    = Returns (Some out)
    /\ exists r, In r out
                 /\ ResilienceProfiler.Resilience_Profile r
                    = Some ResilienceProfiler.Entropy_King.
Proof.
  eexists. split; [reflexivity|].
  refine (proj1 (proj1 (entropy_king_guaranteed Config.default
                          Samples.cohort_without_king _) _ _)).
  - discriminate.
  - reflexivity.
Defined.

Lemma sortino_from_downside_subset_witness :
  let sl := Ratio.stint_laps (Ratio.driver_laps Samples.ratio_session "1") (Fin 1) in
  Ratio.sortino_spec Ratio.sqrt6 (map Ratio.LapTimeDelta sl)
    (Ratio.sortino_ratio (Ratio.sharpe_stint Ratio.sqrt6 sl))
  /\ Ratio.sortino_spec Ratio.sqrt6 (map Ratio.LapTimeDelta sl)
       (Ratio.sortino_ratio (Ratio.sortino_stint Ratio.sqrt6 sl)).
Proof.
  refine (proj2 (proj2 (sortino_from_downside_subset Ratio.sqrt6
                          Samples.ratio_session "1" (Fin 1) _ _))).
  - vm_compute. left. reflexivity.
  - vm_compute. lia.
Defined.

Lemma thin_competitor_omitted_witness :
  Ratio.sharpe_row Ratio.sqrt6 Samples.ratio_session "2" = None
  /\ Ratio.sortino_row Ratio.sqrt6 Samples.ratio_session "2" = None
  /\ Ratio.calculate_driver_sharpe_ratio Ratio.sqrt6 Samples.ratio_session
     = Ratio.calculate_driver_sharpe_ratio Ratio.sqrt6
         (Ratio.session_without "2" Samples.ratio_session).
Proof.
  assert (H : forall sn,
            (List.length (Ratio.stint_laps
                            (Ratio.driver_laps Samples.ratio_session "2") sn) < 3)%nat).
  { intro sn. unfold Ratio.stint_laps.
    change (Ratio.driver_laps Samples.ratio_session "2")
      with (Ratio.dropna_delta
              [ Samples.ratio_lap "2" 1 89; Samples.ratio_lap "2" 1 91;
                Samples.ratio_lap "2" 2 90; Samples.ratio_lap "2" 2 90 ]).
    simpl.
    destruct sn as [|q]; simpl; [lia|].
    destruct (Qeq_bool 1 q) eqn:E1; destruct (Qeq_bool 2 q) eqn:E2; simpl; try lia.
    apply Qeq_bool_iff in E1, E2. rewrite <- E1 in E2. discriminate. }
  pose proof (thin_competitor_omitted Ratio.sqrt6 Samples.ratio_session "2" H)
    as (H1 & H2 & H3 & _).
  exact (conj H1 (conj H2 H3)).
Defined.

(* ================================================================== *)
(** * Further properties of the modelled code *)
(* ================================================================== *)

(** ** The equity table, row by row *)

Section EquityTable.
Import AllLaps ExecutionEquity.

Lemma zip3_nth_error {B C D : Type} (a : list B) :
  forall (b : list C) (c : list D) i,
  nth_error (zip3 a b c) i
  = match nth_error a i, nth_error b i, nth_error c i with
    | Some x, Some y, Some z => Some (x, y, z)
    | _, _, _ => None
    end.
Proof.
  induction a as [|x a IH]; intros [|y b] [|z c] [|i]; simpl; auto;
    destruct (nth_error a i); auto; destruct (nth_error b i); auto.
Qed.

Lemma shift1_nth_error {B : Type} (fill : B) (l : list B) (i : nat) :
  nth_error (shift1 fill l) i
  = if (i <? List.length l)%nat
    then match i with O => Some fill | S j => nth_error l j end
    else None.
Proof.
  unfold shift1. rewrite nth_error_firstn.
  destruct (i <? List.length l)%nat; auto. now destruct i.
Qed.

(** Row [i] of a driver's curve, field by field. *)
Lemma driver_equity_nth (cfg : Config.t) (s : Session) (d : string) (i : nat)
    (e : EquityDf.row) :
  nth_error (driver_equity cfg s d) i = Some e ->
  exists r,
    nth_error (d_laps s d) i = Some r
    /\ EquityDf.Driver e = Abbreviation s d
    /\ EquityDf.LapNumber e = LapNumber r
    /\ EquityDf.EquityChange e = EquityChange_of cfg s r
    /\ nth_error (cumsum (map (EquityChange_of cfg s) (d_laps s d))) i
       = Some (EquityDf.ExecutionEquity e)
    /\ EquityDf.IsSC e = IsSC r
    /\ EquityDf.InTraffic e
       = ltb (IntervalToAhead r) (estimate_traffic_threshold_dynamically (laps s))
    /\ EquityDf.FailureType_ e
       = failure_type cfg (IsPit r) (EquityDf.InTraffic e) (EquityDf.EquityChange e)
    /\ EquityDf.RestartLap e = was_sc_at (d_laps s d) i && negb (IsSC r).
Proof.
  unfold driver_equity. rewrite nth_error_map, zip3_nth_error.
  destruct (nth_error (d_laps s d) i) as [r|] eqn:Er; [|discriminate].
  destruct (nth_error (cumsum _) i) as [c|] eqn:Ec; [|discriminate].
  rewrite shift1_nth_error.
  assert (Hlt : (i < List.length (d_laps s d))%nat)
    by (apply nth_error_Some; congruence).
  rewrite length_map. apply Nat.ltb_lt in Hlt. rewrite Hlt.
  assert (Hw : match i with
               | O => Some false
               | S j => nth_error (map IsSC (d_laps s d)) j
               end = Some (was_sc_at (d_laps s d) i)).
  { destruct i as [|j]; simpl; auto. rewrite nth_error_map.
    destruct (nth_error (d_laps s d) j) eqn:Ej; auto.
    apply nth_error_None in Ej. apply Nat.ltb_lt in Hlt. lia. }
  rewrite Hw. simpl. intro H. injection H as <-. simpl.
  exists r. repeat split; reflexivity.
Qed.

Lemma driver_equity_length (cfg : Config.t) (s : Session) (d : string) :
  List.length (driver_equity cfg s d) = List.length (d_laps s d).
Proof.
  rewrite <- (length_map EquityDf.LapNumber).
  destruct (driver_equity_columns cfg s d) as (-> & _). apply length_map.
Qed.

Lemma driver_equity_In (cfg : Config.t) (s : Session) (d : string)
    (e : EquityDf.row) :
  In e (driver_equity cfg s d) ->
  exists r,
    In r (laps s) /\ DriverNumber r = d
    /\ EquityDf.Driver e = Abbreviation s d
    /\ EquityDf.LapNumber e = LapNumber r
    /\ EquityDf.EquityChange e = EquityChange_of cfg s r
    /\ EquityDf.IsSC e = IsSC r
    /\ EquityDf.FailureType_ e
       = failure_type cfg (IsPit r) (EquityDf.InTraffic e) (EquityDf.EquityChange e).
Proof.
  intro H. apply In_nth_error in H. destruct H as (i & Hi).
  destruct (driver_equity_nth _ _ _ _ _ Hi)
    as (r & Hr & H1 & H2 & H3 & _ & H5 & _ & H7 & _).
  exists r. apply nth_error_In in Hr. unfold d_laps in Hr.
  apply sort_by_In, filter_In in Hr. destruct Hr as [Hr Hd].
  apply String.eqb_eq in Hd. auto 10.
Qed.

Lemma equity_curves_concat (cfg : Config.t) (s : Session) :
  concat (equity_curves cfg s) = flat_map (driver_equity cfg s) (drivers s).
Proof.
  unfold equity_curves. induction (drivers s) as [|d t IH]; simpl; auto.
  destruct (List.length (d_laps s d)) eqn:E; simpl.
  - rewrite IH. pose proof (driver_equity_length cfg s d) as H. rewrite E in H.
    destruct (driver_equity cfg s d); [reflexivity | discriminate].
  - now rewrite IH.
Qed.

(** X1.  The equity table holds, driver by driver in the order of the
    session's driver list, one row per lap of that driver, in ascending lap
    order and under the driver's abbreviation; laps of a car that is not in
    the driver list are left out.  There is no table exactly when no listed
    driver has a lap. *)
Theorem equity_table_shape (cfg : Config.t) (s : Session) :
  (calculate_execution_equity cfg s = None <->
   forall d r, In d (drivers s) -> In r (laps s) -> DriverNumber r <> d)
  /\ (forall table, calculate_execution_equity cfg s = Some table ->
        table = flat_map (driver_equity cfg s) (drivers s))
  /\ forall d,
       let curve := driver_equity cfg s d in
       Permutation (map EquityDf.LapNumber curve)
                   (map LapNumber
                        (filter (fun r => String.eqb (DriverNumber r) d) (laps s)))
       /\ StronglySorted Z.le (map EquityDf.LapNumber curve)
       /\ Forall (fun e => EquityDf.Driver e = Abbreviation s d) curve.
Proof.
  split; [| split].
  - unfold calculate_execution_equity, equity_curves. split.
    + intros H d r Hd Hr Hdr.
      destruct (map _ _) eqn:E; [|discriminate].
      apply map_eq_nil in E.
      assert (Hin : In d (filter (fun d0 => negb (List.length (d_laps s d0) =? 0)%nat)
                                 (drivers s))).
      { apply filter_In. split; auto.
        destruct (d_laps s d) eqn:El; auto.
        assert (In r (d_laps s d)).
        { unfold d_laps. apply sort_by_In, filter_In. split; auto.
          now apply String.eqb_eq. }
        rewrite El in H0. contradiction. }
      rewrite E in Hin. contradiction.
    + intro H.
      assert (E : filter (fun d0 => negb (List.length (d_laps s d0) =? 0)%nat)
                         (drivers s) = []).
      { induction (drivers s) as [|d t IH]; simpl; auto.
        destruct (d_laps s d) as [|r l] eqn:El; simpl.
        - apply IH. intros d' r' Hd'. apply H. now right.
        - exfalso. assert (Hr : In r (d_laps s d)) by (rewrite El; now left).
          unfold d_laps in Hr. apply sort_by_In, filter_In in Hr.
          destruct Hr as [Hr Hd]. apply String.eqb_eq in Hd.
          apply (H d r); simpl; auto. }
      now rewrite E.
  - intros table H. unfold calculate_execution_equity in H.
    rewrite <- equity_curves_concat.
    destruct (equity_curves cfg s); [discriminate|]. now injection H as <-.
  - intros d curve. unfold curve.
    destruct (driver_equity_columns cfg s d) as (-> & _).
    split; [| split].
    + apply Permutation_map. unfold d_laps. apply sort_by_perm.
    + pose proof (d_laps_sorted s d) as Hs.
      induction Hs as [|r t _ IH Hr]; simpl; constructor; auto.
      apply Forall_map. exact Hr.
    + apply Forall_forall. intros e He.
      destruct (driver_equity_In _ _ _ _ He) as (r & _ & _ & H & _). exact H.
Qed.

End EquityTable.

(** ** Equity changes and their running total *)

Section EquityValues.
Import AllLaps ExecutionEquity.

Lemma quantile_sorted_present (p : Q) (a : list Q) :
  a <> [] -> present (quantile_sorted p a).
Proof.
  destruct a as [|x t]; [congruence|]. intros _. unfold quantile_sorted.
  now eexists.
Qed.

Lemma series_quantile_present (p : Q) (xs : list num) :
  (exists q, In (Fin q) xs) -> present (series_quantile p xs).
Proof.
  intros (q & Hq). unfold series_quantile. apply quantile_sorted_present.
  intro E. apply in_dropna in Hq.
  apply (Permutation_in q (Permutation_sym (sort_by_perm Qle_bool (dropna xs)))) in Hq.
  unfold Qsort in E. rewrite E in Hq. contradiction.
Qed.

(** The typical pit loss is a number as soon as every green-flag pit lap
    of the race has a delta. *)
Lemma avg_pit_loss_present (all_laps : list row) :
  (forall r, In r all_laps -> IsPit r = true -> IsSC r = false ->
             present (RawDelta r)) ->
  present (avg_pit_loss all_laps).
Proof.
  intro H. unfold avg_pit_loss.
  destruct (pit_laps all_laps) as [|r t] eqn:E; [now eexists|].
  assert (Hr : In r (pit_laps all_laps)) by (rewrite E; now left).
  unfold pit_laps in Hr. apply filter_In in Hr. destruct Hr as [Hr Hc].
  apply andb_true_iff in Hc. destruct Hc as [Hp Hs].
  apply negb_true_iff in Hs.
  destruct (H r Hr Hp Hs) as (q & Hq).
  apply series_quantile_present. exists q. rewrite <- Hq. simpl. now left.
Qed.

(** When an equity change is a number. *)
Lemma equity_change_present (cfg : Config.t) (apl : num) (r : row) :
  present (calculate_equity_change cfg apl r) <->
  IsSC r = true \/ IsPit r = false \/ (present (RawDelta r) /\ present apl).
Proof.
  unfold calculate_equity_change.
  destruct (IsSC r); [split; [auto | intros _; now eexists]|].
  destruct (IsPit r).
  - destruct (RawDelta r) as [|x], apl as [|a]; simpl; split;
      try (intros (q & Hq); discriminate);
      try (intros [H | [H | ((q & Hq) & (q' & Hq'))]]; discriminate).
    + intros _. right. right. split; now eexists.
    + intros _. now eexists.
  - split; [auto|]. intros _. destruct (RawDelta r); simpl; now eexists.
Qed.

Lemma cumsum_from_present (xs : list num) : forall acc,
  Forall present xs -> Forall present (cumsum_from acc xs).
Proof.
  induction xs as [|[|x] t IH]; intros acc HF; simpl; inversion HF; subst.
  - constructor.
  - destruct H1; discriminate.
  - constructor; [now eexists | auto].
Qed.

(** X2.  Every cell of a driver's cumulative equity is the running total
    of the equity changes that are numbers, up to and including the lap;
    the cell is missing exactly on the laps whose own change is missing. *)
Theorem cumulative_equity_running_total (cfg : Config.t) (s : Session)
    (d : string) (i : nat) (e : EquityDf.row) :
  nth_error (driver_equity cfg s d) i = Some e ->
  match EquityDf.EquityChange e with
  | NaN => EquityDf.ExecutionEquity e = NaN
  | Fin _ =>
      exists c,
        EquityDf.ExecutionEquity e = Fin c
        /\ c == Qsum (dropna (firstn (S i)
                       (map EquityDf.EquityChange (driver_equity cfg s d))))
  end.
Proof.
  intro H. destruct (driver_equity_nth _ _ _ _ _ H)
    as (r & Hr & _ & _ & Hch & Hcum & _).
  destruct (driver_equity_columns cfg s d) as (_ & _ & -> & _).
  pose proof (cumsum_from_nth (map (EquityChange_of cfg s) (d_laps s d)) 0 i) as Hn.
  rewrite nth_error_map, Hr in Hn. cbn [option_map] in Hn. rewrite <- Hch in Hn.
  unfold cumsum in Hcum.
  destruct (EquityDf.EquityChange e) as [|x].
  - congruence.
  - destruct Hn as (c & Hc & Hs). exists c. split; [congruence|].
    rewrite Hs. apply Qplus_0_l.
Qed.

(** X3.  If every green-flag pit lap of the race has a delta, then every
    equity change and every cumulative equity of every driver is a number,
    the first cumulative equity is the first change, each later one is the
    previous one plus the lap's change, and the last one is the sum of all
    the driver's changes. *)
Theorem equity_defined_when_pit_laps_have_delta (cfg : Config.t) (s : Session) :
  (forall r, In r (laps s) -> IsPit r = true -> IsSC r = false ->
             present (RawDelta r)) ->
  forall d,
    let change := map EquityDf.EquityChange (driver_equity cfg s d) in
    let equity := map EquityDf.ExecutionEquity (driver_equity cfg s d) in
    Forall present change
    /\ Forall present equity
    /\ num_eq (nth 0 equity NaN) (nth 0 change NaN)
    /\ (forall i, (S i < List.length change)%nat ->
          num_eq (nth (S i) equity NaN)
                 (add (nth i equity NaN) (nth (S i) change NaN)))
    /\ (change <> [] -> num_eq (last equity NaN) (np_sum change)).
Proof.
  intros H d change equity.
  assert (HF : Forall present change).
  { unfold change. destruct (driver_equity_columns cfg s d) as (_ & _ & -> & _).
    apply Forall_map, Forall_forall. intros r Hr.
    unfold d_laps in Hr. apply sort_by_In, filter_In in Hr. destruct Hr as [Hr _].
    apply equity_change_present.
    destruct (IsSC r) eqn:Es; auto. destruct (IsPit r) eqn:Ep; auto.
    right. right. split; [now apply H | now apply avg_pit_loss_present]. }
  split; [exact HF|]. split.
  - unfold equity, change in *.
    destruct (driver_equity_columns cfg s d) as (_ & _ & Ec & ->).
    rewrite Ec in HF. now apply cumsum_from_present.
  - unfold equity, change in *.
    destruct (driver_equity_columns cfg s d) as (_ & _ & Ec & ->).
    rewrite Ec in *. now apply cumsum_recurrence.
Qed.

Lemma ltb_zero_neg (t : Q) : 0 <= t -> ltb (Fin 0) (Fin (- t)) = false.
Proof. intro H. simpl. apply Qltb_ge. lra. Qed.

(** X4.  Failure attribution, for thresholds that are not negative.  A
    caution lap has an equity change of zero and no failure type; a lap
    whose equity change is missing has no failure type; and a lap with a
    failure type lost equity: more than the operational threshold on a pit
    lap for Operational, more than the major threshold off the pit lane for
    Major Incident, and more than the traffic threshold, in traffic and
    without reaching the threshold of the lap's own kind, for Traffic. *)
Theorem failure_attribution (cfg : Config.t) (s : Session) (d : string)
    (e : EquityDf.row) :
  0 <= Config.INCIDENT_THRESHOLD_OPERATIONAL cfg ->
  0 <= Config.INCIDENT_THRESHOLD_MAJOR cfg ->
  0 <= Config.INCIDENT_THRESHOLD_TRAFFIC cfg ->
  In e (driver_equity cfg s d) ->
  exists r,
    In r (laps s) /\ DriverNumber r = d
    /\ EquityDf.LapNumber e = LapNumber r
    /\ (EquityDf.IsSC e = true ->
        EquityDf.EquityChange e = Fin 0 /\ EquityDf.FailureType_ e = FT_None)
    /\ (EquityDf.EquityChange e = NaN -> EquityDf.FailureType_ e = FT_None)
    /\ (EquityDf.FailureType_ e = FT_Operational ->
        IsPit r = true
        /\ exists x, EquityDf.EquityChange e = Fin x
                     /\ x < - Config.INCIDENT_THRESHOLD_OPERATIONAL cfg)
    /\ (EquityDf.FailureType_ e = FT_MajorIncident ->
        IsPit r = false
        /\ exists x, EquityDf.EquityChange e = Fin x
                     /\ x < - Config.INCIDENT_THRESHOLD_MAJOR cfg)
    /\ (EquityDf.FailureType_ e = FT_Traffic ->
        EquityDf.InTraffic e = true
        /\ exists x, EquityDf.EquityChange e = Fin x
                     /\ x < - Config.INCIDENT_THRESHOLD_TRAFFIC cfg
                     /\ (if IsPit r
                         then - Config.INCIDENT_THRESHOLD_OPERATIONAL cfg <= x
                         else - Config.INCIDENT_THRESHOLD_MAJOR cfg <= x)).
Proof.
  intros Ho Hm Ht He.
  destruct (driver_equity_In _ _ _ _ He)
    as (r & Hr & Hd & _ & Hl & Hch & Hsc & Hft).
  exists r. split; [exact Hr|]. split; [exact Hd|]. split; [exact Hl|].
  rewrite Hft. unfold failure_type.
  split; [| split; [| split; [| split]]].
  - intro Hs. rewrite Hsc in Hs. rewrite Hch. unfold EquityChange_of.
    rewrite (caution_lap_frozen cfg _ r Hs). split; auto.
    rewrite !ltb_zero_neg by assumption.
    now rewrite !andb_false_r.
  - intros ->. simpl. now rewrite !andb_false_r.
  - destruct (IsPit r); simpl.
    + destruct (ltb (EquityDf.EquityChange e) _) eqn:E1.
      * intros _. split; auto. destruct (ltb_Fin _ _ E1) as (x & y & Hx & Hy & Hlt).
        injection Hy as <-. eauto.
      * destruct (EquityDf.InTraffic e && _); discriminate.
    + destruct (ltb (EquityDf.EquityChange e) _); [discriminate|].
      destruct (EquityDf.InTraffic e && _); discriminate.
  - destruct (IsPit r); simpl.
    + destruct (ltb (EquityDf.EquityChange e) _); [discriminate|].
      destruct (EquityDf.InTraffic e && _); discriminate.
    + destruct (ltb (EquityDf.EquityChange e) _) eqn:E1.
      * intros _. split; auto. destruct (ltb_Fin _ _ E1) as (x & y & Hx & Hy & Hlt).
        injection Hy as <-. eauto.
      * destruct (EquityDf.InTraffic e && _); discriminate.
  - assert (Hgen : forall thr,
              ltb (EquityDf.EquityChange e) (Fin (- thr)) = false ->
              EquityDf.InTraffic e
              && ltb (EquityDf.EquityChange e)
                     (Fin (- Config.INCIDENT_THRESHOLD_TRAFFIC cfg)) = true ->
              EquityDf.InTraffic e = true
              /\ exists x, EquityDf.EquityChange e = Fin x
                           /\ x < - Config.INCIDENT_THRESHOLD_TRAFFIC cfg
                           /\ - thr <= x).
    { intros thr Hn Hy. apply andb_true_iff in Hy. destruct Hy as [Hi Hy].
      split; auto. destruct (ltb_Fin _ _ Hy) as (x & y & Hx & Hy' & Hlt).
      injection Hy' as <-. exists x. repeat split; auto.
      rewrite Hx in Hn. simpl in Hn. now apply Qltb_ge in Hn. }
    destruct (IsPit r); simpl.
    + destruct (ltb (EquityDf.EquityChange e)
                    (Fin (- Config.INCIDENT_THRESHOLD_OPERATIONAL cfg))) eqn:E1;
        [discriminate|].
      destruct (EquityDf.InTraffic e && _) eqn:E2; [|discriminate].
      intros _. now apply Hgen.
    + destruct (ltb (EquityDf.EquityChange e)
                    (Fin (- Config.INCIDENT_THRESHOLD_MAJOR cfg))) eqn:E1;
        [discriminate|].
      destruct (EquityDf.InTraffic e && _) eqn:E2; [|discriminate].
      intros _. now apply Hgen.
Qed.

(** X5.  Restart flags along a driver's laps in lap order: the first lap is
    never a restart lap, a later lap is one exactly when the lap before it
    was a caution lap and it is not; hence a restart lap is never a caution
    lap, and no two consecutive laps are both restart laps. *)
Theorem restart_lap_follows_caution (cfg : Config.t) (s : Session) (d : string) :
  let curve := driver_equity cfg s d in
  (forall e, nth_error curve 0 = Some e -> EquityDf.RestartLap e = false)
  /\ (forall i p e,
        nth_error curve i = Some p -> nth_error curve (S i) = Some e ->
        EquityDf.RestartLap e = EquityDf.IsSC p && negb (EquityDf.IsSC e))
  /\ (forall e, In e curve -> EquityDf.RestartLap e = true ->
                EquityDf.IsSC e = false)
  /\ (forall i p e,
        nth_error curve i = Some p -> nth_error curve (S i) = Some e ->
        EquityDf.RestartLap p = true -> EquityDf.RestartLap e = false).
Proof.
  intro curve.
  assert (Hstep : forall i p e,
            nth_error curve i = Some p -> nth_error curve (S i) = Some e ->
            EquityDf.RestartLap e = EquityDf.IsSC p && negb (EquityDf.IsSC e)).
  { intros i p e Hp He.
    destruct (driver_equity_nth _ _ _ _ _ Hp) as (rp & Hrp & _ & _ & _ & _ & Hsp & _).
    destruct (driver_equity_nth _ _ _ _ _ He)
      as (re & Hre & _ & _ & _ & _ & Hse & _ & _ & Hrl).
    rewrite Hrl, Hsp, Hse. simpl. now rewrite Hrp. }
  assert (Hnot : forall e, In e curve -> EquityDf.RestartLap e = true ->
                           EquityDf.IsSC e = false).
  { intros e He Hr. apply In_nth_error in He. destruct He as (i & Hi).
    destruct (driver_equity_nth _ _ _ _ _ Hi)
      as (r & _ & _ & _ & _ & _ & Hs & _ & _ & Hrl).
    rewrite Hrl in Hr. apply andb_true_iff in Hr. destruct Hr as [_ Hr].
    rewrite Hs. now apply negb_true_iff. }
  repeat split; auto.
  - intros e He.
    destruct (driver_equity_nth _ _ _ _ _ He) as (r & _ & _ & _ & _ & _ & _ & _ & _ & Hrl).
    now rewrite Hrl.
  - intros i p e Hp He Hr. rewrite (Hstep i p e Hp He).
    rewrite (Hnot p (nth_error_In _ _ Hp) Hr). reflexivity.
Qed.

End EquityValues.

(** ** The episode scan: troughs and velocities *)

Section TroughFacts.
Import EquityDf DrawdownMetrics ScanSpec.

Lemma with_drawdown_from_None (rows : list EquityDf.row) :
  with_drawdown rows = with_drawdown_from None rows.
Proof. reflexivity. Qed.

Lemma with_drawdown_from_cons (m : option Q) (r : EquityDf.row)
    (t : list EquityDf.row) :
  with_drawdown_from m (r :: t)
  = match ExecutionEquity r with
    | NaN => {| base := r; Peak := NaN; Drawdown := NaN |}
             :: with_drawdown_from m t
    | Fin x =>
        let p := match m with None => x | Some y => Qmax y x end in
        {| base := r; Peak := Fin p; Drawdown := Fin (x - p) |}
        :: with_drawdown_from (Some p) t
    end.
Proof.
  unfold with_drawdown_from. simpl.
  destruct (ExecutionEquity r) as [|x] eqn:E; simpl; now rewrite E.
Qed.

Lemma trough_inv_seen (cfg : Config.t) (m : option Q) (seen seen' : list EquityDf.row)
    (st : scan) :
  (forall r, In r seen -> In r seen') ->
  trough_inv cfg m seen st -> trough_inv cfg m seen' st.
Proof.
  intros Hs (H1 & H2 & H3). split; [exact H1|]. split; [exact H2|].
  intro Hin. destruct (H3 Hin) as (t & p & r0 & ? & ? & ? & ? & ? & ?).
  exists t, p, r0. auto 10.
Qed.

(** One lap without an equity value leaves the scan as it is. *)
Lemma scan_step_missing (cfg : Config.t) (st : scan) (r : EquityDf.row) :
  scan_step cfg st {| base := r; Peak := NaN; Drawdown := NaN |} = st.
Proof.
  unfold scan_step. simpl. now rewrite andb_false_r.
Qed.

(** One lap with an equity value [x] under the running peak [p]. *)
Lemma scan_step_trough (cfg : Config.t) (m : option Q) (seen : list EquityDf.row)
    (st : scan) (r : EquityDf.row) (x : Q) :
  Config.DRAWDOWN_ENTRY_THRESHOLD cfg <= Config.RECOVERY_COMPLETE_THRESHOLD cfg ->
  (0 <= Config.MIN_RECOVERY_DURATION cfg)%Z ->
  ExecutionEquity r = Fin x ->
  trough_inv cfg m seen st ->
  let p := match m with None => x | Some y => Qmax y x end in
  let st' := scan_step cfg st {| base := r; Peak := Fin p; Drawdown := Fin (x - p) |} in
  trough_inv cfg (Some p) (seen ++ [r]) st'
  /\ (in_dd st' = true -> exists t, trough_equity st' = Fin t /\ t <= x).
Proof.
  intros Hth Hmin Hx (Hv & Hl & Hin) p st'.
  assert (Hp : match m with Some y => y <= p | None => True end).
  { unfold p. destruct m; auto. apply Qmax_ub_l. }
  assert (Hrin : In r (seen ++ [r])) by (apply in_or_app; right; now left).
  unfold st', scan_step. cbn [base Peak Drawdown]. rewrite Hx.
  destruct (ltb (Fin (x - p)) (Fin (Config.DRAWDOWN_ENTRY_THRESHOLD cfg))) eqn:E1.
  - simpl in E1. apply Qltb_lt in E1.
    destruct (in_dd st) eqn:Ed; cbn [negb].
    + destruct (Hin eq_refl) as (t & p0 & r0 & Ht & Hm & Hlt & Hr0 & Hlap & Heq).
      rewrite Ht. subst m. simpl.
      destruct (Qltb x t) eqn:E2.
      * apply Qltb_lt in E2. split.
        -- split; [exact Hv|]. split; [exact Hl|]. cbn. intros _.
           exists x, p, r. repeat split; auto. lra.
        -- cbn. intros _. exists x. split; auto. apply Qle_refl.
      * apply Qltb_ge in E2. split.
        -- split; [exact Hv|]. split; [exact Hl|]. rewrite Ed. intros _.
           exists t, p, r0. repeat split; auto. { lra. }
           apply in_or_app. now left.
        -- rewrite Ed, Ht. intros _. exists t. auto.
    + cbn.
      assert (E2 : Qltb x x = false) by (apply Qltb_ge; apply Qle_refl).
      rewrite E2. split.
      * split; [exact Hv|]. split; [exact Hl|]. cbn. intros _.
        exists x, p, r. repeat split; auto. lra.
      * cbn. intros _. exists x. split; auto. apply Qle_refl.
  - simpl in E1. apply Qltb_ge in E1.
    destruct (in_dd st) eqn:Ed; cbn [andb].
    + destruct (Hin eq_refl) as (t & p0 & r0 & Ht & Hm & Hlt & Hr0 & Hlap & Heq).
      subst m. simpl in Hp.
      destruct (geb (Fin (x - p)) (Fin (Config.RECOVERY_COMPLETE_THRESHOLD cfg))) eqn:E3.
      * destruct (Config.MIN_RECOVERY_DURATION cfg <? LapNumber r - trough_lap st)%Z
          eqn:E4.
        -- split; [| cbn; discriminate].
           split; [| split; [| cbn; discriminate]]; cbn.
           ++ apply Forall_app. split; auto. constructor; auto.
              rewrite Ht. apply Z.ltb_lt in E4. unfold positive.
              cbn [sub abs div].
              rewrite inject_Z_nonzero by lia.
              eexists. split; [reflexivity|].
              assert (0 < x - t) by lra.
              rewrite Qabs_pos by lra.
              apply Qlt_shift_div_l.
              ** change 0 with (inject_Z 0). rewrite <- Zlt_Qlt. lia.
              ** lra.
           ++ rewrite !length_app. simpl. lia.
        -- split; [| cbn; discriminate].
           split; [exact Hv|]. split; [exact Hl|]. cbn. discriminate.
      * split.
        -- split; [exact Hv|]. split; [exact Hl|]. rewrite Ed. intros _.
           exists t, p, r0. repeat split; auto. { lra. }
           apply in_or_app. now left.
        -- rewrite Ed, Ht. intros _. exists t. split; auto. lra.
    + split.
      * split; [exact Hv|]. split; [exact Hl|]. rewrite Ed. discriminate.
      * rewrite Ed. discriminate.
Qed.

(** The invariant along a whole scan, with what it says at every lap. *)
Lemma run_scan_trough (cfg : Config.t) (rows : list EquityDf.row) :
  Config.DRAWDOWN_ENTRY_THRESHOLD cfg <= Config.RECOVERY_COMPLETE_THRESHOLD cfg ->
  (0 <= Config.MIN_RECOVERY_DURATION cfg)%Z ->
  forall m seen st,
    trough_inv cfg m seen st ->
    trough_inv cfg (peak_after m rows) (seen ++ rows)
               (run_scan cfg st (with_drawdown_from m rows))
    /\ forall before r after,
         rows = before ++ r :: after ->
         let st' := run_scan cfg st (with_drawdown_from m (before ++ [r])) in
         trough_inv cfg (peak_after m (before ++ [r])) (seen ++ before ++ [r]) st'
         /\ (in_dd st' = true ->
             forall x, ExecutionEquity r = Fin x ->
             exists t, trough_equity st' = Fin t /\ t <= x).
Proof.
  intros Hth Hmin. induction rows as [|r t IH]; intros m seen st Hinv.
  - split.
    + simpl. now rewrite app_nil_r.
    + intros [|b before] r after H; discriminate.
  - assert (Hstep :
      let st1 := scan_step cfg st (hd {| base := r; Peak := NaN; Drawdown := NaN |}
                                      (with_drawdown_from m [r])) in
      trough_inv cfg (peak_after m [r]) (seen ++ [r]) st1
      /\ (in_dd st1 = true -> forall x, ExecutionEquity r = Fin x ->
          exists t0, trough_equity st1 = Fin t0 /\ t0 <= x)).
    { rewrite with_drawdown_from_cons. simpl.
      destruct (ExecutionEquity r) as [|x] eqn:Ex; simpl.
      - rewrite scan_step_missing. split.
        + eapply trough_inv_seen; [| exact Hinv]. intros. apply in_or_app. now left.
        + intros _ x Hx. discriminate.
      - destruct (scan_step_trough cfg m seen st r x Hth Hmin Ex Hinv) as [H1 H2].
        split; [exact H1|]. intros Hd x' Hx'. injection Hx' as <-. now apply H2. }
    assert (Hrun : forall l,
      run_scan cfg st (with_drawdown_from m (r :: l))
      = run_scan cfg
          (scan_step cfg st (hd {| base := r; Peak := NaN; Drawdown := NaN |}
                                (with_drawdown_from m [r])))
          (with_drawdown_from (peak_after m [r]) l)).
    { intro l. rewrite !with_drawdown_from_cons. simpl.
      destruct (ExecutionEquity r); reflexivity. }
    assert (Hpeak : forall l, peak_after m (r :: l) = peak_after (peak_after m [r]) l).
    { intro l. simpl. destruct (ExecutionEquity r); reflexivity. }
    destruct Hstep as [Hs1 Hs2].
    destruct (IH _ _ _ Hs1) as [IH1 IH2].
    split.
    + rewrite Hrun, Hpeak. rewrite <- app_assoc in IH1. exact IH1.
    + intros [|b before] r' after H; injection H as <- ->; cbn zeta.
      * change ([] ++ [r]) with [r]. rewrite Hrun.
        change (run_scan cfg
                  (scan_step cfg st
                     (hd {| base := r; Peak := NaN; Drawdown := NaN |}
                         (with_drawdown_from m [r])))
                  (with_drawdown_from (peak_after m [r]) []))
          with (scan_step cfg st
                  (hd {| base := r; Peak := NaN; Drawdown := NaN |}
                      (with_drawdown_from m [r]))).
        split; [exact Hs1 | exact Hs2].
      * change ((r :: before) ++ [r']) with (r :: (before ++ [r'])).
        rewrite Hrun, Hpeak.
        destruct (IH2 before r' after eq_refl) as [K1 K2].
        rewrite <- app_assoc in K1. split; [exact K1 | exact K2].
Qed.

Lemma trough_inv_init (cfg : Config.t) : trough_inv cfg None [] scan_init.
Proof. repeat split; simpl; auto. discriminate. Qed.

Lemma np_sum_positive (vs : list num) :
  Forall positive vs -> exists q, np_sum vs = Fin q /\ 0 <= q
                                  /\ (vs <> [] -> 0 < q).
Proof.
  induction 1 as [|v t (x & -> & Hx) _ (q & IH & Hq & _)].
  - exists 0. repeat split; [lra | congruence].
  - change (np_sum (Fin x :: t)) with (add (Fin x) (np_sum t)). rewrite IH.
    simpl. exists (x + q). repeat split; lra.
Qed.

Lemma np_mean_positive (vs : list num) :
  vs <> [] -> Forall positive vs -> positive (np_mean vs).
Proof.
  intros Hne HF. destruct (np_sum_positive vs HF) as (q & Hq & _ & Hpos).
  destruct vs as [|v t]; [congruence|].
  unfold np_mean. rewrite Hq. unfold div.
  assert (Hn : (0 < Z.of_nat (List.length (v :: t)))%Z) by (simpl; lia).
  rewrite inject_Z_nonzero by exact Hn.
  eexists. split; [reflexivity|].
  apply Qlt_shift_div_l.
  - change 0 with (inject_Z 0). now rewrite <- Zlt_Qlt.
  - specialize (Hpos ltac:(discriminate)). lra.
Qed.

(** X6.  With the entry threshold not above the exit threshold and a
    minimum duration that is not negative, every recovery velocity that the
    scan of a competitor records is a strictly positive number, one failure
    type is recorded with each, and the competitor's Reset Velocity is zero
    when no episode was finalized and a strictly positive number
    otherwise. *)
Theorem recovery_velocities_positive (cfg : Config.t)
    (equity_df : list EquityDf.row) (s : summary) :
  Config.DRAWDOWN_ENTRY_THRESHOLD cfg <= Config.RECOVERY_COMPLETE_THRESHOLD cfg ->
  (0 <= Config.MIN_RECOVERY_DURATION cfg)%Z ->
  In s (calculate_drawdown_metrics cfg equity_df) ->
  let st := episodes cfg (d_df equity_df (s_Driver s)) in
  Forall positive (recovery_velocities st)
  /\ List.length (recovery_types st) = List.length (recovery_velocities st)
  /\ match recovery_velocities st with
     | [] => Reset_Velocity s = Fin 0
     | _ => positive (Reset_Velocity s)
     end.
Proof.
  intros Hth Hmin Hs st.
  assert (Hinv : Forall positive (recovery_velocities st)
                 /\ List.length (recovery_velocities st)
                    = List.length (recovery_types st)).
  { unfold st, episodes, d_df. rewrite with_drawdown_from_None.
    destruct (run_scan_trough cfg
                (sort_by DrawdownMetrics.lap_le
                   (filter (fun r => String.eqb (Driver r) (s_Driver s)) equity_df))
                Hth Hmin None [] scan_init (trough_inv_init cfg))
      as [(H1 & H2 & _) _]. auto. }
  destruct Hinv as [H1 H2]. split; [exact H1|]. split; [now symmetry|].
  rewrite (in_calculate_drawdown_metrics _ _ _ Hs).
  unfold driver_metrics. cbn [Reset_Velocity s_Driver]. fold st.
  destruct (recovery_velocities st) as [|v t] eqn:E; auto.
  apply np_mean_positive; [easy | exact H1].
Qed.

Lemma trough_lowest_rows (cfg : Config.t) (before : list EquityDf.row)
    (r : EquityDf.row) :
  Config.DRAWDOWN_ENTRY_THRESHOLD cfg <= Config.RECOVERY_COMPLETE_THRESHOLD cfg ->
  (0 <= Config.MIN_RECOVERY_DURATION cfg)%Z ->
  let st := episodes cfg (with_drawdown (before ++ [r])) in
  in_dd st = true ->
  exists t r0,
    trough_equity st = Fin t
    /\ In r0 (before ++ [r])
    /\ LapNumber r0 = trough_lap st
    /\ ExecutionEquity r0 = Fin t
    /\ forall x, ExecutionEquity r = Fin x -> t <= x.
Proof.
  intros Hth Hmin st Hin.
  destruct (run_scan_trough cfg (before ++ [r]) Hth Hmin None []
              scan_init (trough_inv_init cfg)) as [_ H].
  destruct (H before r [] eq_refl) as [(_ & _ & H3) H4].
  fold (episodes cfg (with_drawdown_from None (before ++ [r]))) in H3, H4.
  rewrite <- with_drawdown_from_None in H3, H4. fold st in H3, H4.
  destruct (H3 Hin) as (t & p & r0 & Ht & _ & _ & Hr0 & Hlap & Heq).
  exists t, r0. repeat split; auto.
  intros x Hx. destruct (H4 Hin x Hx) as (t' & Ht' & Hle).
  congruence.
Qed.

Lemma with_drawdown_from_app (a : list EquityDf.row) : forall m b,
  with_drawdown_from m (a ++ b)
  = with_drawdown_from m a ++ with_drawdown_from (peak_after m a) b.
Proof.
  induction a as [|r t IH]; intros m b; [reflexivity|].
  change ((r :: t) ++ b) with (r :: (t ++ b)).
  rewrite !with_drawdown_from_cons. simpl peak_after.
  destruct (ExecutionEquity r); cbn zeta; rewrite IH; reflexivity.
Qed.

Lemma with_drawdown_from_base (rows : list EquityDf.row) : forall m,
  map base (with_drawdown_from m rows) = rows.
Proof.
  induction rows as [|r t IH]; intro m; [reflexivity|].
  rewrite with_drawdown_from_cons.
  destruct (ExecutionEquity r); cbn zeta; simpl; now rewrite IH.
Qed.

Lemma app_same_length {B : Type} (a a' b b' : list B) :
  List.length a = List.length a' -> a ++ b = a' ++ b' -> a = a'.
Proof.
  revert a'. induction a as [|x a IH]; intros [|y a'] Hl H; simpl in *;
    try discriminate; auto.
  injection H as -> H. f_equal. apply IH; auto.
Qed.

(** A prefix of [d_df] is the [d_df] of the rows it was built from. *)
Lemma with_drawdown_prefix (rows : list EquityDf.row) (pre post : list d_row) :
  with_drawdown rows = pre ++ post -> pre = with_drawdown (map base pre).
Proof.
  intro H. rewrite with_drawdown_from_None in *.
  assert (Hrows : rows = map base pre ++ map base post).
  { rewrite <- map_app, <- H. symmetry. apply with_drawdown_from_base. }
  rewrite Hrows, with_drawdown_from_app in H.
  symmetry. eapply app_same_length; [| exact H].
  rewrite <- (length_map base (with_drawdown_from None (map base pre))).
  now rewrite with_drawdown_from_base, length_map.
Qed.

(** X7.  After any lap of a competitor's scan on which the detector is in
    drawdown, the recorded trough is the cumulative equity of a lap read so
    far, namely one with the recorded trough lap number, and it is not
    above the cumulative equity of the current lap. *)
Theorem trough_is_lowest_equity (cfg : Config.t) (equity_df : list EquityDf.row)
    (driver : string) (before : list d_row) (r : d_row) (after : list d_row) :
  Config.DRAWDOWN_ENTRY_THRESHOLD cfg <= Config.RECOVERY_COMPLETE_THRESHOLD cfg ->
  (0 <= Config.MIN_RECOVERY_DURATION cfg)%Z ->
  d_df equity_df driver = before ++ r :: after ->
  let st := episodes cfg (before ++ [r]) in
  in_dd st = true ->
  exists t r0,
    trough_equity st = Fin t
    /\ In r0 (before ++ [r])
    /\ LapNumber (base r0) = trough_lap st
    /\ ExecutionEquity (base r0) = Fin t
    /\ forall x, ExecutionEquity (base r) = Fin x -> t <= x.
Proof.
  intros Hth Hmin Hd st Hin. unfold d_df in Hd.
  change (before ++ r :: after) with (before ++ [r] ++ after) in Hd.
  rewrite app_assoc in Hd. apply with_drawdown_prefix in Hd.
  rewrite map_app in Hd. simpl map in Hd.
  unfold st in *. rewrite Hd in Hin |- *.
  destruct (trough_lowest_rows cfg (map base before) (base r) Hth Hmin Hin)
    as (t & r0 & Ht & Hr0 & Hlap & Heq & Hle).
  rewrite <- Hd in *.
  assert (Hex : exists dr, In dr (before ++ [r]) /\ base dr = r0).
  { replace (map base before ++ [base r]) with (map base (before ++ [r])) in Hr0
      by (rewrite map_app; reflexivity).
    apply in_map_iff in Hr0. destruct Hr0 as (dr & Hb & Hdr). eauto. }
  destruct Hex as (dr & Hdr & <-).
  exists t, dr. auto.
Qed.

End TroughFacts.

(** ** The drawdown summary, competitor by competitor *)

Section SummaryFacts.
Import EquityDf DrawdownMetrics.

Lemma unique_acc_In {B : Type} (eqb : B -> B -> bool)
    (eqb_eq : forall a b, eqb a b = true <-> a = b) (l : list B) :
  forall seen x, In x (unique_acc eqb seen l) <-> In x l /\ ~ In x seen.
Proof.
  induction l as [|a t IH]; intros seen x; simpl; [tauto|].
  destruct (existsb (eqb a) seen) eqn:E.
  - apply existsb_exists in E. destruct E as (y & Hy & Hay).
    apply eqb_eq in Hay. subst y. rewrite IH. split.
    + tauto.
    + intros [[<- | H] Hn]; tauto.
  - assert (Hn : ~ In a seen).
    { intro H. assert (existsb (eqb a) seen = true).
      { apply existsb_exists. exists a. split; auto. now apply eqb_eq. }
      congruence. }
    simpl. rewrite IH. simpl. split.
    + intros [<- | (H1 & H2)]; tauto.
    + intros [[<- | H] Hs]; auto.
      destruct (eqb a x) eqn:Eax.
      * apply eqb_eq in Eax. auto.
      * right. split; auto. intros [<- | H']; auto.
        assert (eqb a a = true) by now apply eqb_eq. congruence.
Qed.

Lemma unique_acc_NoDup {B : Type} (eqb : B -> B -> bool)
    (eqb_eq : forall a b, eqb a b = true <-> a = b) (l : list B) :
  forall seen, NoDup (unique_acc eqb seen l).
Proof.
  induction l as [|a t IH]; intro seen; simpl; [constructor|].
  destruct (existsb (eqb a) seen); auto.
  constructor; auto. rewrite (unique_acc_In eqb eqb_eq). simpl. tauto.
Qed.

Lemma unique_In (l : list string) (x : string) :
  In x (unique String.eqb l) <-> In x l.
Proof.
  unfold unique. rewrite (unique_acc_In String.eqb String.eqb_eq). simpl. tauto.
Qed.

Lemma filter_twice {B : Type} (p : B -> bool) (l : list B) :
  filter p (filter p l) = filter p l.
Proof.
  induction l as [|a t IH]; simpl; auto.
  destruct (p a) eqn:E; simpl; [rewrite E|]; now rewrite ?IH.
Qed.

Lemma unique_constant (d : string) (l : list string) :
  l <> [] -> Forall (fun x => x = d) l -> unique String.eqb l = [d].
Proof.
  intros Hne HF. destruct l as [|a t]; [congruence|].
  inversion HF; subst. unfold unique. simpl. f_equal.
  clear Hne HF. induction t as [|b t IH]; simpl; auto.
  inversion H2; subst. rewrite String.eqb_refl. simpl. auto.
Qed.

(** X8.  A competitor whose drawdown never falls below the entry threshold
    has no episode: Reset Velocity is zero, the three per-category
    resilience values are missing, Lockup/Error Resilience is 1.0, and the
    max drawdown lies between the entry threshold and zero. *)
Theorem quiet_competitor_summary (cfg : Config.t) (equity_df : list EquityDf.row)
    (s : summary) :
  In s (calculate_drawdown_metrics cfg equity_df) ->
  Forall (fun r => ltb (Drawdown r)
                       (Fin (Config.DRAWDOWN_ENTRY_THRESHOLD cfg)) = false)
         (d_df equity_df (s_Driver s)) ->
  Reset_Velocity s = Fin 0
  /\ Major_Incident_Resilience s = NaN
  /\ Traffic_Resilience s = NaN
  /\ Operational_Resilience s = NaN
  /\ Lockup_Error_Resilience s = Fin 1
  /\ forall m, Max_Drawdown s = Fin m ->
       Config.DRAWDOWN_ENTRY_THRESHOLD cfg <= m /\ m <= 0.
Proof.
  intros Hs Hq.
  assert (Hmd : forall m, Max_Drawdown s = Fin m ->
                  Config.DRAWDOWN_ENTRY_THRESHOLD cfg <= m /\ m <= 0).
  { intros m Hm. rewrite (in_calculate_drawdown_metrics _ _ _ Hs) in Hm.
    unfold driver_metrics in Hm. cbn [Max_Drawdown] in Hm.
    pose proof (mdd_least (sort_by DrawdownMetrics.lap_le
                  (filter (fun r => String.eqb (Driver r) (s_Driver s)) equity_df)))
      as Hl. cbv zeta in Hl. fold (d_df equity_df (s_Driver s)) in Hl.
    rewrite Hm in Hl. destruct Hl as (Hle & (r & Hr & Hd) & _).
    split; [| exact Hle].
    rewrite Forall_forall in Hq. specialize (Hq r Hr). rewrite Hd in Hq.
    simpl in Hq. now apply Qltb_ge in Hq. }
  rewrite (in_calculate_drawdown_metrics _ _ _ Hs) at 1 2 3 4 5.
  unfold driver_metrics. rewrite (quiet_race_no_episode cfg _ Hq).
  cbn. auto 10.
Qed.

(** X9.  The two derived resilience columns of the summary: Spin/Off-Track
    Resilience is always 1.0, and Lockup/Error Resilience is always a
    number, equal to Major Incident Resilience when the competitor has a
    finalized major-incident episode and to 1.0 when it has none (the
    minimum duration not being negative). *)
Theorem lockup_resilience_defaults_to_one (cfg : Config.t)
    (equity_df : list EquityDf.row) (s : summary) :
  (0 <= Config.MIN_RECOVERY_DURATION cfg)%Z ->
  In s (calculate_drawdown_metrics cfg equity_df) ->
  let st := episodes cfg (d_df equity_df (s_Driver s)) in
  Spin_Off_Track_Resilience s = Fin 1
  /\ Driver_Error_Resilience s = Major_Incident_Resilience s
  /\ present (Lockup_Error_Resilience s)
  /\ match relevant_rates st FT_MajorIncident with
     | [] => Major_Incident_Resilience s = NaN
             /\ Lockup_Error_Resilience s = Fin 1
     | _ => Lockup_Error_Resilience s = Major_Incident_Resilience s
     end.
Proof.
  intros Hmin Hs st.
  pose proof (episodes_inv cfg equity_df (s_Driver s) Hmin) as Hinv. fold st in Hinv.
  pose proof (type_recovery_first_spec st FT_MajorIncident Hinv) as Hm.
  rewrite (in_calculate_drawdown_metrics _ _ _ Hs).
  unfold driver_metrics.
  cbn [Spin_Off_Track_Resilience Driver_Error_Resilience
       Major_Incident_Resilience Lockup_Error_Resilience s_Driver].
  fold st. unfold category_mean in Hm.
  destruct (relevant_rates st FT_MajorIncident) as [|v t].
  - rewrite Hm. simpl. repeat split; auto. now eexists.
  - destruct Hm as [_ (q & Hq)]. rewrite Hq. simpl. repeat split; auto.
    now eexists.
Qed.

(** X10.  The summary has exactly one row per competitor name of the
    equity table, and a competitor's row depends on that competitor's rows
    only: the summary of the table cut down to those rows is that one
    row. *)
Theorem one_summary_per_competitor (cfg : Config.t)
    (equity_df : list EquityDf.row) :
  let out := calculate_drawdown_metrics cfg equity_df in
  NoDup (map s_Driver out)
  /\ (forall d, In d (map s_Driver out) <-> In d (map Driver equity_df))
  /\ forall s, In s out ->
       calculate_drawdown_metrics cfg
         (filter (fun r => String.eqb (Driver r) (s_Driver s)) equity_df)
       = [s].
Proof.
  intro out.
  assert (Hd : map s_Driver out = unique String.eqb (map Driver equity_df)).
  { unfold out, calculate_drawdown_metrics. rewrite map_map. simpl. apply map_id. }
  split; [| split].
  - rewrite Hd. apply unique_acc_NoDup. exact String.eqb_eq.
  - intro d. rewrite Hd. apply unique_In.
  - intros s Hs.
    assert (Hin : In (s_Driver s) (map Driver equity_df)).
    { apply unique_In. rewrite <- Hd. now apply in_map. }
    transitivity [driver_metrics cfg (s_Driver s) (d_df equity_df (s_Driver s))];
      [| f_equal; symmetry; now apply in_calculate_drawdown_metrics].
    unfold calculate_drawdown_metrics.
    set (d := s_Driver s) in *.
    set (own := filter (fun r => String.eqb (Driver r) d) equity_df).
    assert (Hu : unique String.eqb (map Driver own) = [d]).
    { apply unique_constant.
      - apply in_map_iff in Hin. destruct Hin as (r & Hr & HrIn).
        intro E. apply map_eq_nil in E.
        assert (In r own) by (apply filter_In; split; auto; now apply String.eqb_eq).
        rewrite E in H. contradiction.
      - apply Forall_map, Forall_forall. intros r Hr.
        apply filter_In in Hr. destruct Hr as [_ Hr]. now apply String.eqb_eq. }
    rewrite Hu. simpl. f_equal. f_equal.
    unfold d_df, own. now rewrite filter_twice.
Qed.

End SummaryFacts.

(** ** Archetypes: what the classification keeps and guarantees *)

Section ArchetypeFacts.
Import ResilienceProfiler.

Lemma set_profile_at_map {B : Type} (f : row -> B) (p : Profile) :
  (forall r, f (set_profile p r) = f r) ->
  forall df i, map f (set_profile_at i p df) = map f df.
Proof.
  intros Hf df. induction df as [|r t IH]; intros [|i]; simpl; auto.
  - now rewrite Hf.
  - now rewrite IH.
Qed.

Lemma set_profile_at_labelled (p : Profile) (df : list row) : forall i,
  Forall (fun r => Resilience_Profile r <> None) df ->
  Forall (fun r => Resilience_Profile r <> None) (set_profile_at i p df).
Proof.
  induction df as [|r t IH]; intros [|i] HF; simpl; auto;
    inversion HF; subst; constructor; auto. discriminate.
Qed.

(** X11.  A completed classification returns the table it was given, row
    for row, with a label on every row: names and metrics are untouched. *)
Theorem classification_only_adds_labels (cfg : Config.t) (df out : list row) :
  profile_drivers cfg df = Returns (Some out) ->
  map Driver out = map Driver df
  /\ map Max_Drawdown out = map Max_Drawdown df
  /\ map Reset_Velocity out = map Reset_Velocity df
  /\ map Restart_Delta out = map Restart_Delta df
  /\ Forall (fun r => Resilience_Profile r <> None) out.
Proof.
  intro H. apply profile_drivers_returns in H. destruct H as [_ H].
  set (labelled := map (fun r => set_profile (assign_archetype cfg df r) r) df) in *.
  assert (Hl : map Driver labelled = map Driver df
               /\ map Max_Drawdown labelled = map Max_Drawdown df
               /\ map Reset_Velocity labelled = map Reset_Velocity df
               /\ map Restart_Delta labelled = map Restart_Delta df
               /\ Forall (fun r => Resilience_Profile r <> None) labelled).
  { unfold labelled. rewrite !map_map. simpl.
    repeat split; try apply map_ext; auto.
    apply Forall_map, Forall_forall. intros r _. discriminate. }
  destruct Hl as (H1 & H2 & H3 & H4 & H5).
  destruct (has_king labelled).
  - injection H as <-. auto.
  - destruct (idxmax (map Restart_Delta labelled)) as [best|]; [|discriminate].
    injection H as <-.
    rewrite !set_profile_at_map by reflexivity.
    repeat split; auto. now apply set_profile_at_labelled.
Qed.

Lemma Qsort_In (l : list Q) (x : Q) : In x (Qsort l) <-> In x l.
Proof. unfold Qsort. apply sort_by_In. Qed.

(** An interpolated quantile, for a fraction that is not negative, lies
    below any bound of the values. *)
Lemma quantile_sorted_upper (p : Q) (a : list Q) (b q : Q) :
  0 <= p -> (forall x, In x a -> x <= b) ->
  quantile_sorted p a = Fin q -> q <= b.
Proof.
  intros Hp Hb. destruct a as [|x0 t]; [discriminate|].
  unfold quantile_sorted.
  set (a := x0 :: t) in *.
  set (pos := p * inject_Z (Z.of_nat (List.length a - 1))).
  assert (Hpos : 0 <= pos).
  { unfold pos. apply Qmult_le_0_compat; auto.
    change 0 with (inject_Z 0). rewrite <- Zle_Qle. lia. }
  assert (Hfl : (0 <= Qfloor pos)%Z).
  { change 0%Z with (Qfloor 0). now apply Qfloor_resp_le. }
  unfold Qfloor_nat. rewrite Z2Nat.id by exact Hfl.
  pose proof (Qfloor_le pos) as Hlo. pose proof (Qlt_floor pos) as Hhi.
  rewrite inject_Z_plus in Hhi. change (inject_Z 1) with 1 in Hhi.
  set (lo := Z.to_nat (Qfloor pos)).
  set (vlo := nth lo a x0). set (vhi := nth (S lo) a vlo).
  set (frac := pos - inject_Z (Qfloor pos)).
  assert (Hvlo : vlo <= b).
  { unfold vlo. destruct (nth_in_or_default lo a x0) as [H | ->]; apply Hb; auto.
    unfold a. now left. }
  assert (Hvhi : vhi <= b).
  { unfold vhi. destruct (nth_in_or_default (S lo) a vlo) as [H | ->]; auto. }
  assert (Hf0 : 0 <= frac) by (unfold frac; lra).
  assert (Hf1 : frac <= 1) by (unfold frac; lra).
  clearbody vlo vhi frac. intro H. injection H as <-.
  assert (E : vlo + frac * (vhi - vlo) == (1 - frac) * vlo + frac * vhi) by ring.
  rewrite E.
  assert (H1 : (1 - frac) * vlo <= (1 - frac) * b).
  { rewrite (Qmult_comm _ vlo), (Qmult_comm _ b). apply Qmult_le_compat_r; lra. }
  assert (H2 : frac * vhi <= frac * b).
  { rewrite (Qmult_comm _ vhi), (Qmult_comm _ b). apply Qmult_le_compat_r; lra. }
  lra.
Qed.

Lemma series_median_upper (xs : list num) (b : Q) :
  (exists q, In (Fin q) xs) ->
  (forall x, In (Fin x) xs -> x <= b) ->
  exists med, series_median xs = Fin med /\ med <= b.
Proof.
  intros Hex Hb. destruct (series_quantile_present (1 # 2) xs Hex) as (med & Hm).
  exists med. split; [exact Hm|].
  unfold series_median. unfold series_quantile in Hm.
  eapply quantile_sorted_upper; [| | exact Hm]; [lra|].
  intros x Hx. apply Qsort_In, in_dropna in Hx. auto.
Qed.

(** X12.  With a buffer that is not negative, the competitor of the cohort
    whose max drawdown is the shallowest is never left in one of the lower
    categories: in a completed classification that competitor is an
    Entropy King or a Steady Operator. *)
Theorem shallowest_is_king_or_steady (cfg : Config.t) (df out : list row)
    (i : nat) (r : row) (x : Q) :
  0 <= Config.MDD_BUFFER_SECONDS cfg ->
  profile_drivers cfg df = Returns (Some out) ->
  nth_error df i = Some r ->
  Max_Drawdown r = Fin x ->
  (forall r' y, In r' df -> Max_Drawdown r' = Fin y -> y <= x) ->
  exists r',
    nth_error out i = Some r'
    /\ Driver r' = Driver r
    /\ (Resilience_Profile r' = Some Entropy_King
        \/ Resilience_Profile r' = Some Steady_Operator).
Proof.
  intros Hbuf Hout Hi Hx Hmax.
  apply profile_drivers_returns in Hout. destruct Hout as [_ Hout].
  set (labelled := map (fun r => set_profile (assign_archetype cfg df r) r) df) in *.
  assert (Hlab : nth_error labelled i
                 = Some (set_profile (assign_archetype cfg df r) r)).
  { unfold labelled. now rewrite nth_error_map, Hi. }
  assert (Hrule : assign_archetype cfg df r = Entropy_King
                  \/ assign_archetype cfg df r = Steady_Operator).
  { unfold assign_archetype.
    destruct (series_median_upper (map Max_Drawdown df) x) as (med & Hmed & Hle).
    - exists x. rewrite <- Hx. apply in_map. eapply nth_error_In; eauto.
    - intros y Hy. apply in_map_iff in Hy. destruct Hy as (r' & Hr' & Hin). eauto.
    - rewrite Hmed, Hx.
      destruct (geb (Fin x) _ && geb (Reset_Velocity r) _
                && geb (Restart_Delta r) (Fin 0)); auto.
      right. unfold geb. simpl.
      assert (E : Qle_bool (med - Config.MDD_BUFFER_SECONDS cfg) x = true)
        by (apply Qle_bool_iff; lra).
      now rewrite E. }
  destruct (has_king labelled).
  - injection Hout as <-. eexists. split; [exact Hlab|]. split; [reflexivity|].
    simpl. destruct Hrule as [-> | ->]; auto.
  - destruct (idxmax (map Restart_Delta labelled)) as [best|]; [|discriminate].
    injection Hout as <-. rewrite set_profile_at_nth, Hlab.
    destruct (Nat.eqb best i); simpl.
    + eexists. split; [reflexivity|]. split; [reflexivity|]. simpl. auto.
    + eexists. split; [reflexivity|]. split; [reflexivity|].
      simpl. destruct Hrule as [-> | ->]; auto.
Qed.

End ArchetypeFacts.

(** ** Ratio engine: signs, weighted means and the order of the table *)

Section SortOn.
Context {A : Type} (le : A -> A -> bool) (P : A -> Prop).
Hypothesis le_total : forall a b, P a -> P b -> le a b = false -> le b a = true.
Hypothesis le_trans :
  forall a b c, P a -> P b -> P c ->
                le a b = true -> le b c = true -> le a c = true.

Lemma insert_sorted_sorted_on (x : A) (l : list A) :
  P x -> Forall P l ->
  StronglySorted (fun a b => le a b = true) l ->
  StronglySorted (fun a b => le a b = true) (insert_sorted le x l).
Proof.
  intros Hx HP Hs. induction Hs as [|y t Hs IH Hy]; simpl.
  - repeat constructor.
  - inversion HP as [|? ? Py Pt]; subst.
    destruct (le x y) eqn:E.
    + constructor; [now constructor|].
      constructor; auto.
      rewrite Forall_forall in *. intros z Hz.
      apply (le_trans x y z); auto.
    + constructor; auto.
      eapply Permutation_Forall; [symmetry; apply insert_sorted_perm|].
      constructor; auto.
Qed.

Lemma sort_by_sorted_on (l : list A) :
  Forall P l -> StronglySorted (fun a b => le a b = true) (sort_by le l).
Proof.
  induction 1 as [|x t Hx Ht IH]; simpl; [constructor|].
  apply insert_sorted_sorted_on; auto.
  eapply Permutation_Forall; [symmetry; apply sort_by_perm | exact Ht].
Qed.

End SortOn.

Section RatioMore.
Import Ratio.
Variable sqrt : Q -> Q.

(** The guarded ratio of a mean that is a number: a number whose sign is
    opposite to that of the mean, and that is non-zero only above the
    guard. *)
Lemma ratio_or_zero_sign (mean : Q) (dev : num) :
  exists q,
    ratio_or_zero (Fin mean) dev = Fin q
    /\ (mean <= 0 -> 0 <= q)
    /\ (0 <= mean -> q <= 0)
    /\ (~ q == 0 ->
        exists sd, dev = Fin sd /\ 1 # 1000000 < sd /\ q == - mean / sd).
Proof.
  unfold ratio_or_zero. destruct (gtb dev (Fin (1 # 1000000))) eqn:E.
  - unfold gtb in E. destruct (ltb_Fin _ _ E) as (g & sd & Hg & -> & Hlt).
    injection Hg as <-.
    assert (Hz : Qeq_bool sd 0 = false).
    { destruct (Qeq_bool sd 0) eqn:Ez; auto. apply Qeq_bool_iff in Ez. lra. }
    simpl. rewrite Hz. exists (- mean / sd).
    assert (Hinv : 0 < / sd) by (apply Qinv_lt_0_compat; lra).
    split; [reflexivity|]. unfold Qdiv. split; [| split].
    + intro Hm. apply Qmult_le_0_compat; lra.
    + intro Hm. assert (0 <= mean * / sd) by (apply Qmult_le_0_compat; lra).
      assert (Heq : - mean * / sd == - (mean * / sd)) by ring. lra.
    + intros _. exists sd. split; [reflexivity|]. split; [exact Hlt|]. reflexivity.
  - exists 0. split; [reflexivity|]. split; [| split]; intro; lra.
Qed.

Lemma stint_mean_present (s : Session) (d : string) (sn : num) :
  (3 <= List.length (stint_laps (driver_laps s d) sn))%nat ->
  exists mean,
    series_mean (map LapTimeDelta (stint_laps (driver_laps s d) sn)) = Fin mean.
Proof.
  intro Hlen. eexists. apply series_mean_present.
  - intro E. apply (f_equal (@List.length _)) in E.
    rewrite length_map in E. simpl in E. lia.
  - apply stint_deltas_present.
Qed.

(** The values recorded for one segment of at least three laps by the
    Sharpe script. *)
Lemma sharpe_stint_values (s : Session) (d : string) (sn : num) :
  (3 <= List.length (stint_laps (driver_laps s d) sn))%nat ->
  let e := sharpe_stint sqrt (stint_laps (driver_laps s d) sn) in
  exists mean sharpe sortino,
    mean_delta e = Fin mean
    /\ sharpe_ratio e = Fin sharpe
    /\ sortino_ratio e = Fin sortino
    /\ (mean <= 0 -> 0 <= sharpe /\ 0 <= sortino)
    /\ (0 <= mean -> sharpe <= 0 /\ sortino <= 0)
    /\ (~ sharpe == 0 ->
        exists sd, std_dev_delta e = Fin sd /\ 1 # 1000000 < sd
                   /\ sharpe == - mean / sd).
Proof.
  intros Hlen e. subst e.
  destruct (stint_mean_present s d sn Hlen) as (mean & Hmean).
  unfold sharpe_stint.
  cbn [mean_delta sharpe_ratio sortino_ratio std_dev_delta]. rewrite Hmean.
  destruct (ratio_or_zero_sign mean
              (series_std sqrt (map LapTimeDelta (stint_laps (driver_laps s d) sn))))
    as (sh & Hsh & H1 & H2 & H3).
  assert (Hso : exists so,
            match downside_deltas (map LapTimeDelta (stint_laps (driver_laps s d) sn))
                                  (Fin mean) with
            | [] => Fin 0
            | _ :: _ =>
                ratio_or_zero (Fin mean)
                  (series_std sqrt
                     (downside_deltas
                        (map LapTimeDelta (stint_laps (driver_laps s d) sn))
                        (Fin mean)))
            end = Fin so
            /\ (mean <= 0 -> 0 <= so) /\ (0 <= mean -> so <= 0)).
  { destruct (downside_deltas _ _) eqn:Ed.
    - exists 0. repeat split; lra.
    - rewrite <- Ed.
      destruct (ratio_or_zero_sign mean
                  (series_std sqrt
                     (downside_deltas
                        (map LapTimeDelta (stint_laps (driver_laps s d) sn))
                        (Fin mean)))) as (so & Hso & K1 & K2 & _).
      exists so. auto. }
  destruct Hso as (so & Hso & K1 & K2).
  exists mean, sh, so. rewrite Hsh, Hso. repeat split; auto.
Qed.

(** The same for the Sortino script, which records no Sharpe ratio. *)
Lemma sortino_stint_values (s : Session) (d : string) (sn : num) :
  (3 <= List.length (stint_laps (driver_laps s d) sn))%nat ->
  let e := sortino_stint sqrt (stint_laps (driver_laps s d) sn) in
  exists mean sortino,
    mean_delta e = Fin mean
    /\ sortino_ratio e = Fin sortino
    /\ (mean <= 0 -> 0 <= sortino)
    /\ (0 <= mean -> sortino <= 0).
Proof.
  intros Hlen e. subst e.
  destruct (stint_mean_present s d sn Hlen) as (mean & Hmean).
  unfold sortino_stint. cbn [mean_delta sortino_ratio]. rewrite Hmean.
  destruct (downside_deltas _ _) eqn:Ed.
  - exists mean, 0. repeat split; lra.
  - rewrite <- Ed.
    destruct (ratio_or_zero_sign mean
                (series_std sqrt
                   (downside_deltas
                      (map LapTimeDelta (stint_laps (driver_laps s d) sn))
                      (Fin mean)))) as (so & Hso & K1 & K2 & _).
    exists mean, so. auto.
Qed.

(** X13.  Sign convention of the segment ratios.  For every segment that
    enters a driver's lists in the Sharpe script, the mean delta is a
    number, and the Sharpe-like and Sortino-like ratios are numbers that
    are not negative when the mean delta is not positive (the driver was
    at least as fast as the benchmark) and not positive when it is not
    negative; the Sharpe-like ratio is non-zero only when the standard
    deviation exceeds 1e-6, and is then minus the mean over it. *)
Theorem ratio_sign_convention (s : Session) (d : string) (e : stint_entry) :
  In e (stint_entries (sharpe_stint sqrt) (driver_laps s d)) ->
  exists mean sharpe sortino,
    mean_delta e = Fin mean
    /\ sharpe_ratio e = Fin sharpe
    /\ sortino_ratio e = Fin sortino
    /\ (mean <= 0 -> 0 <= sharpe /\ 0 <= sortino)
    /\ (0 <= mean -> sharpe <= 0 /\ sortino <= 0)
    /\ (~ sharpe == 0 ->
        exists sd, std_dev_delta e = Fin sd /\ 1 # 1000000 < sd
                   /\ sharpe == - mean / sd).
Proof.
  intro He. apply stint_entries_In in He. destruct He as (sn & _ & Hlen & ->).
  exact (sharpe_stint_values s d sn Hlen).
Qed.

(** The weighted sum and the total weight behind [np.average]. *)
Lemma weighted_sum_bounds {E : Type} (f : E -> num) (w : E -> nat) (es : list E) :
  (forall e, In e es -> present (f e)) ->
  exists S,
    np_sum (map (fun '(v, k) => match v with
                               | Fin x => Fin (x * inject_Z (Z.of_nat k))
                               | NaN => NaN
                               end)
                (DrawdownMetrics.zip (map f es) (map w es))) = Fin S
    /\ (forall lo, (forall e v, In e es -> f e = Fin v -> lo <= v) ->
          lo * inject_Z (Z.of_nat (fold_right Nat.add 0%nat (map w es))) <= S)
    /\ (forall hi, (forall e v, In e es -> f e = Fin v -> v <= hi) ->
          S <= hi * inject_Z (Z.of_nat (fold_right Nat.add 0%nat (map w es)))).
Proof.
  induction es as [|e t IH]; intro Hp.
  - exists 0. split; [reflexivity|].
    split; intros b _; change (b * 0 <= 0) || change (0 <= b * 0); lra.
  - destruct IH as (S & HS & Hlo & Hhi); [intros; apply Hp; now right|].
    destruct (Hp e (or_introl eq_refl)) as (x & Hx).
    exists (x * inject_Z (Z.of_nat (w e)) + S).
    assert (Hw : 0 <= inject_Z (Z.of_nat (w e))).
    { change 0 with (inject_Z 0). rewrite <- Zle_Qle. lia. }
    assert (Hadd : forall k,
              inject_Z (Z.of_nat (w e + k))
              == inject_Z (Z.of_nat (w e)) + inject_Z (Z.of_nat k)).
    { intro k. now rewrite Nat2Z.inj_add, inject_Z_plus. }
    split; [| split].
    + cbn [map DrawdownMetrics.zip]. rewrite Hx.
      change (np_sum (?a :: ?l)) with (add a (np_sum l)).
      rewrite HS. reflexivity.
    + intros lo H. cbn [map fold_right]. rewrite Hadd.
      assert (lo <= x) by (apply (H e); auto; now left).
      assert (lo * inject_Z (Z.of_nat (fold_right Nat.add 0%nat (map w t))) <= S)
        by (apply Hlo; intros; eapply H; eauto; now right).
      assert (lo * inject_Z (Z.of_nat (w e)) <= x * inject_Z (Z.of_nat (w e)))
        by (apply Qmult_le_compat_r; auto).
      lra.
    + intros hi H. cbn [map fold_right]. rewrite Hadd.
      assert (x <= hi) by (apply (H e); auto; now left).
      assert (S <= hi * inject_Z (Z.of_nat (fold_right Nat.add 0%nat (map w t))))
        by (apply Hhi; intros; eapply H; eauto; now right).
      assert (x * inject_Z (Z.of_nat (w e)) <= hi * inject_Z (Z.of_nat (w e)))
        by (apply Qmult_le_compat_r; auto).
      lra.
Qed.

(** A weighted mean with a positive total weight lies between any bounds
    of its terms. *)
Lemma np_average_bounds {E : Type} (f : E -> num) (w : E -> nat) (es : list E) :
  (forall e, In e es -> present (f e)) ->
  (0 < fold_right Nat.add 0%nat (map w es))%nat ->
  exists q,
    np_average (map f es) (map w es) = Fin q
    /\ (forall lo, (forall e v, In e es -> f e = Fin v -> lo <= v) -> lo <= q)
    /\ (forall hi, (forall e v, In e es -> f e = Fin v -> v <= hi) -> q <= hi).
Proof.
  intros Hp Hw. destruct (weighted_sum_bounds f w es Hp) as (S & HS & Hlo & Hhi).
  unfold np_average. rewrite HS. unfold div.
  set (W := inject_Z (Z.of_nat (fold_right Nat.add 0%nat (map w es)))) in *.
  assert (HW : 0 < W).
  { unfold W. change 0 with (inject_Z 0). rewrite <- Zlt_Qlt. lia. }
  assert (Hz : Qeq_bool W 0 = false).
  { destruct (Qeq_bool W 0) eqn:Ez; auto. apply Qeq_bool_iff in Ez. lra. }
  rewrite Hz. exists (S / W). split; [reflexivity|]. split.
  - intros lo H. apply Qle_shift_div_l; auto.
  - intros hi H. apply Qle_shift_div_r; auto.
Qed.

Lemma stint_entries_weight (body : list lap -> stint_entry) (dl : list lap) :
  (forall sl, weight (body sl) = List.length sl) ->
  Forall (fun e => (3 <= weight e)%nat) (stint_entries body dl).
Proof.
  intro Hw. apply Forall_forall. intros e He.
  apply stint_entries_In in He. destruct He as (sn & _ & Hlen & ->).
  now rewrite Hw.
Qed.

Lemma total_weight_positive (es : list stint_entry) :
  es <> [] -> Forall (fun e => (3 <= weight e)%nat) es ->
  (0 < fold_right Nat.add 0%nat (map weight es))%nat.
Proof.
  intros Hne HF. destruct es; [congruence|]. inversion HF; subst. simpl. lia.
Qed.


Lemma sortino_row_ratio_present (s : Session) (d : string) (r : result_row) :
  sortino_row sqrt s d = Some r -> present (Driver_Sortino_Ratio r).
Proof.
  intro H. unfold sortino_row in H.
  destruct (driver_laps s d) as [|l0 dl0] eqn:Edl; [discriminate|].
  rewrite <- Edl in *. clear Edl l0 dl0.
  set (es := stint_entries (sortino_stint sqrt) (driver_laps s d)) in *.
  assert (Hw : Forall (fun e => (3 <= weight e)%nat) es)
    by (apply stint_entries_weight; reflexivity).
  assert (Hp : forall e, In e es -> present (sortino_ratio e)).
  { intros e He. apply stint_entries_In in He.
    destruct He as (sn & _ & Hlen & ->).
    destruct (sortino_stint_values s d sn Hlen) as (? & so & ? & Hso & _).
    now exists so. }
  destruct es as [|e0 t] eqn:Ees; [discriminate|]. rewrite <- Ees in *.
  assert (Hpos : (0 < fold_right Nat.add 0%nat (map weight es))%nat).
  { apply total_weight_positive; auto. rewrite Ees. discriminate. }
  destruct (np_average_bounds sortino_ratio weight es Hp Hpos) as (q & Hq & _).
  injection H as <-. cbn [Driver_Sortino_Ratio]. now exists q.
Qed.

Lemma sharpe_row_ratio_present (s : Session) (d : string) (r : result_row) :
  sharpe_row sqrt s d = Some r -> present (Driver_Sharpe_Ratio r).
Proof.
  intro H. unfold sharpe_row in H.
  destruct (driver_laps s d) as [|l0 dl0] eqn:Edl; [discriminate|].
  rewrite <- Edl in *. clear Edl l0 dl0.
  set (es := stint_entries (sharpe_stint sqrt) (driver_laps s d)) in *.
  assert (Hw : Forall (fun e => (3 <= weight e)%nat) es)
    by (apply stint_entries_weight; reflexivity).
  assert (Hp : forall e, In e es -> present (sharpe_ratio e)).
  { intros e He. apply stint_entries_In in He.
    destruct He as (sn & _ & Hlen & ->).
    destruct (sharpe_stint_values s d sn Hlen) as (? & sh & ? & ? & Hsh & _).
    now exists sh. }
  destruct es as [|e0 t] eqn:Ees; [discriminate|]. rewrite <- Ees in *.
  assert (Hpos : (0 < fold_right Nat.add 0%nat (map weight es))%nat).
  { apply total_weight_positive; auto. rewrite Ees. discriminate. }
  destruct (np_average_bounds sharpe_ratio weight es Hp Hpos) as (q & Hq & _).
  injection H as <-. cbn [Driver_Sharpe_Ratio]. now exists q.
Qed.

(** Sorting rows whose key is a number, in descending order of the key. *)
Lemma sort_by_ratio_desc (key : result_row -> num) (rows : list result_row) :
  Forall (fun r => present (key r)) rows ->
  Permutation rows (sort_by (by_ratio_desc key) rows)
  /\ RatioSpec.descending key (sort_by (by_ratio_desc key) rows).
Proof.
  intro HF. split; [symmetry; apply sort_by_perm|].
  unfold RatioSpec.descending.
  assert (Hs : StronglySorted (fun a b => by_ratio_desc key a b = true)
                              (sort_by (by_ratio_desc key) rows)).
  { apply (sort_by_sorted_on (by_ratio_desc key) (fun r => present (key r))); auto.
    - intros a b (x & Ha) (y & Hb). unfold by_ratio_desc, geb. rewrite Ha, Hb.
      cbn [leb]. intro H. apply Qle_bool_false in H.
      apply Qle_bool_iff. lra.
    - intros a b c (x & Ha) (y & Hb) (z & Hc). unfold by_ratio_desc, geb.
      rewrite Ha, Hb, Hc. cbn [leb]. rewrite !Qle_bool_iff. lra. }
  eapply StronglySorted_weaken; [| exact Hs].
  intros a b H. unfold by_ratio_desc, geb in H.
  destruct (leb_Fin _ _ H) as (y & x & Hb & Ha & Hle). eauto.
Qed.

(** X15.  The result table of each ratio script holds exactly the rows
    collected for the drivers, reordered so that the ratio it is sorted by
    (a number in every row) never increases down the table. *)
Theorem result_table_ranked (s : Session) (table : list result_row) :
  (calculate_driver_sharpe_ratio sqrt s = Some table ->
   Permutation (driver_analysis (sharpe_row sqrt) s) table
   /\ RatioSpec.descending Driver_Sharpe_Ratio table)
  /\ (calculate_driver_sortino_ratio sqrt s = Some table ->
      Permutation (driver_analysis (sortino_row sqrt) s) table
      /\ RatioSpec.descending Driver_Sortino_Ratio table).
Proof.
  split; intro H.
  - unfold calculate_driver_sharpe_ratio in H.
    destruct (green_laps s); [discriminate|].
    destruct (driver_analysis (sharpe_row sqrt) s) as [|r0 t] eqn:E; [discriminate|].
    rewrite <- E in *. injection H as <-.
    apply sort_by_ratio_desc. apply Forall_forall. intros r Hr.
    apply filter_map_In in Hr. destruct Hr as (d & _ & Hd).
    eapply sharpe_row_ratio_present; eauto.
  - unfold calculate_driver_sortino_ratio in H.
    destruct (green_laps s); [discriminate|].
    destruct (driver_analysis (sortino_row sqrt) s) as [|r0 t] eqn:E; [discriminate|].
    rewrite <- E in *. injection H as <-.
    apply sort_by_ratio_desc. apply Forall_forall. intros r Hr.
    apply filter_map_In in Hr. destruct Hr as (d & _ & Hd).
    eapply sortino_row_ratio_present; eauto.
Qed.

End RatioMore.

(** ** Traffic and pressure flags *)

Section FlagFacts.
Import AllLaps ExecutionEquity.

Lemma traffic_threshold_range (all_laps : list row) :
  exists th, estimate_traffic_threshold_dynamically all_laps = Fin th
             /\ 8 # 10 <= th /\ th <= 3.
Proof.
  unfold estimate_traffic_threshold_dynamically.
  destruct (List.length (valid_gaps all_laps) <? 50)%nat eqn:E.
  - exists (13 # 10). split; [reflexivity|]. split; lra.
  - apply Nat.ltb_ge in E.
    destruct (np_percentile_50_median (valid_gaps all_laps)) as (m & Hm & _).
    { intro H. rewrite H in E. simpl in E. lia. }
    destruct (np_clip_clamped m (8 # 10) 3) as (c & Hc & Hlo & Hhi & _); [lra|].
    exists c. rewrite Hm. auto.
Qed.

Lemma ltb_threshold (a : num) (t : Q) :
  ltb a (Fin t) = true <-> exists g, a = Fin g /\ g < t.
Proof.
  split.
  - intro H. destruct (ltb_Fin _ _ H) as (x & y & -> & Hy & Hlt).
    injection Hy as <-. eauto.
  - intros (g & -> & Hlt). simpl. now apply Qltb_lt.
Qed.

Lemma driver_equity_flags (cfg : Config.t) (s : Session) (d : string)
    (e : EquityDf.row) :
  In e (driver_equity cfg s d) ->
  exists r,
    In r (laps s) /\ DriverNumber r = d
    /\ EquityDf.LapNumber e = LapNumber r
    /\ EquityDf.InTraffic e
       = ltb (IntervalToAhead r) (estimate_traffic_threshold_dynamically (laps s))
    /\ EquityDf.UnderPressure e
       = ltb (IntervalToBehind r)
             (Fin (Config.UNDER_PRESSURE_THRESHOLD_SECONDS cfg)).
Proof.
  unfold driver_equity. intro H. apply in_map_iff in H.
  destruct H as (((r & c) & w) & <- & Hin).
  assert (Hr : In r (d_laps s d)).
  { apply In_nth_error in Hin. destruct Hin as (i & Hi).
    rewrite zip3_nth_error in Hi.
    destruct (nth_error (d_laps s d) i) as [r'|] eqn:Er; [|discriminate].
    destruct (nth_error (cumsum _) i); [|discriminate].
    destruct (nth_error (shift1 _ _) i); [|discriminate].
    injection Hi as -> _ _. eapply nth_error_In; eauto. }
  unfold d_laps in Hr. apply sort_by_In, filter_In in Hr.
  destruct Hr as [Hr Hd]. apply String.eqb_eq in Hd.
  exists r. cbn. auto.
Qed.

(** X16.  The flags of a lap in the equity table.  The calibrated traffic
    threshold is a number between 0.8 s and 3.0 s; a lap is flagged as in
    traffic exactly when its gap to the car ahead is a number below that
    threshold, and as under pressure exactly when its gap to the car
    behind is a number below the configured pressure threshold.  A lap
    whose gap is missing gets neither flag. *)
Theorem traffic_and_pressure_flags (cfg : Config.t) (s : Session) (d : string)
    (e : EquityDf.row) :
  In e (driver_equity cfg s d) ->
  exists r th,
    In r (laps s) /\ DriverNumber r = d
    /\ EquityDf.LapNumber e = LapNumber r
    /\ estimate_traffic_threshold_dynamically (laps s) = Fin th
    /\ 8 # 10 <= th /\ th <= 3
    /\ (EquityDf.InTraffic e = true <->
        exists g, IntervalToAhead r = Fin g /\ g < th)
    /\ (EquityDf.UnderPressure e = true <->
        exists g, IntervalToBehind r = Fin g
                  /\ g < Config.UNDER_PRESSURE_THRESHOLD_SECONDS cfg).
Proof.
  intro He. destruct (driver_equity_flags _ _ _ _ He) as (r & Hr & Hd & Hl & Ht & Hp).
  destruct (traffic_threshold_range (laps s)) as (th & Hth & Hlo & Hhi).
  exists r, th. rewrite Ht, Hp, Hth.
  split; [exact Hr|]. split; [exact Hd|]. split; [exact Hl|].
  split; [reflexivity|]. split; [exact Hlo|]. split; [exact Hhi|].
  split; apply ltb_threshold.
Qed.

End FlagFacts.

(** ** Gaps on a lap *)

Section IntervalFacts.
Import Intervals.

Lemma zip_nth_error {B C : Type} (a : list B) :
  forall (b : list C) i,
  nth_error (DrawdownMetrics.zip a b) i
  = match nth_error a i, nth_error b i with
    | Some x, Some y => Some (x, y)
    | _, _ => None
    end.
Proof.
  induction a as [|x a IH]; intros [|y b] [|i]; simpl; auto;
    destruct (nth_error a i); auto.
Qed.

Lemma diff_nth_error (ts : list num) (i : nat) :
  nth_error (diff ts) i
  = if (i <? List.length ts)%nat then Some (gap_at ts i) else None.
Proof.
  unfold diff. rewrite nth_error_map, zip_nth_error, shift1_nth_error.
  destruct (i <? List.length ts)%nat eqn:E.
  - apply Nat.ltb_lt in E.
    destruct (nth_error ts i) as [x|] eqn:Ex;
      [| apply nth_error_None in Ex; lia].
    destruct i as [|j].
    + simpl. now destruct x.
    + destruct (nth_error ts j) as [p|] eqn:Ep;
        [| apply nth_error_None in Ep; lia].
      unfold gap_at. rewrite Ep, Ex. reflexivity.
  - apply Nat.ltb_ge in E. apply nth_error_None in E. now rewrite E.
Qed.

Lemma diff_length (ts : list num) : List.length (diff ts) = List.length ts.
Proof.
  destruct (Nat.lt_trichotomy (List.length (diff ts)) (List.length ts))
    as [H | [H | H]]; auto.
  - pose proof (diff_nth_error ts (List.length (diff ts))) as E.
    apply Nat.ltb_lt in H. rewrite H in E.
    assert (N : nth_error (diff ts) (List.length (diff ts)) = None)
      by (apply nth_error_None; lia).
    congruence.
  - pose proof (diff_nth_error ts (List.length ts)) as E.
    rewrite Nat.ltb_irrefl in E. apply nth_error_None in E. lia.
Qed.

Lemma shift_back_nth_error (xs : list num) (i : nat) :
  nth_error (shift_back xs) i
  = if (S i <? List.length xs)%nat then nth_error xs (S i)
    else if (i <? List.length xs)%nat then Some NaN else None.
Proof.
  destruct xs as [|x t]; [now destruct i|].
  cbn [shift_back List.length nth_error].
  change (S i <? S (List.length t))%nat with (i <? List.length t)%nat.
  destruct (i <? List.length t)%nat eqn:E.
  - apply Nat.ltb_lt in E. now apply nth_error_app1.
  - apply Nat.ltb_ge in E. rewrite nth_error_app2 by exact E.
    destruct (i <? S (List.length t))%nat eqn:E2.
    + apply Nat.ltb_lt in E2.
      replace (i - List.length t)%nat with 0%nat by lia. reflexivity.
    + apply Nat.ltb_ge in E2.
      destruct (i - List.length t)%nat as [|k] eqn:Ek; [lia|]. now destruct k.
Qed.

(** The branch for a lap with fewer than two rows writes what the general
    branch would. *)
Lemma lap_intervals_general (rows : list entry) :
  lap_intervals rows
  = let lap_data := sort_by time_le rows in
    let intervals := diff (map TimeSec lap_data) in
    map (fun '(c, a, b) => {| g_DriverNumber := DriverNumber c;
                              IntervalToAhead := fillna 10 a;
                              IntervalToBehind := fillna 10 b |})
        (ExecutionEquity.zip3 lap_data intervals (shift_back intervals)).
Proof.
  unfold lap_intervals. cbv zeta.
  destruct (sort_by time_le rows) as [|c [|c' t]]; try reflexivity.
  cbn. now destruct (TimeSec c).
Qed.

Lemma lap_intervals_nth (rows : list entry) (i : nat) :
  nth_error (lap_intervals rows) i
  = match nth_error (sort_by time_le rows) i with
    | None => None
    | Some c =>
        let ts := map TimeSec (sort_by time_le rows) in
        Some {| g_DriverNumber := DriverNumber c;
                IntervalToAhead := fillna 10 (gap_at ts i);
                IntervalToBehind := fillna 10 (gap_at ts (S i)) |}
    end.
Proof.
  rewrite lap_intervals_general. cbv zeta.
  set (L := sort_by time_le rows).
  rewrite nth_error_map, zip3_nth_error, shift_back_nth_error, diff_length.
  rewrite !diff_nth_error, length_map.
  destruct (nth_error L i) as [c|] eqn:Ec; [| reflexivity].
  assert (Hi : (i < List.length L)%nat) by (apply nth_error_Some; congruence).
  apply Nat.ltb_lt in Hi. rewrite Hi.
  destruct (S i <? List.length L)%nat eqn:E; [reflexivity|].
  cbn [option_map]. do 3 f_equal.
  apply Nat.ltb_ge in E.
  assert (N : nth_error (map TimeSec L) (S i) = None)
    by (apply nth_error_None; rewrite length_map; lia).
  unfold gap_at. rewrite N. now destruct (nth_error (map TimeSec L) i).
Qed.

Lemma gap_at_S (ts : list num) (j : nat) :
  gap_at ts (S j)
  = match nth_error ts j with
    | Some p => match nth_error ts (S j) with
                | Some x => sub x p
                | None => NaN
                end
    | None => NaN
    end.
Proof. unfold gap_at. now destruct (nth_error ts j). Qed.

Lemma sorted_adjacent {B : Type} (R : B -> B -> Prop) (l : list B) :
  StronglySorted R l ->
  forall i a b, nth_error l i = Some a -> nth_error l (S i) = Some b -> R a b.
Proof.
  induction 1 as [|x t Hs IH Hx]; intros [|i] a b Ha Hb;
    try discriminate.
  - injection Ha as <-. rewrite Forall_forall in Hx. apply Hx.
    apply (nth_error_In t 0). exact Hb.
  - apply (IH i); [exact Ha | exact Hb].
Qed.

Lemma lap_data_sorted (rows : list entry) :
  Forall (fun c => present (TimeSec c)) rows ->
  StronglySorted (fun a b => time_le a b = true) (sort_by time_le rows).
Proof.
  apply (sort_by_sorted_on time_le (fun c => present (TimeSec c))).
  - intros a b (x & Ha) (y & Hb). unfold time_le. rewrite Ha, Hb.
    apply Qle_bool_total.
  - intros a b c (x & Ha) (y & Hb) (z & Hc). unfold time_le.
    rewrite Ha, Hb, Hc. apply Qle_bool_trans.
Qed.

(** Between two neighbours of the sorted lap the gap is the later time
    minus the earlier, a number that is not negative. *)
Lemma gap_at_neighbours (rows : list entry) (i : nat) (c c' : entry) :
  Forall (fun c => present (TimeSec c)) rows ->
  nth_error (sort_by time_le rows) i = Some c ->
  nth_error (sort_by time_le rows) (S i) = Some c' ->
  gap_at (map TimeSec (sort_by time_le rows)) (S i)
  = sub (TimeSec c') (TimeSec c)
  /\ exists q, sub (TimeSec c') (TimeSec c) = Fin q /\ 0 <= q.
Proof.
  intros HF Hc Hc'. split.
  - unfold gap_at. rewrite !nth_error_map, Hc, Hc'. reflexivity.
  - pose proof (sorted_adjacent _ _ (lap_data_sorted rows HF) i c c' Hc Hc') as Hle.
    assert (P : forall x, In x (sort_by time_le rows) -> present (TimeSec x)).
    { intros x Hx. apply sort_by_In in Hx. rewrite Forall_forall in HF. auto. }
    destruct (P c (nth_error_In _ _ Hc)) as (x & Hx).
    destruct (P c' (nth_error_In _ _ Hc')) as (y & Hy).
    unfold time_le in Hle. rewrite Hx, Hy in *. apply Qle_bool_iff in Hle.
    exists (y - x). split; [reflexivity | lra].
Qed.

Lemma gap_filled (rows : list entry) (i : nat) :
  Forall (fun c => present (TimeSec c)) rows ->
  exists q, fillna 10 (gap_at (map TimeSec (sort_by time_le rows)) i) = Fin q
            /\ 0 <= q.
Proof.
  intro HF. destruct i as [|j]; [exists 10; split; [reflexivity | lra]|].
  destruct (nth_error (sort_by time_le rows) j) as [c|] eqn:Ec.
  - destruct (nth_error (sort_by time_le rows) (S j)) as [c'|] eqn:Ec'.
    + destruct (gap_at_neighbours rows j c c' HF Ec Ec') as (-> & q & -> & Hq).
      exists q. auto.
    + unfold gap_at. rewrite !nth_error_map, Ec, Ec'. cbn.
      exists 10. split; [reflexivity | lra].
  - unfold gap_at. rewrite !nth_error_map, Ec. cbn.
    exists 10. split; [reflexivity | lra].
Qed.

(** X17.  The gaps written for the cars of one lap whose lap-end times are
    all known.  Every car of the lap gets one row; both gaps are numbers
    that are not negative; the first car over the line gets the default
    10.0 s as gap ahead and the last car the same as gap behind; and the
    gap behind a car is the gap ahead of the next car over the line, which
    is the difference of their two times. *)
Theorem gaps_on_a_lap (rows : list entry) :
  Forall (fun c => present (TimeSec c)) rows ->
  let out := lap_intervals rows in
  Permutation (map g_DriverNumber out) (map DriverNumber rows)
  /\ (forall g, In g out ->
        exists a b, IntervalToAhead g = Fin a /\ IntervalToBehind g = Fin b
                    /\ 0 <= a /\ 0 <= b)
  /\ (forall g, nth_error out 0 = Some g -> IntervalToAhead g = Fin 10)
  /\ (forall i g, nth_error out i = Some g -> nth_error out (S i) = None ->
        IntervalToBehind g = Fin 10)
  /\ (forall i g g',
        nth_error out i = Some g -> nth_error out (S i) = Some g' ->
        IntervalToBehind g = IntervalToAhead g'
        /\ exists c c',
             In c rows /\ In c' rows
             /\ DriverNumber c = g_DriverNumber g
             /\ DriverNumber c' = g_DriverNumber g'
             /\ IntervalToAhead g' = sub (TimeSec c') (TimeSec c)).
Proof.
  intros HF out. subst out.
  split; [| split; [| split; [| split]]].
  - transitivity (map DriverNumber (sort_by time_le rows)).
    + assert (E : map g_DriverNumber (lap_intervals rows)
                  = map DriverNumber (sort_by time_le rows)); [| now rewrite E].
      apply nth_error_ext. intro i.
      rewrite !nth_error_map, lap_intervals_nth.
      now destruct (nth_error (sort_by time_le rows) i).
    + apply Permutation_map, sort_by_perm.
  - intros g Hg. apply In_nth_error in Hg. destruct Hg as (i & Hi).
    rewrite lap_intervals_nth in Hi.
    destruct (nth_error (sort_by time_le rows) i); [|discriminate].
    injection Hi as <-. cbv zeta. cbn [IntervalToAhead IntervalToBehind g_DriverNumber].
    destruct (gap_filled rows i HF) as (a & Ha & Ha0).
    destruct (gap_filled rows (S i) HF) as (b & Hb & Hb0).
    exists a, b. auto.
  - intros g Hg. rewrite lap_intervals_nth in Hg.
    destruct (nth_error (sort_by time_le rows) 0); [|discriminate].
    now injection Hg as <-.
  - intros i g Hg Hn. rewrite lap_intervals_nth in Hg, Hn.
    destruct (nth_error (sort_by time_le rows) i) as [c|] eqn:Ec; [|discriminate].
    destruct (nth_error (sort_by time_le rows) (S i)) as [c'|] eqn:Ec';
      [discriminate|].
    apply (f_equal (option_map IntervalToBehind)) in Hg.
    cbv zeta in Hg. cbn [option_map IntervalToBehind] in Hg.
    rewrite gap_at_S, !nth_error_map, Ec, Ec' in Hg.
    injection Hg as <-. reflexivity.
  - intros i g g' Hg Hg'. rewrite lap_intervals_nth in Hg, Hg'.
    destruct (nth_error (sort_by time_le rows) i) as [c|] eqn:Ec; [|discriminate].
    destruct (nth_error (sort_by time_le rows) (S i)) as [c'|] eqn:Ec';
      [|discriminate].
    destruct (gap_at_neighbours rows i c c' HF Ec Ec') as (Hgap & q & Hq & _).
    cbv zeta in Hg, Hg'. rewrite Hgap, Hq in Hg, Hg'.
    injection Hg as <-. injection Hg' as <-.
    cbn [IntervalToAhead IntervalToBehind g_DriverNumber].
    split; [reflexivity|].
    exists c, c'.
    split; [eapply sort_by_In, nth_error_In; eauto|].
    split; [eapply sort_by_In, nth_error_In; eauto|].
    split; [reflexivity|]. split; [reflexivity|].
    rewrite Hq. reflexivity.
Qed.

End IntervalFacts.

(** ** The season table *)

Section SeasonFacts.
Import DrawdownMetrics Season.

Lemma filter_map_length {B C : Type} (f : B -> C) (p : C -> bool) (l : list B) :
  List.length (filter p (map f l))
  = List.length (filter (fun x => p (f x)) l).
Proof.
  induction l as [|a t IH]; simpl; auto.
  destruct (p (f a)); simpl; now rewrite IH.
Qed.

Lemma filter_implied {B : Type} (p q : B -> bool) (l : list B) :
  (forall x, p x = true -> q x = true) ->
  filter p (filter q l) = filter p l.
Proof.
  intro H. induction l as [|a t IH]; simpl; auto.
  destruct (q a) eqn:Eq; simpl.
  - destruct (p a); now rewrite IH.
  - destruct (p a) eqn:Ep; auto. apply H in Ep. congruence.
Qed.

Lemma count_NoDup (l : list string) (d : string) :
  NoDup l ->
  List.length (filter (fun x => String.eqb x d) l)
  = if existsb (fun x => String.eqb x d) l then 1%nat else 0%nat.
Proof.
  induction 1 as [|a t Ha Ht IH]; simpl; auto.
  destruct (String.eqb a d) eqn:E; simpl.
  - apply String.eqb_eq in E. subst a.
    assert (N : existsb (fun x => String.eqb x d) t = false).
    { destruct (existsb _ t) eqn:Ex; auto.
      apply existsb_exists in Ex. destruct Ex as (x & Hx & Hd).
      apply String.eqb_eq in Hd. subst x. contradiction. }
    rewrite N in IH. now rewrite IH.
  - exact IH.
Qed.

Lemma existsb_driver (equity_df : list EquityDf.row) (d : string) :
  existsb (fun r => String.eqb (EquityDf.Driver r) d) equity_df = true
  <-> In d (map EquityDf.Driver equity_df).
Proof.
  rewrite existsb_exists, in_map_iff. split.
  - intros (r & Hr & E). apply String.eqb_eq in E. eauto.
  - intros (r & E & Hr). exists r. split; auto. now apply String.eqb_eq.
Qed.

(** A race table holds one row for a driver of the race and none for any
    other. *)
Lemma participation_table (cfg : Config.t) (equity_df : list EquityDf.row)
    (d : string) :
  List.length (filter (fun m => String.eqb (s_Driver m) d)
                      (calculate_drawdown_metrics cfg equity_df))
  = if existsb (fun r => String.eqb (EquityDf.Driver r) d) equity_df
    then 1%nat else 0%nat.
Proof.
  unfold calculate_drawdown_metrics. rewrite filter_map_length.
  cbn [s_Driver driver_metrics].
  rewrite count_NoDup
    by (apply (unique_acc_NoDup String.eqb String.eqb_eq)).
  assert (E : existsb (fun x => String.eqb x d)
                      (unique String.eqb (map EquityDf.Driver equity_df))
              = existsb (fun r => String.eqb (EquityDf.Driver r) d) equity_df).
  { apply eq_true_iff_eq. rewrite existsb_driver, existsb_exists. split.
    - intros (x & Hx & E). apply String.eqb_eq in E. subst x.
      exact (proj1 (unique_In _ _) Hx).
    - intro H. exists d.
      split; [exact (proj2 (unique_In _ _) H) | apply String.eqb_refl]. }
  now rewrite E.
Qed.

Lemma participation_races (cfg : Config.t) (races : list (list EquityDf.row))
    (d : string) :
  participation (master_metrics (race_metrics cfg races)) d
  = races_entered races d.
Proof.
  unfold participation, master_metrics, race_metrics, races_entered.
  induction races as [|equity_df t IH]; auto.
  cbn [map concat filter]. rewrite filter_app, length_app, participation_table, IH.
  now destruct (existsb _ equity_df).
Qed.

Lemma group_kept (master : list summary) (d : string) :
  full_season master d = true ->
  group (filter (fun m => full_season master (s_Driver m)) master) d
  = group master d.
Proof.
  intro H. unfold group. apply filter_implied.
  intros x E. apply String.eqb_eq in E. now rewrite E.
Qed.

Lemma seasonal_summary_drivers (all_metrics : list (list summary)) :
  map ResilienceProfiler.Driver (seasonal_summary all_metrics)
  = group_keys (filter (fun m => full_season (master_metrics all_metrics)
                                             (s_Driver m))
                       (master_metrics all_metrics)).
Proof.
  unfold seasonal_summary. cbv zeta. rewrite map_map. apply map_id.
Qed.

Lemma group_keys_In (rows : list summary) (d : string) :
  In d (group_keys rows) <-> In d (map s_Driver rows).
Proof.
  unfold group_keys. rewrite sort_by_In. apply unique_In.
Qed.

Lemma kept_drivers (master : list summary) (d : string) :
  In d (map s_Driver (filter (fun m => full_season master (s_Driver m)) master))
  <-> (10 <= participation master d)%nat.
Proof.
  rewrite in_map_iff. split.
  - intros (m & <- & Hm). apply filter_In in Hm. destruct Hm as [_ Hm].
    now apply Nat.leb_le in Hm.
  - intro H. unfold participation in H.
    destruct (filter (fun m => String.eqb (s_Driver m) d) master) as [|m t] eqn:E;
      [simpl in H; lia|].
    assert (Hm : In m (filter (fun m => String.eqb (s_Driver m) d) master))
      by (rewrite E; now left).
    apply filter_In in Hm. destruct Hm as [Hm Hd]. apply String.eqb_eq in Hd.
    exists m. split; auto. apply filter_In. split; auto.
    rewrite Hd. apply Nat.leb_le. unfold participation. rewrite E. exact H.
Qed.

(** The drivers of the season table built from given equity tables. *)
Lemma season_table_drivers (cfg : Config.t)
    (races : list (list EquityDf.row)) :
  let table := seasonal_summary (race_metrics cfg races) in
  NoDup (map ResilienceProfiler.Driver table)
  /\ (forall d, In d (map ResilienceProfiler.Driver table)
                <-> (10 <= races_entered races d)%nat)
  /\ ((forall d, (races_entered races d < 10)%nat) -> table = []).
Proof.
  intro table.
  assert (Hin : forall d, In d (map ResilienceProfiler.Driver table)
                          <-> (10 <= races_entered races d)%nat).
  { intro d. unfold table.
    rewrite seasonal_summary_drivers, group_keys_In, kept_drivers.
    now rewrite participation_races. }
  split; [| split; [exact Hin|]].
  - unfold table. rewrite seasonal_summary_drivers. unfold group_keys.
    eapply Permutation_NoDup; [symmetry; apply sort_by_perm|].
    apply (unique_acc_NoDup String.eqb String.eqb_eq).
  - intro H. destruct table as [|r t] eqn:Et; auto. exfalso.
    specialize (H (ResilienceProfiler.Driver r)).
    assert (10 <= races_entered races (ResilienceProfiler.Driver r))%nat
      by (apply Hin; now left).
    lia.
Qed.

Lemma in_race_table (cfg : Config.t) (equity_df : list EquityDf.row)
    (d : string) (m : summary) :
  In m (calculate_drawdown_metrics cfg equity_df) /\ s_Driver m = d
  <-> In d (map EquityDf.Driver equity_df)
      /\ m = driver_metrics cfg d (d_df equity_df d).
Proof.
  unfold calculate_drawdown_metrics. rewrite in_map_iff. split.
  - intros ((x & <- & Hx) & Hd). cbn [s_Driver driver_metrics] in Hd. subst x.
    split; [exact (proj1 (unique_In _ _) Hx) | reflexivity].
  - intros (Hd & ->). split; [| reflexivity].
    exists d. split; [reflexivity | exact (proj2 (unique_In _ _) Hd)].
Qed.

(** The rows of a driver in the master table: one per race entered. *)
Lemma in_group_races (cfg : Config.t) (races : list (list EquityDf.row))
    (d : string) (m : summary) :
  In m (group (master_metrics (race_metrics cfg races)) d)
  <-> exists equity_df,
        In equity_df races /\ In d (map EquityDf.Driver equity_df)
        /\ m = driver_metrics cfg d (d_df equity_df d).
Proof.
  unfold group, master_metrics, race_metrics.
  rewrite filter_In, in_concat. split.
  - intros ((table & Ht & Hm) & Hd). apply String.eqb_eq in Hd.
    apply in_map_iff in Ht. destruct Ht as (equity_df & <- & He).
    exists equity_df. split; auto. now apply in_race_table.
  - intros (equity_df & He & Hd & Hm).
    destruct (proj2 (in_race_table cfg equity_df d m) (conj Hd Hm)) as [H1 H2].
    split; [| now apply String.eqb_eq].
    exists (calculate_drawdown_metrics cfg equity_df). split; auto.
    apply in_map_iff. eauto.
Qed.

Lemma d_df_absent (equity_df : list EquityDf.row) (d : string) :
  ~ In d (map EquityDf.Driver equity_df) -> d_df equity_df d = [].
Proof.
  intro H. unfold d_df.
  assert (E : filter (fun r => String.eqb (EquityDf.Driver r) d) equity_df = []).
  { induction equity_df as [|r t IH]; simpl; auto.
    destruct (String.eqb (EquityDf.Driver r) d) eqn:E.
    - apply String.eqb_eq in E. exfalso. apply H. simpl; auto.
    - apply IH. intro Hin. apply H. simpl; auto. }
  now rewrite E.
Qed.

Lemma season_row (cfg : Config.t) (races : list (list EquityDf.row))
    (r : ResilienceProfiler.row) :
  In r (seasonal_summary (race_metrics cfg races)) ->
  let g := group (master_metrics (race_metrics cfg races))
                 (ResilienceProfiler.Driver r) in
  g <> []
  /\ ResilienceProfiler.Max_Drawdown r = series_min (map Max_Drawdown g)
  /\ ResilienceProfiler.Reset_Velocity r = series_mean (map Reset_Velocity g).
Proof.
  intros Hr g. unfold seasonal_summary in Hr. cbv zeta in Hr.
  apply in_map_iff in Hr. destruct Hr as (d & <- & Hd).
  apply group_keys_In, kept_drivers in Hd.
  assert (Hf : full_season (master_metrics (race_metrics cfg races)) d = true)
    by now apply Nat.leb_le.
  unfold g, seasonal_row.
  cbn [ResilienceProfiler.Driver ResilienceProfiler.Max_Drawdown
       ResilienceProfiler.Reset_Velocity].
  rewrite (group_kept _ _ Hf). split; [| split; reflexivity].
  unfold participation in Hd. unfold group. intro E. rewrite E in Hd.
  simpl in Hd. lia.
Qed.

(** The deepest race value, over given equity tables. *)
Lemma season_row_max_drawdown (cfg : Config.t)
    (races : list (list EquityDf.row)) (r : ResilienceProfiler.row) :
  In r (seasonal_summary (race_metrics cfg races)) ->
  match ResilienceProfiler.Max_Drawdown r with
  | Fin m =>
      m <= 0
      /\ (exists equity_df,
            In equity_df races
            /\ mdd (d_df equity_df (ResilienceProfiler.Driver r)) = Fin m)
      /\ (forall equity_df v,
            In equity_df races ->
            mdd (d_df equity_df (ResilienceProfiler.Driver r)) = Fin v ->
            m <= v)
  | NaN =>
      forall equity_df,
        In equity_df races ->
        mdd (d_df equity_df (ResilienceProfiler.Driver r)) = NaN
  end.
Proof.
  intro Hr. destruct (season_row cfg races r Hr) as (_ & -> & _).
  set (d := ResilienceProfiler.Driver r).
  assert (Hin : forall v,
            In (Fin v) (map Max_Drawdown
                            (group (master_metrics (race_metrics cfg races)) d))
            <-> exists equity_df, In equity_df races
                                  /\ mdd (d_df equity_df d) = Fin v).
  { intro v. rewrite in_map_iff. split.
    - intros (m & Hv & Hm). apply in_group_races in Hm.
      destruct Hm as (equity_df & He & _ & ->). eauto.
    - intros (equity_df & He & Hv).
      exists (driver_metrics cfg d (d_df equity_df d)). split; [exact Hv|].
      apply in_group_races. exists equity_df. split; auto. split; auto.
      destruct (in_dec string_dec d (map EquityDf.Driver equity_df)) as [|N]; auto.
      rewrite (d_df_absent _ _ N) in Hv. discriminate. }
  destruct (series_min _) as [|m] eqn:E.
  - intros equity_df He.
    destruct (mdd (d_df equity_df d)) as [|v] eqn:Ev; auto.
    exfalso. apply (proj1 (series_min_NaN _) E v). apply Hin. eauto.
  - apply series_min_spec in E. destruct E as [Hm Hle].
    apply Hin in Hm. destruct Hm as (equity_df & He & Hv).
    split; [| split].
    + pose proof (mdd_least
                    (sort_by lap_le
                       (filter (fun x => String.eqb (EquityDf.Driver x) d) equity_df)))
        as H. cbv zeta in H. fold (d_df equity_df d) in H. rewrite Hv in H.
      tauto.
    + eauto.
    + intros eq' v He' Hv'. apply Hle. apply Hin. eauto.
Qed.

Lemma Qsum_nonneg (l : list Q) :
  Forall (fun x => 0 <= x) l ->
  0 <= Qsum l /\ (0 < Qsum l <-> exists x, In x l /\ 0 < x).
Proof.
  induction 1 as [|a t Ha Ht (IH1 & IH2)]; simpl.
  - split; [lra|]. split; [lra | now intros (x & [] & _)].
  - change (Qsum (a :: t)) with (a + Qsum t). split; [lra|]. split.
    + intro H. destruct (Qlt_le_dec 0 a) as [Hp | Hn].
      * exists a. auto.
      * assert (0 < Qsum t) by lra. apply IH2 in H0.
        destruct H0 as (x & Hx & Hpos). exists x. auto.
    + intros (x & [<- | Hx] & Hpos); [lra|].
      assert (0 < Qsum t) by (apply IH2; eauto). lra.
Qed.

Lemma Qmean_nonneg (l : list Q) :
  l <> [] -> Forall (fun x => 0 <= x) l ->
  0 <= Qmean l /\ (0 < Qmean l <-> exists x, In x l /\ 0 < x).
Proof.
  intros Hne HF. destruct (Qsum_nonneg l HF) as [H1 H2].
  unfold Qmean.
  assert (Hn : 0 < inject_Z (Z.of_nat (List.length l))).
  { change 0 with (inject_Z 0). rewrite <- Zlt_Qlt.
    destruct l; [congruence | simpl; lia]. }
  set (W := inject_Z (Z.of_nat (List.length l))) in *.
  split.
  - apply Qle_shift_div_l; [exact Hn | rewrite Qmult_0_l; exact H1].
  - rewrite <- H2. split; intro H.
    + assert (Heq : Qsum l == Qsum l / W * W) by (field; lra).
      rewrite Heq. now apply Qmult_lt_0_compat.
    + apply Qlt_shift_div_l; [exact Hn | rewrite Qmult_0_l; exact H].
Qed.

(** The Reset Velocity of one race: zero without a finalized episode, a
    positive number with one. *)
Lemma race_reset_velocity (cfg : Config.t) (equity_df : list EquityDf.row)
    (d : string) :
  Config.DRAWDOWN_ENTRY_THRESHOLD cfg <= Config.RECOVERY_COMPLETE_THRESHOLD cfg ->
  (0 <= Config.MIN_RECOVERY_DURATION cfg)%Z ->
  exists q,
    Reset_Velocity (driver_metrics cfg d (d_df equity_df d)) = Fin q
    /\ 0 <= q
    /\ (0 < q <-> recovery_velocities (episodes cfg (d_df equity_df d)) <> []).
Proof.
  intros Hth Hmin.
  assert (Hinv : Forall ScanSpec.positive
                        (recovery_velocities (episodes cfg (d_df equity_df d)))).
  { unfold episodes, d_df. rewrite with_drawdown_from_None.
    destruct (run_scan_trough cfg
                (sort_by lap_le
                   (filter (fun r => String.eqb (EquityDf.Driver r) d) equity_df))
                Hth Hmin None [] scan_init (trough_inv_init cfg))
      as [(H1 & _) _]. exact H1. }
  unfold driver_metrics. cbn [Reset_Velocity].
  destruct (recovery_velocities (episodes cfg (d_df equity_df d))) as [|v t] eqn:E.
  - exists 0. split; [reflexivity|]. split; [lra|].
    split; intro H; [lra | now elim H].
  - destruct (np_mean_positive (v :: t)) as (q & Hq & Hpos); [easy | exact Hinv |].
    exists q. split; [exact Hq|]. split; [lra|]. split; [easy | auto].
Qed.

(** The mean of the race velocities, over given equity tables. *)
Lemma season_row_reset_velocity (cfg : Config.t)
    (races : list (list EquityDf.row)) (r : ResilienceProfiler.row) :
  Config.DRAWDOWN_ENTRY_THRESHOLD cfg <= Config.RECOVERY_COMPLETE_THRESHOLD cfg ->
  (0 <= Config.MIN_RECOVERY_DURATION cfg)%Z ->
  In r (seasonal_summary (race_metrics cfg races)) ->
  exists q,
    ResilienceProfiler.Reset_Velocity r = Fin q
    /\ 0 <= q
    /\ (0 < q <->
        exists equity_df,
          In equity_df races
          /\ recovery_velocities
               (episodes cfg (d_df equity_df (ResilienceProfiler.Driver r))) <> []).
Proof.
  intros Hth Hmin Hr. destruct (season_row cfg races r Hr) as (Hne & _ & ->).
  set (d := ResilienceProfiler.Driver r) in *.
  set (g := group (master_metrics (race_metrics cfg races)) d) in *.
  assert (Hrow : forall m, In m g ->
            exists equity_df q,
              In equity_df races /\ Reset_Velocity m = Fin q /\ 0 <= q
              /\ (0 < q <->
                  recovery_velocities (episodes cfg (d_df equity_df d)) <> [])).
  { intros m Hm. apply in_group_races in Hm.
    destruct Hm as (equity_df & He & _ & ->).
    destruct (race_reset_velocity cfg equity_df d Hth Hmin) as (q & Hq & H0 & Hiff).
    exists equity_df, q. auto. }
  assert (HP : Forall present (map Reset_Velocity g)).
  { apply Forall_forall. intros v Hv. apply in_map_iff in Hv.
    destruct Hv as (m & <- & Hm).
    destruct (Hrow m Hm) as (_ & q & _ & Hq & _). now exists q. }
  assert (Hne' : map Reset_Velocity g <> []).
  { destruct g; [congruence | discriminate]. }
  rewrite (series_mean_present _ Hne' HP).
  assert (Hd : dropna (map Reset_Velocity g) <> []).
  { intro E. apply dropna_all_present in HP. rewrite E in HP.
    simpl in HP. congruence. }
  assert (HF : Forall (fun x => 0 <= x) (dropna (map Reset_Velocity g))).
  { apply Forall_forall. intros x Hx. apply in_dropna in Hx.
    apply in_map_iff in Hx. destruct Hx as (m & Hv & Hm).
    destruct (Hrow m Hm) as (_ & q & _ & Hq & H0 & _). rewrite Hq in Hv.
    injection Hv as <-. exact H0. }
  destruct (Qmean_nonneg _ Hd HF) as [H1 H2].
  eexists. split; [reflexivity|]. split; [exact H1|].
  rewrite H2. split.
  - intros (x & Hx & Hpos). apply in_dropna in Hx.
    apply in_map_iff in Hx. destruct Hx as (m & Hv & Hm).
    apply in_group_races in Hm. destruct Hm as (equity_df & He & _ & ->).
    destruct (race_reset_velocity cfg equity_df d Hth Hmin) as (q & Hq & _ & Hiff).
    rewrite Hq in Hv. injection Hv as <-.
    exists equity_df. split; auto. now apply Hiff.
  - intros (equity_df & He & Hv).
    assert (Hd' : In d (map EquityDf.Driver equity_df)).
    { destruct (in_dec string_dec d (map EquityDf.Driver equity_df)) as [|N]; auto.
      rewrite (d_df_absent _ _ N) in Hv. exfalso. now apply Hv. }
    destruct (race_reset_velocity cfg equity_df d Hth Hmin) as (q & Hq & _ & Hiff).
    exists q. split; [| now apply Hiff].
    apply in_dropna. apply in_map_iff.
    exists (driver_metrics cfg d (d_df equity_df d)). split; [exact Hq|].
    apply in_group_races. eauto.
Qed.

Lemma race_tables_In (cfg : Config.t) (schedule : list ExecutionEquity.Session)
    (equity_df : list EquityDf.row) :
  In equity_df (race_tables cfg schedule)
  <-> exists s, In s schedule
                /\ ExecutionEquity.calculate_execution_equity cfg s = Some equity_df.
Proof. unfold race_tables. apply filter_map_In. Qed.

(** X18.  The season table has one row for each competitor that has a row
    in the equity table of at least ten races of the schedule, and no
    other row.  The run stops quietly exactly when no race of the schedule
    yields an equity table.  Otherwise it fails with a [TypeError] when no
    competitor reaches ten races, it fails in the k-means fit when one to
    seven competitors do, and it prints profiles only for a season table
    of at least eight rows, the ones that [profile_drivers] returns for
    it. *)
Theorem full_season_competitors (cfg : Config.t)
    (schedule : list ExecutionEquity.Session) :
  let races := race_tables cfg schedule in
  let table := seasonal_summary (all_metrics cfg schedule) in
  NoDup (map ResilienceProfiler.Driver table)
  /\ (forall d, In d (map ResilienceProfiler.Driver table)
                <-> (10 <= races_entered races d)%nat)
  /\ (run_seasonal_drawdown cfg schedule = NoData
      <-> forall s, In s schedule ->
                    ExecutionEquity.calculate_execution_equity cfg s = None)
  /\ (races <> [] -> (forall d, (races_entered races d < 10)%nat) ->
      run_seasonal_drawdown cfg schedule = Failed NoneNotSubscriptable)
  /\ (races <> [] ->
      (0 < List.length table < ResilienceProfiler.n_clusters)%nat ->
      run_seasonal_drawdown cfg schedule = Failed KMeansTooFewSamples)
  /\ (forall profiles,
        run_seasonal_drawdown cfg schedule = Printed profiles ->
        (ResilienceProfiler.n_clusters <= List.length table)%nat
        /\ ResilienceProfiler.profile_drivers cfg table = Returns (Some profiles)).
Proof.
  intros races table.
  destruct (season_table_drivers cfg races) as (H1 & H2 & H3).
  assert (Hrun : run_seasonal_drawdown cfg schedule
                 = match races with
                   | [] => NoData
                   | _ =>
                       match ResilienceProfiler.profile_drivers cfg table with
                       | Raises e => Failed e
                       | Returns None => Failed NoneNotSubscriptable
                       | Returns (Some profiles) => Printed profiles
                       end
                   end).
  { unfold run_seasonal_drawdown, table, all_metrics, race_metrics.
    fold races. now destruct races. }
  assert (Hnone : races = [] <->
                  forall s, In s schedule ->
                            ExecutionEquity.calculate_execution_equity cfg s = None).
  { split.
    - intros E s Hs.
      destruct (ExecutionEquity.calculate_execution_equity cfg s) as [t|] eqn:Ec; auto.
      assert (Hin : In t races) by (apply race_tables_In; eauto).
      rewrite E in Hin. contradiction.
    - intro H. destruct races as [|t l] eqn:Er; auto.
      assert (Hin : In t (race_tables cfg schedule))
        by (fold races; rewrite Er; now left).
      apply race_tables_In in Hin. destruct Hin as (s & Hs & Hsome).
      rewrite (H s Hs) in Hsome. discriminate. }
  change (seasonal_summary (race_metrics cfg races)) with table in H1, H2, H3.
  clearbody table races.
  split; [exact H1|]. split; [exact H2|].
  split; [| split; [| split]].
  - rewrite <- Hnone, Hrun. split.
    + destruct races; auto.
      destruct (ResilienceProfiler.profile_drivers cfg table) as [[p|]|e];
        discriminate.
    + now intros ->.
  - intros Hne Hfew. rewrite Hrun.
    destruct races as [|t l]; [congruence|].
    now rewrite (H3 Hfew).
  - intros Hne [Hpos Hlt]. rewrite Hrun.
    destruct races as [|t l]; [congruence|].
    rewrite profile_drivers_small; auto.
    intro E. rewrite E in Hpos. simpl in Hpos. lia.
  - intros profiles Hp. rewrite Hrun in Hp.
    destruct races as [|t l]; [discriminate|].
    destruct (ResilienceProfiler.profile_drivers cfg table) as [[p|]|e] eqn:Ep;
      try discriminate.
    injection Hp as ->. split; [| reflexivity].
    now apply profile_drivers_returns in Ep.
Qed.

(** X19.  The Max Drawdown of a competitor in the season table is the
    deepest of the competitor's race values: it is the value of one of the
    races of the schedule, it is not above that of any race, and it is
    never positive.  It is missing only when it is missing in every
    race. *)
Theorem seasonal_max_drawdown (cfg : Config.t)
    (schedule : list ExecutionEquity.Session) (r : ResilienceProfiler.row) :
  In r (seasonal_summary (all_metrics cfg schedule)) ->
  match ResilienceProfiler.Max_Drawdown r with
  | Fin m =>
      m <= 0
      /\ (exists s equity_df,
            In s schedule
            /\ ExecutionEquity.calculate_execution_equity cfg s = Some equity_df
            /\ mdd (d_df equity_df (ResilienceProfiler.Driver r)) = Fin m)
      /\ (forall s equity_df v,
            In s schedule ->
            ExecutionEquity.calculate_execution_equity cfg s = Some equity_df ->
            mdd (d_df equity_df (ResilienceProfiler.Driver r)) = Fin v ->
            m <= v)
  | NaN =>
      forall s equity_df,
        In s schedule ->
        ExecutionEquity.calculate_execution_equity cfg s = Some equity_df ->
        mdd (d_df equity_df (ResilienceProfiler.Driver r)) = NaN
  end.
Proof.
  intro Hr.
  pose proof (season_row_max_drawdown cfg (race_tables cfg schedule) r Hr) as H.
  destruct (ResilienceProfiler.Max_Drawdown r) as [|m].
  - intros s equity_df Hs He. apply H. apply race_tables_In. eauto.
  - destruct H as (H1 & (equity_df & He & Hm) & H3).
    apply race_tables_In in He. destruct He as (s & Hs & He).
    split; [exact H1|]. split; [eauto|].
    intros s' eq' v Hs' He'. apply H3. apply race_tables_In. eauto.
Qed.

(** X20.  With the entry threshold not above the exit threshold and a
    minimum duration that is not negative, the Reset Velocity of a
    competitor in the season table is a number that is not negative, and
    it is positive exactly when the scan finalized a recovery episode of
    the competitor in at least one race of the schedule. *)
Theorem seasonal_reset_velocity (cfg : Config.t)
    (schedule : list ExecutionEquity.Session) (r : ResilienceProfiler.row) :
  Config.DRAWDOWN_ENTRY_THRESHOLD cfg <= Config.RECOVERY_COMPLETE_THRESHOLD cfg ->
  (0 <= Config.MIN_RECOVERY_DURATION cfg)%Z ->
  In r (seasonal_summary (all_metrics cfg schedule)) ->
  exists q,
    ResilienceProfiler.Reset_Velocity r = Fin q
    /\ 0 <= q
    /\ (0 < q <->
        exists s equity_df,
          In s schedule
          /\ ExecutionEquity.calculate_execution_equity cfg s = Some equity_df
          /\ recovery_velocities
               (episodes cfg (d_df equity_df (ResilienceProfiler.Driver r))) <> []).
Proof.
  intros Hth Hmin Hr.
  destruct (season_row_reset_velocity cfg (race_tables cfg schedule) r Hth Hmin Hr)
    as (q & Hq & H0 & Hiff).
  exists q. split; [exact Hq|]. split; [exact H0|].
  rewrite Hiff. split.
  - intros (equity_df & He & Hv). apply race_tables_In in He.
    destruct He as (s & Hs & He). eauto.
  - intros (s & equity_df & Hs & He & Hv). exists equity_df. split; auto.
    apply race_tables_In. eauto.
Qed.

End SeasonFacts.

(** ** The further properties on the sample tables *)

(** Car 4 of the race with a pit lap that has no lap time, on its third lap. *)
Lemma cumulative_equity_running_total_witness :
  exists e,
    nth_error (ExecutionEquity.driver_equity Config.default Samples.pit_session "4") 2
    = Some e
    /\ match EquityDf.EquityChange e with
       | NaN => EquityDf.ExecutionEquity e = NaN
       | Fin _ =>
           exists c,
             EquityDf.ExecutionEquity e = Fin c
             /\ c == Qsum (dropna (firstn 3
                            (map EquityDf.EquityChange
                               (ExecutionEquity.driver_equity Config.default
                                  Samples.pit_session "4"))))
       end.
Proof.
  eexists. split; [reflexivity|].
  apply (cumulative_equity_running_total Config.default Samples.pit_session "4" 2).
  reflexivity.
Defined.

(** The race in which every lap has a lap time: car 4. *)
Lemma equity_defined_when_pit_laps_have_delta_witness :
  Forall present
    (map EquityDf.EquityChange
       (ExecutionEquity.driver_equity Config.default Samples.clean_session "4"))
  /\ Forall present
       (map EquityDf.ExecutionEquity
          (ExecutionEquity.driver_equity Config.default Samples.clean_session "4")).
Proof.
  assert (H : forall r, In r (ExecutionEquity.laps Samples.clean_session) ->
                        AllLaps.IsPit r = true -> AllLaps.IsSC r = false ->
                        present (AllLaps.RawDelta r)).
  { intros r Hr _ _. simpl in Hr.
    repeat (destruct Hr as [<- | Hr]; [eexists; reflexivity|]).
    contradiction. }
  pose proof (equity_defined_when_pit_laps_have_delta Config.default
                Samples.clean_session H "4") as (H1 & H2 & _).
  exact (conj H1 H2).
Defined.

(** The three-second loss of car 4 is attributed to a major incident. *)
Lemma failure_attribution_witness :
  exists e x,
    In e (ExecutionEquity.driver_equity Config.default
            MoreSamples.incident_session "4")
    /\ EquityDf.FailureType_ e = FT_MajorIncident
    /\ EquityDf.EquityChange e = Fin x
    /\ x < - Config.INCIDENT_THRESHOLD_MAJOR Config.default.
Proof.
  assert (Hin : In (nth 1 (ExecutionEquity.driver_equity Config.default
                             MoreSamples.incident_session "4")
                          (Samples.equity_row "" 0 NaN NaN FT_None))
                   (ExecutionEquity.driver_equity Config.default
                      MoreSamples.incident_session "4")).
  { right. left. reflexivity. }
  destruct (failure_attribution Config.default MoreSamples.incident_session "4"
              (nth 1 (ExecutionEquity.driver_equity Config.default
                        MoreSamples.incident_session "4")
                     (Samples.equity_row "" 0 NaN NaN FT_None)))
    as (r & _ & _ & _ & _ & _ & _ & Hmajor & _);
    [vm_compute; discriminate | vm_compute; discriminate
     | vm_compute; discriminate | exact Hin |].
  destruct (Hmajor eq_refl) as (_ & x & Hx & Hlt).
  eexists. exists x. split; [exact Hin|]. split; [reflexivity|].
  split; [exact Hx | exact Hlt].
Defined.

(** The one-competitor table and its summary. *)
Lemma recovery_velocities_positive_witness :
  let st := DrawdownMetrics.episodes Config.default Samples.nor_d_df in
  Forall ScanSpec.positive (DrawdownMetrics.recovery_velocities st)
  /\ List.length (DrawdownMetrics.recovery_types st)
     = List.length (DrawdownMetrics.recovery_velocities st)
  /\ match DrawdownMetrics.recovery_velocities st with
     | [] => DrawdownMetrics.Reset_Velocity Samples.nor_summary = Fin 0
     | _ => ScanSpec.positive (DrawdownMetrics.Reset_Velocity Samples.nor_summary)
     end.
Proof.
  apply (recovery_velocities_positive Config.default Samples.nor_equity_df
           Samples.nor_summary).
  - vm_compute. discriminate.
  - vm_compute. discriminate.
  - vm_compute. left. reflexivity.
Defined.

(** The scan of the one-competitor table after its second lap. *)
Lemma trough_is_lowest_equity_witness :
  let st := DrawdownMetrics.episodes Config.default
              ([MoreSamples.nor_lap 0] ++ [MoreSamples.nor_lap 1]) in
  exists t r0,
    DrawdownMetrics.trough_equity st = Fin t
    /\ In r0 ([MoreSamples.nor_lap 0] ++ [MoreSamples.nor_lap 1])
    /\ EquityDf.LapNumber (DrawdownMetrics.base r0) = DrawdownMetrics.trough_lap st
    /\ EquityDf.ExecutionEquity (DrawdownMetrics.base r0) = Fin t
    /\ forall x,
         EquityDf.ExecutionEquity (DrawdownMetrics.base (MoreSamples.nor_lap 1))
         = Fin x -> t <= x.
Proof.
  apply (trough_is_lowest_equity Config.default Samples.nor_equity_df "NOR"
           [MoreSamples.nor_lap 0] (MoreSamples.nor_lap 1)
           [MoreSamples.nor_lap 2; MoreSamples.nor_lap 3]).
  - vm_compute. discriminate.
  - vm_compute. discriminate.
  - vm_compute. reflexivity.
  - vm_compute. reflexivity.
Defined.

(** The competitor whose equity never falls a tenth below its peak. *)
Lemma quiet_competitor_summary_witness :
  DrawdownMetrics.Reset_Velocity MoreSamples.quiet_summary = Fin 0
  /\ DrawdownMetrics.Major_Incident_Resilience MoreSamples.quiet_summary = NaN
  /\ DrawdownMetrics.Traffic_Resilience MoreSamples.quiet_summary = NaN
  /\ DrawdownMetrics.Operational_Resilience MoreSamples.quiet_summary = NaN
  /\ DrawdownMetrics.Lockup_Error_Resilience MoreSamples.quiet_summary = Fin 1
  /\ forall m, DrawdownMetrics.Max_Drawdown MoreSamples.quiet_summary = Fin m ->
       Config.DRAWDOWN_ENTRY_THRESHOLD Config.default <= m /\ m <= 0.
Proof.
  apply (quiet_competitor_summary Config.default MoreSamples.quiet_equity_df
           MoreSamples.quiet_summary).
  - vm_compute. left. reflexivity.
  - vm_compute. repeat constructor.
Defined.

(** The derived columns of the one-competitor summary. *)
Lemma lockup_resilience_defaults_to_one_witness :
  let st := DrawdownMetrics.episodes Config.default Samples.nor_d_df in
  DrawdownMetrics.Spin_Off_Track_Resilience Samples.nor_summary = Fin 1
  /\ DrawdownMetrics.Driver_Error_Resilience Samples.nor_summary
     = DrawdownMetrics.Major_Incident_Resilience Samples.nor_summary
  /\ present (DrawdownMetrics.Lockup_Error_Resilience Samples.nor_summary)
  /\ match DrawdownMetrics.relevant_rates st FT_MajorIncident with
     | [] => DrawdownMetrics.Major_Incident_Resilience Samples.nor_summary = NaN
             /\ DrawdownMetrics.Lockup_Error_Resilience Samples.nor_summary = Fin 1
     | _ => DrawdownMetrics.Lockup_Error_Resilience Samples.nor_summary
            = DrawdownMetrics.Major_Incident_Resilience Samples.nor_summary
     end.
Proof.
  apply (lockup_resilience_defaults_to_one Config.default Samples.nor_equity_df
           Samples.nor_summary).
  - vm_compute. discriminate.
  - vm_compute. left. reflexivity.
Defined.

(** The cohort with a natural king. *)
Lemma classification_only_adds_labels_witness :
  exists out,
    ResilienceProfiler.profile_drivers Config.default Samples.cohort_with_king
    = Returns (Some out)
    /\ map ResilienceProfiler.Driver out
       = map ResilienceProfiler.Driver Samples.cohort_with_king
    /\ map ResilienceProfiler.Max_Drawdown out
       = map ResilienceProfiler.Max_Drawdown Samples.cohort_with_king
    /\ map ResilienceProfiler.Reset_Velocity out
       = map ResilienceProfiler.Reset_Velocity Samples.cohort_with_king
    /\ map ResilienceProfiler.Restart_Delta out
       = map ResilienceProfiler.Restart_Delta Samples.cohort_with_king
    /\ Forall (fun r => ResilienceProfiler.Resilience_Profile r <> None) out.
Proof.
  eexists. split; [reflexivity|].
  apply (classification_only_adds_labels Config.default Samples.cohort_with_king).
  reflexivity.
Defined.

(** The shallowest competitor of the cohort without a natural king. *)
Lemma shallowest_is_king_or_steady_witness :
  exists out r',
    ResilienceProfiler.profile_drivers Config.default Samples.cohort_without_king
    = Returns (Some out)
    /\ nth_error out 0 = Some r'
    /\ ResilienceProfiler.Driver r' = "VER"%string
    /\ (ResilienceProfiler.Resilience_Profile r'
        = Some ResilienceProfiler.Entropy_King
        \/ ResilienceProfiler.Resilience_Profile r'
           = Some ResilienceProfiler.Steady_Operator).
Proof.
  eexists.
  assert (Hout : ResilienceProfiler.profile_drivers Config.default
                   Samples.cohort_without_king = Returns (Some ?[out]))
    by reflexivity.
  assert (Hmax : forall r0 y,
            In r0 Samples.cohort_without_king ->
            ResilienceProfiler.Max_Drawdown r0 = Fin y -> y <= -10).
  { intros r0 y Hr Hy. simpl in Hr.
    repeat (destruct Hr as [<- | Hr];
            [injection Hy as <-; vm_compute; discriminate|]).
    contradiction. }
  destruct (shallowest_is_king_or_steady Config.default
              Samples.cohort_without_king _ 0
              (Samples.competitor "VER" (-10) (1 # 2) (- (2 # 10))) (-10)
              ltac:(vm_compute; discriminate) Hout eq_refl eq_refl Hmax)
    as (r' & H1 & H2 & H3).
  exists r'. split; [exact Hout|]. split; [exact H1|]. split; [exact H2 | exact H3].
Defined.

(** The four-lap stint of car 1. *)
Lemma ratio_sign_convention_witness :
  exists mean sharpe sortino,
    Ratio.mean_delta MoreSamples.ratio_stint = Fin mean
    /\ Ratio.sharpe_ratio MoreSamples.ratio_stint = Fin sharpe
    /\ Ratio.sortino_ratio MoreSamples.ratio_stint = Fin sortino
    /\ (mean <= 0 -> 0 <= sharpe /\ 0 <= sortino)
    /\ (0 <= mean -> sharpe <= 0 /\ sortino <= 0)
    /\ (~ sharpe == 0 ->
        exists sd, Ratio.std_dev_delta MoreSamples.ratio_stint = Fin sd
                   /\ 1 # 1000000 < sd
                   /\ sharpe == - mean / sd).
Proof.
  apply (ratio_sign_convention Ratio.sqrt6 Samples.ratio_session "1").
  vm_compute. left. reflexivity.
Defined.


(** The lap of car 4 half a second behind the car ahead. *)
Lemma traffic_and_pressure_flags_witness :
  exists e,
    In e (ExecutionEquity.driver_equity Config.default
            MoreSamples.incident_session "4")
    /\ exists r th,
    In r (ExecutionEquity.laps MoreSamples.incident_session)
    /\ AllLaps.DriverNumber r = "4"%string
    /\ EquityDf.LapNumber e = AllLaps.LapNumber r
    /\ ExecutionEquity.estimate_traffic_threshold_dynamically
         (ExecutionEquity.laps MoreSamples.incident_session) = Fin th
    /\ 8 # 10 <= th /\ th <= 3
    /\ (EquityDf.InTraffic e = true <->
        exists g, AllLaps.IntervalToAhead r = Fin g /\ g < th)
    /\ (EquityDf.UnderPressure e = true <->
        exists g, AllLaps.IntervalToBehind r = Fin g
                  /\ g < Config.UNDER_PRESSURE_THRESHOLD_SECONDS Config.default).
Proof.
  assert (Hin : In (nth 2 (ExecutionEquity.driver_equity Config.default
                             MoreSamples.incident_session "4")
                          (Samples.equity_row "" 0 NaN NaN FT_None))
                   (ExecutionEquity.driver_equity Config.default
                      MoreSamples.incident_session "4")).
  { right. right. left. reflexivity. }
  eexists. split; [exact Hin|].
  apply (traffic_and_pressure_flags Config.default MoreSamples.incident_session "4").
  exact Hin.
Defined.

(** Three cars, two of them crossing the line together. *)
Lemma gaps_on_a_lap_witness :
  let out := Intervals.lap_intervals Intervals.three_cars in
  Permutation (map Intervals.g_DriverNumber out)
              (map Intervals.DriverNumber Intervals.three_cars)
  /\ (forall g, In g out ->
        exists a b, Intervals.IntervalToAhead g = Fin a
                    /\ Intervals.IntervalToBehind g = Fin b
                    /\ 0 <= a /\ 0 <= b)
  /\ (forall g, nth_error out 0 = Some g -> Intervals.IntervalToAhead g = Fin 10)
  /\ (forall i g, nth_error out i = Some g -> nth_error out (S i) = None ->
        Intervals.IntervalToBehind g = Fin 10)
  /\ (forall i g g',
        nth_error out i = Some g -> nth_error out (S i) = Some g' ->
        Intervals.IntervalToBehind g = Intervals.IntervalToAhead g'
        /\ exists c c',
             In c Intervals.three_cars /\ In c' Intervals.three_cars
             /\ Intervals.DriverNumber c = Intervals.g_DriverNumber g
             /\ Intervals.DriverNumber c' = Intervals.g_DriverNumber g'
             /\ Intervals.IntervalToAhead g'
                = sub (Intervals.TimeSec c') (Intervals.TimeSec c)).
Proof.
  apply (gaps_on_a_lap Intervals.three_cars).
  repeat constructor; eexists; reflexivity.
Defined.

(** The competitor with eleven races of the sample schedule. *)
Lemma seasonal_max_drawdown_witness :
  exists r m,
    In r (Season.seasonal_summary (Season.all_metrics Config.default Season.schedule))
    /\ ResilienceProfiler.Driver r = "NOR"%string
    /\ ResilienceProfiler.Max_Drawdown r = Fin m
    /\ m <= 0
    /\ exists s equity_df,
         In s Season.schedule
         /\ ExecutionEquity.calculate_execution_equity Config.default s
            = Some equity_df
         /\ DrawdownMetrics.mdd
              (DrawdownMetrics.d_df equity_df (ResilienceProfiler.Driver r))
            = Fin m.
Proof.
  assert (Hin : In (Season.seasonal_row
                      (Season.master_metrics
                         (Season.all_metrics Config.default Season.schedule))
                      "NOR"%string)
                   (Season.seasonal_summary
                      (Season.all_metrics Config.default Season.schedule))).
  { vm_compute. left. reflexivity. }
  pose proof (seasonal_max_drawdown Config.default Season.schedule _ Hin) as H.
  destruct (ResilienceProfiler.Max_Drawdown _) as [|m] eqn:E;
    [vm_compute in E; discriminate|].
  destruct H as (H1 & H2 & _).
  eexists. exists m. split; [exact Hin|]. split; [reflexivity|].
  split; [exact E|]. split; [exact H1 | exact H2].
Defined.

(** The same competitor: ten races with a recovery episode, one without. *)
Lemma seasonal_reset_velocity_witness :
  exists r q,
    In r (Season.seasonal_summary (Season.all_metrics Config.default Season.schedule))
    /\ ResilienceProfiler.Driver r = "NOR"%string
    /\ ResilienceProfiler.Reset_Velocity r = Fin q
    /\ 0 <= q.
Proof.
  assert (Hin : In (Season.seasonal_row
                      (Season.master_metrics
                         (Season.all_metrics Config.default Season.schedule))
                      "NOR"%string)
                   (Season.seasonal_summary
                      (Season.all_metrics Config.default Season.schedule))).
  { vm_compute. left. reflexivity. }
  destruct (seasonal_reset_velocity Config.default Season.schedule _
              ltac:(vm_compute; discriminate) ltac:(vm_compute; discriminate) Hin)
    as (q & Hq & H0 & _).
  eexists. exists q. split; [exact Hin|]. split; [reflexivity|].
  split; [exact Hq | exact H0].
Defined.


(** The two-car race: the faster car comes first. *)
Lemma result_table_ranked_witness :
  exists table,
    Ratio.calculate_driver_sharpe_ratio Ratio.sqrt6 RatioSpec.two_car_session
    = Some table
    /\ Permutation
         (Ratio.driver_analysis (Ratio.sharpe_row Ratio.sqrt6)
            RatioSpec.two_car_session)
         table
    /\ RatioSpec.descending Ratio.Driver_Sharpe_Ratio table.
Proof.
  eexists. split; [reflexivity|].
  apply (proj1 (result_table_ranked Ratio.sqrt6 RatioSpec.two_car_session _)).
  reflexivity.
Defined.

(** The sample schedule: one competitor with eleven races, one with one;
    a season table of one row makes the k-means fit raise.  The season of
    the full field prints profiles. *)
Lemma full_season_competitors_witness :
  In "NOR"%string
     (map ResilienceProfiler.Driver
        (Season.seasonal_summary
           (Season.all_metrics Config.default Season.schedule)))
  /\ (Season.races_entered (Season.race_tables Config.default Season.schedule)
        "PIA" < 10)%nat
  /\ Season.run_seasonal_drawdown Config.default Season.schedule
     = Season.Failed KMeansTooFewSamples
  /\ exists profiles,
       Season.run_seasonal_drawdown Config.default Season.full_field_schedule
       = Season.Printed profiles
       /\ (ResilienceProfiler.n_clusters
           <= List.length (Season.seasonal_summary
                             (Season.all_metrics Config.default
                                Season.full_field_schedule)))%nat.
Proof.
  pose proof (full_season_competitors Config.default Season.schedule)
    as (_ & H2 & _ & _ & H5 & _).
  split; [apply H2; vm_compute; lia|].
  split; [vm_compute; lia|].
  split; [apply H5; [vm_compute; discriminate | vm_compute; lia]|].
  destruct (Season.run_seasonal_drawdown Config.default Season.full_field_schedule)
    as [|e|profiles] eqn:E;
    [vm_compute in E; discriminate | vm_compute in E; discriminate |].
  exists profiles. split; [reflexivity|].
  pose proof (full_season_competitors Config.default Season.full_field_schedule)
    as (_ & _ & _ & _ & _ & H6).
  exact (proj1 (H6 profiles E)).
Defined.

(** ** Laps without an equity value *)

Section MissingEquity.
Import EquityDf DrawdownMetrics.

(** C5.  The drawdown is not at most zero on every lap.  In the race in
    which car 4 makes a pit stop on lap 2 without a lap time, the equity
    table that the accumulator returns gives that lap no equity value, so
    its drawdown is missing and the test that it is at most zero fails.
    When the car retires in the pits on its only lap, its max drawdown is
    missing as well. *)
Theorem drawdown_missing_without_equity :
  (exists table r,
     ExecutionEquity.calculate_execution_equity Config.default Samples.pit_session
     = Some table
     /\ In r (d_df table "NOR")
     /\ LapNumber (base r) = 2%Z
     /\ ExecutionEquity (base r) = NaN
     /\ Drawdown r = NaN
     /\ leb (Drawdown r) (Fin 0) = false)
  /\ (exists table s,
        ExecutionEquity.calculate_execution_equity Config.default
          MoreSamples.retired_session = Some table
        /\ In s (calculate_drawdown_metrics Config.default table)
        /\ s_Driver s = "NOR"%string
        /\ Max_Drawdown s = NaN
        /\ leb (Max_Drawdown s) (Fin 0) = false).
Proof.
  split.
  - eexists. eexists. split; [reflexivity|].
    split; [right; left; reflexivity|].
    repeat split; reflexivity.
  - eexists. eexists. split; [reflexivity|].
    split; [left; reflexivity|].
    repeat split; reflexivity.
Qed.

End MissingEquity.

(** ** The running peak *)

Section PeakFacts.
Import EquityDf DrawdownMetrics ScanSpec.

Lemma Qmax_one_of (x y : Q) : Qmax x y = x \/ Qmax x y = y.
Proof. unfold Qmax. destruct (Qle_bool x y); auto. Qed.

(** The peak carried after some rows is the peak carried before them or
    the equity of one of them, and bounds both. *)
Lemma peak_after_spec (rows : list EquityDf.row) : forall m,
  match peak_after m rows with
  | None => m = None /\ forall r, In r rows -> ExecutionEquity r = NaN
  | Some q =>
      (m = Some q \/ exists r, In r rows /\ ExecutionEquity r = Fin q)
      /\ (forall y, m = Some y -> y <= q)
      /\ (forall r y, In r rows -> ExecutionEquity r = Fin y -> y <= q)
  end.
Proof.
  induction rows as [|r t IH]; intro m; simpl.
  - destruct m as [q|].
    + split; [now left|]. split.
      * intros y E. injection E as <-. apply Qle_refl.
      * intros r y [].
    + split; [reflexivity | intros r []].
  - destruct (ExecutionEquity r) as [|x] eqn:Ex.
    + specialize (IH m). destruct (peak_after m t) as [q|].
      * destruct IH as (H1 & H2 & H3). split; [| split; [exact H2|]].
        -- destruct H1 as [H1 | (r0 & Hr0 & E)]; [now left | right; eauto].
        -- intros r0 y [<- | Hr0] E; [congruence | eauto].
      * destruct IH as (H1 & H2). split; [exact H1|].
        intros r0 [<- | Hr0]; auto.
    + set (p := match m with None => x | Some y => Qmax y x end).
      assert (Hp : x <= p /\ (forall y, m = Some y -> y <= p)
                   /\ (m = Some p \/ p = x)).
      { unfold p. destruct m as [y|].
        - split; [apply Qmax_ub_r|]. split.
          + intros y' E. injection E as <-. apply Qmax_ub_l.
          + destruct (Qmax_one_of y x) as [-> | ->]; auto.
        - split; [apply Qle_refl|]. split; [discriminate | now right]. }
      destruct Hp as (Hx & Hm & Hone). clearbody p.
      specialize (IH (Some p)). destruct (peak_after (Some p) t) as [q|].
      * destruct IH as (H1 & H2 & H3).
        assert (Hpq : p <= q) by now apply H2.
        split; [| split].
        -- destruct H1 as [H1 | (r0 & Hr0 & E)].
           ++ injection H1 as <-.
              destruct Hone as [E | E]; [now left|].
              right. exists r. split; [now left | congruence].
           ++ right. eauto.
        -- intros y E. eapply Qle_trans; [apply Hm; exact E | exact Hpq].
        -- intros r0 y [<- | Hr0] E.
           ++ rewrite Ex in E. injection E as <-.
              eapply Qle_trans; [exact Hx | exact Hpq].
           ++ eauto.
      * destruct IH as [H _]. discriminate.
Qed.

(** X22.  The peak of a lap is the running maximum of the competitor's
    cumulative equity.  On a lap with an equity value the peak is the
    largest equity value of the competitor's laps up to and including that
    lap: it is the equity of one of them and is not below that of any of
    them; the drawdown is the lap's equity minus that peak.  On a lap
    without an equity value the peak and the drawdown are missing. *)
Theorem peak_is_running_maximum (equity_df : list EquityDf.row) (driver : string)
    (before : list d_row) (r : d_row) (after : list d_row) :
  d_df equity_df driver = before ++ r :: after ->
  match ExecutionEquity (base r) with
  | NaN => Peak r = NaN /\ Drawdown r = NaN
  | Fin v =>
      exists p,
        Peak r = Fin p
        /\ Drawdown r = Fin (v - p)
        /\ v <= p
        /\ (exists r0, In r0 (before ++ [r]) /\ ExecutionEquity (base r0) = Fin p)
        /\ (forall r0 y, In r0 (before ++ [r]) ->
                         ExecutionEquity (base r0) = Fin y -> y <= p)
  end.
Proof.
  unfold d_df. set (rows := sort_by lap_le _). intro H.
  rewrite with_drawdown_from_None in H.
  assert (Hrows : rows = map base before ++ base r :: map base after).
  { change (base r :: map base after) with (map base (r :: after)).
    rewrite <- map_app, <- H. symmetry. apply with_drawdown_from_base. }
  rewrite Hrows, with_drawdown_from_app in H.
  assert (Hb : with_drawdown_from None (map base before) = before).
  { eapply app_same_length; [| exact H].
    rewrite <- (length_map base (with_drawdown_from None (map base before))).
    now rewrite with_drawdown_from_base, length_map. }
  rewrite Hb in H. apply app_inv_head in H.
  rewrite with_drawdown_from_cons in H.
  pose proof (peak_after_spec (map base before) None) as Hpeak.
  destruct (ExecutionEquity (base r)) as [|v] eqn:Ev.
  - injection H as Hr _. rewrite <- Hr. split; reflexivity.
  - cbv zeta in H. injection H as Hr _.
    assert (HP : Peak r
                 = Fin (match peak_after None (map base before) with
                        | None => v
                        | Some y => Qmax y v
                        end)) by (rewrite <- Hr; reflexivity).
    assert (HD : Drawdown r
                 = Fin (v - match peak_after None (map base before) with
                            | None => v
                            | Some y => Qmax y v
                            end)) by (rewrite <- Hr; reflexivity).
    clear Hr.
    assert (Hlast : In r (before ++ [r])) by (apply in_or_app; right; now left).
    destruct (peak_after None (map base before)) as [q|].
    + destruct Hpeak as (H1 & _ & H3).
      destruct H1 as [H1 | (b0 & Hb0 & E0)]; [discriminate|].
      apply in_map_iff in Hb0. destruct Hb0 as (r0 & <- & Hr0).
      exists (Qmax q v).
      split; [exact HP|]. split; [exact HD|].
      split; [apply Qmax_ub_r|]. split.
      * destruct (Qmax_one_of q v) as [-> | ->].
        -- exists r0. split; [apply in_or_app; now left | exact E0].
        -- exists r. split; [exact Hlast | exact Ev].
      * intros r1 y Hin Hy. apply in_app_or in Hin.
        destruct Hin as [Hin | [<- | []]].
        -- eapply Qle_trans; [| apply Qmax_ub_l].
           apply (H3 (base r1)); [now apply in_map | exact Hy].
        -- rewrite Ev in Hy. injection Hy as <-. apply Qmax_ub_r.
    + destruct Hpeak as [_ Hnan].
      exists v.
      split; [exact HP|]. split; [exact HD|].
      split; [apply Qle_refl|]. split.
      * exists r. split; [exact Hlast | exact Ev].
      * intros r1 y Hin Hy. apply in_app_or in Hin.
        destruct Hin as [Hin | [<- | []]].
        -- rewrite (Hnan (base r1)) in Hy by now apply in_map. discriminate.
        -- rewrite Ev in Hy. injection Hy as <-. apply Qle_refl.
Qed.

End PeakFacts.

(** The third lap of the one-competitor table: its peak is the equity of
    the first lap. *)
Lemma peak_is_running_maximum_witness :
  match EquityDf.ExecutionEquity (DrawdownMetrics.base (MoreSamples.nor_lap 2)) with
  | NaN => DrawdownMetrics.Peak (MoreSamples.nor_lap 2) = NaN
           /\ DrawdownMetrics.Drawdown (MoreSamples.nor_lap 2) = NaN
  | Fin v =>
      exists p,
        DrawdownMetrics.Peak (MoreSamples.nor_lap 2) = Fin p
        /\ DrawdownMetrics.Drawdown (MoreSamples.nor_lap 2) = Fin (v - p)
        /\ v <= p
        /\ (exists r0,
              In r0 ([MoreSamples.nor_lap 0; MoreSamples.nor_lap 1]
                     ++ [MoreSamples.nor_lap 2])
              /\ EquityDf.ExecutionEquity (DrawdownMetrics.base r0) = Fin p)
        /\ (forall r0 y,
              In r0 ([MoreSamples.nor_lap 0; MoreSamples.nor_lap 1]
                     ++ [MoreSamples.nor_lap 2]) ->
              EquityDf.ExecutionEquity (DrawdownMetrics.base r0) = Fin y -> y <= p)
  end.
Proof.
  apply (peak_is_running_maximum Samples.nor_equity_df "NOR"
           [MoreSamples.nor_lap 0; MoreSamples.nor_lap 1] (MoreSamples.nor_lap 2)
           [MoreSamples.nor_lap 3]).
  vm_compute. reflexivity.
Defined.
